(** * Peerbit: the entry log, the transport messages and the shared log

    A shallow embedding of three parts of the repository:

    - [LogModel]: the class [Log] (constructor, [traverse], [append],
      [join], [cutLog], [findHeads], [difference]);
    - [Messages]: the transport messages ([sign], [verifyMultiSig],
      [Message.verify], [ACK.sign], [ACK.verify]);
    - [SharedLogModel]: leader selection and the replicator ring of
      [SharedLog] ([findLeaders], [collectNodesAroundPoint],
      [_modifyReplicators], [append]).

    JavaScript objects used as dictionaries keyed by entry hash are finite
    maps ([gmap]); objects whose enumeration order is observed are
    association lists; mutation is explicit state passing; exceptions are
    a result type. *)

From Stdlib Require Import ZArith List Bool Lia Floats.
From stdpp Require Import gmap strings list fin_maps.

Open Scope Z_scope.

(* [set_solver] clears hypotheses that its own steps have already used. *)
Set Warnings "-clear-no-such-hyp".

(** ** Results of operations that may throw *)

Inductive Error :=
| AccessError
| SignatureError
| Unexpected
| OutOfFuel.

Inductive Result (A : Type) :=
| Ok (a : A)
| Throw (e : Error).
Arguments Ok {A} a.
Arguments Throw {A} e.

Definition bind {A B} (r : Result A) (f : A -> Result B) : Result B :=
  match r with
  | Ok a => f a
  | Throw e => Throw e
  end.

Notation "'let*' x := r 'in' k" := (bind r (fun x => k))
  (at level 10, x name, r at level 100, k at level 200).

(** ** JavaScript helpers *)

(** [Array.prototype.sort]: a stable sort; [le a b] says that the
    comparator does not put [b] before [a] (its value is not positive). *)
Fixpoint js_insert {A} (le : A -> A -> bool) (x : A) (l : list A) : list A :=
  match l with
  | [] => [x]
  | y :: l' => if le x y then x :: l else y :: js_insert le x l'
  end.

Definition js_sort_by {A} (le : A -> A -> bool) (l : list A) : list A :=
  foldr (js_insert le) [] l.

Definition js_sort {A} (cmp : A -> A -> Z) (l : list A) : list A :=
  js_sort_by (fun a b => cmp a b <=? 0) l.

(** [Array.prototype.slice(start)] for an integer [start]. *)
Definition js_slice {A} (start : Z) (l : list A) : list A :=
  if start <? 0
  then drop (Z.to_nat (Z.max (Z.of_nat (length l) + start) 0)) l
  else drop (Z.to_nat start) l.

(** [Object.values] and [Object.keys] of a dictionary. *)
Definition Object_values {V} (m : gmap string V) : list V := (map_to_list m).*2.
Definition Object_keys {V} (m : gmap string V) : list string := (map_to_list m).*1.

(** An object whose enumeration order is observed: keys in insertion
    order, assignment to an existing key keeps its place. *)
Fixpoint obj_set {V} (k : string) (v : V) (o : list (string * V)) : list (string * V) :=
  match o with
  | [] => [(k, v)]
  | (k', v') :: o' =>
      if decide (k' = k) then (k', v) :: o' else (k', v') :: obj_set k v o'
  end.

Lemma js_insert_Permutation {A} (le : A -> A -> bool) x l :
  js_insert le x l ≡ₚ x :: l.
Proof.
  induction l as [|y l IH]; cbn; [done|].
  destruct (le x y); [done|]. rewrite IH. apply Permutation_swap.
Qed.

Lemma js_sort_by_Permutation {A} (le : A -> A -> bool) l :
  js_sort_by le l ≡ₚ l.
Proof.
  induction l as [|x l IH]; cbn; [done|].
  rewrite js_insert_Permutation. by rewrite IH.
Qed.

Lemma js_sort_Permutation {A} (cmp : A -> A -> Z) l : js_sort cmp l ≡ₚ l.
Proof. apply js_sort_by_Permutation. Qed.

Module LogModel.

(** *** Entries *)

Abbreviation Hash := string (only parsing).

Record LamportClock := Clock {
  clock_id : string;
  time : Z
}.

(** The decrypted metadata of an entry: the id of the log it was created
    for, the identity of its creator and the signature. *)
Record Metadata := {
  idDecrypted : string;
  identity : string;
  signature : string
}.

Record Entry := {
  metadata : Metadata;
  clock : LamportClock;
  payload : string;
  next : list Hash;
  refs : list Hash;
  hash : Hash
}.

#[global] Instance LamportClock_eq_dec : EqDecision LamportClock.
Proof. solve_decision. Defined.
#[global] Instance Metadata_eq_dec : EqDecision Metadata.
Proof. solve_decision. Defined.
#[global] Instance Entry_eq_dec : EqDecision Entry.
Proof. solve_decision. Defined.

(** Modelled from the spec: [LamportClock.compare] (lamport-clock.ts is
    not part of the sources): Lamport order on the time, ties broken on
    the clock id. *)
Definition Clock_compare (a b : LamportClock) : Z :=
  let dist := time a - time b in
  if (dist =? 0) && negb (bool_decide (clock_id a = clock_id b))
  then (if String.ltb (clock_id a) (clock_id b) then -1 else 1)
  else dist.

(** [Entry.compare] *)
Definition Entry_compare (a b : Entry) : Z :=
  let distance := Clock_compare (clock a) (clock b) in
  if distance =? 0
  then (if String.ltb (clock_id (clock a)) (clock_id (clock b)) then -1 else 1)
  else distance.

Definition isDefined {A} (o : option A) : bool :=
  match o with Some _ => true | None => false end.
Definition getHash (e : Entry) : Hash := hash e.
Definition getNextPointers (e : Entry) : list Hash := next e.
Definition maxClockTimeReducer (res : Z) (acc : Entry) : Z :=
  Z.max res (time (clock acc)).
Definition uniqueEntriesReducer (res : gmap Hash Entry) (acc : Entry) : gmap Hash Entry :=
  <[hash acc := acc]> res.

(** *** The log *)

Record RecycleOptions := {
  maxOplogLength : option Z;
  cutOplogToLength : option Z
}.

Record Log := {
  _id : string;
  _identity : string;
  _entryIndex : gmap Hash Entry;
  _headsIndex : gmap Hash Entry;
  _nextsIndex : gmap Hash Hash;
  _length : Z;
  _clock : LamportClock;
  _recycle : RecycleOptions
}.

Definition set_clock (c : LamportClock) (L : Log) : Log :=
  {| _id := _id L; _identity := _identity L; _entryIndex := _entryIndex L;
     _headsIndex := _headsIndex L; _nextsIndex := _nextsIndex L;
     _length := _length L; _clock := c; _recycle := _recycle L |}.

(** Modelled from the spec: the entry index of this version of the log
    (entry-index.ts of the sources is a later one): a dictionary from hash
    to entry with [get], [set], [add] (merge) and [length]. *)
Definition EntryIndex_get (ix : gmap Hash Entry) (k : Hash) : option Entry := ix !! k.
Definition EntryIndex_set (k : Hash) (v : Entry) (ix : gmap Hash Entry) := <[k := v]> ix.
Definition EntryIndex_add (newItems ix : gmap Hash Entry) : gmap Hash Entry := newItems ∪ ix.
Definition EntryIndex_length (ix : gmap Hash Entry) : Z := Z.of_nat (size ix).

Definition get (L : Log) (h : Hash) : option Entry := EntryIndex_get (_entryIndex L) h.

(** [Log.findHeads] *)
Definition indexReducer (res : gmap Hash Hash) (entry : Entry) : gmap Hash Hash :=
  fold_left (fun r e => <[e := hash entry]> r) (next entry) res.

Definition compareIds (a b : Entry) : Z := Clock_compare (clock a) (clock b).

Definition findHeads (entries : list Entry) : list Entry :=
  let items := fold_left indexReducer entries ∅ in
  js_sort compareIds (filter (fun e => items !! hash e = None) entries).

Section WithEnvironment.

(** The collaborators of the log: the sort function of the log
    ([NoZeroes(sortFn)], log-sorting.ts is not part of the sources), the
    content hash of the block store, the access controller, the signature
    check and the signer of the identity provider. *)
Variable sortFn : Entry -> Entry -> Z.
Variable toMultihash : Entry -> Hash.
Variable canAppend : string -> string -> bool.
Variable verifyEntry : Entry -> bool.
Variable signData : string -> string -> LamportClock -> list Hash -> list Hash -> string -> string.

(** The getter [heads] *)
Definition heads (L : Log) : list Entry :=
  rev (js_sort sortFn (Object_values (_headsIndex L))).

(** [traverse]: the loop, with the state [(stack, traversed, result, count)]. *)
Definition addToStack (st : list Entry * gset Hash) (entry : Entry) : list Entry * gset Hash :=
  let '(stack, traversed) := st in
  if decide (hash entry ∈ traversed) then st
  else (rev (js_sort sortFn (entry :: stack)), {[hash entry]} ∪ traversed).

Fixpoint traverse_loop (fuel : nat) (L : Log) (amount : Z) (endHash : option Hash)
    (stack : list Entry) (traversed : gset Hash)
    (result : list (Hash * Entry)) (count : Z) : Result (list (Hash * Entry)) :=
  match stack with
  | [] => Ok result
  | entry :: stack' =>
      if negb ((count <? amount) || (amount <? 0)) then Ok result
      else match fuel with
      | O => Throw OutOfFuel
      | S fuel' =>
          let result := obj_set (hash entry) entry result in
          let traversed := {[hash entry]} ∪ traversed in
          let count := count + 1 in
          if bool_decide (endHash = Some (hash entry)) then Ok result
          else
            let entries := omap (get L) (next entry) in
            let '(stack'', traversed') := fold_left addToStack entries (stack', traversed) in
            traverse_loop fuel' L amount endHash stack'' traversed' result count
      end
  end.

Definition traverse (L : Log) (rootEntries : list Entry) (amount : Z)
    (endHash : option Hash) : Result (list (Hash * Entry)) :=
  traverse_loop (length rootEntries + size (_entryIndex L)) L amount endHash
    (rev (js_sort sortFn rootEntries)) ∅ [] 0.

(** The getter [values] *)
Definition values (L : Log) : Result (list Entry) :=
  let* r := traverse L (heads L) (-1) None in Ok (rev (r.*2)).

(** [cutLog] *)
Definition cutLog (L : Log) (size : Z) : Result Log :=
  let* tmp := values L in
  let tmp := js_slice (- size) tmp in
  let ix := fold_left uniqueEntriesReducer tmp ∅ in
  Ok {| _id := _id L; _identity := _identity L;
        _entryIndex := ix;
        _headsIndex := fold_left uniqueEntriesReducer (findHeads tmp) ∅;
        _nextsIndex := _nextsIndex L;
        _length := EntryIndex_length ix;
        _clock := _clock L; _recycle := _recycle L |}.

(** [Log.difference]: the entries of [a] that [b] lacks, found by a
    breadth-first walk from the heads of [a] along [next] and [refs]. *)
Definition pushToStack (b : Log) (st : list Hash * gset Hash) (h : Hash)
    : list Hash * gset Hash :=
  let '(stack, traversed) := st in
  if negb (bool_decide (h ∈ traversed)) && negb (isDefined (get b h))
  then (stack ++ [h], {[h]} ∪ traversed)
  else st.

Fixpoint difference_loop (fuel : nat) (a b : Log) (stack : list Hash)
    (traversed : gset Hash) (res : gmap Hash Entry) : Result (gmap Hash Entry) :=
  match stack with
  | [] => Ok res
  | h :: stack' =>
      match fuel with
      | O => Throw OutOfFuel
      | S fuel' =>
          match get a h with
          | Some entry =>
              if negb (isDefined (get b h)) && bool_decide (idDecrypted (metadata entry) = _id b)
              then
                let res := <[hash entry := entry]> res in
                let traversed := {[hash entry]} ∪ traversed in
                let '(stack'', traversed') :=
                  fold_left (pushToStack b) (next entry ++ refs entry) (stack', traversed) in
                difference_loop fuel' a b stack'' traversed' res
              else difference_loop fuel' a b stack' traversed res
          | None => difference_loop fuel' a b stack' traversed res
          end
      end
  end.

(** Every hash the walk can push: the pointers of the entries of [a]. *)
Definition pointers (a : Log) : gset Hash :=
  ⋃ (List.map (fun e => list_to_set (next e ++ refs e)) (Object_values (_entryIndex a))).

Definition difference (a b : Log) : Result (gmap Hash Entry) :=
  difference_loop (size (_headsIndex a) + size (pointers a)) a b
    (Object_keys (_headsIndex a)) ∅ ∅.

(** [join] *)
Definition truthy (s : string) : bool := negb (bool_decide (s = "")).

Fixpoint checkEntries (l : list Entry) : Result unit :=
  match l with
  | [] => Ok tt
  | e :: l' =>
      if negb (canAppend (payload e) (identity (metadata e))) then Throw AccessError
      else if negb (verifyEntry e) then Throw SignatureError
      else checkEntries l'
  end.

Definition addToNextsIndex (L : Log) (st : Z * gmap Hash Hash) (e : Entry)
    : Z * gmap Hash Hash :=
  let '(len, nexts) := st in
  ((if isDefined (get L (hash e)) then len else len + 1), indexReducer nexts e).

Definition notReferencedByNewItems (nextsFromNewItems : list Hash) (e : Entry) : bool :=
  match find (fun a => bool_decide (a = hash e)) nextsFromNewItems with
  | Some a => negb (truthy a)
  | None => true
  end.

Definition notInCurrentNexts (nextsIndex : gmap Hash Hash) (e : Entry) : bool :=
  match nextsIndex !! hash e with
  | Some v => negb (truthy v)
  | None => true
  end.

Definition join (L log : Log) (size : Z) : Result Log :=
  if negb (bool_decide (_id L = _id log)) then Ok L else
  let* newItems := difference log L in
  let entriesToJoin := Object_values newItems in
  let* _checked := checkEntries entriesToJoin in
  let '(len, nextsIndex) :=
    fold_left (addToNextsIndex L) (Object_values newItems) (_length L, _nextsIndex L) in
  let entryIndex := EntryIndex_add newItems (_entryIndex L) in
  let nextsFromNewItems := flat_map getNextPointers (Object_values newItems) in
  let mergedHeads :=
    fold_left uniqueEntriesReducer
      (List.filter (notInCurrentNexts nextsIndex)
        (List.filter (notReferencedByNewItems nextsFromNewItems)
          (findHeads (Object_values (_headsIndex log ∪ _headsIndex L))))) ∅ in
  let L1 := {| _id := _id L; _identity := _identity L; _entryIndex := entryIndex;
               _headsIndex := mergedHeads; _nextsIndex := nextsIndex;
               _length := len; _clock := _clock L; _recycle := _recycle L |} in
  let* L2 := (if -1 <? size then cutLog L1 size else Ok L1) in
  let maxClock := fold_left maxClockTimeReducer (Object_values (_headsIndex L2)) 0 in
  Ok (set_clock (Clock (clock_id (_clock L2)) (Z.max (time (_clock L2)) maxClock)) L2).

(** The constructor *)
Record LogOptions := {
  o_logId : option string;
  o_entries : option (list Entry);
  o_heads : option (list Entry);
  o_clock : option LamportClock;
  o_recycle : RecycleOptions
}.

Definition newLog (randomId : string) (identity : string) (options : LogOptions) : Log :=
  let uniqueEntries := fold_left uniqueEntriesReducer (default [] (o_entries options)) ∅ in
  let entries := Object_values uniqueEntries in
  let heads0 := default (findHeads entries) (o_heads options) in
  let headsIndex := fold_left uniqueEntriesReducer heads0 ∅ in
  let nextsIndex := fold_left indexReducer entries ∅ in
  let L0 := {| _id := default randomId (o_logId options); _identity := identity;
               _entryIndex := uniqueEntries; _headsIndex := headsIndex;
               _nextsIndex := nextsIndex; _length := Z.of_nat (length entries);
               _clock := Clock identity 0;
               _recycle := {| maxOplogLength := maxOplogLength (o_recycle options);
                              cutOplogToLength :=
                                match cutOplogToLength (o_recycle options) with
                                | Some c => Some c
                                | None => maxOplogLength (o_recycle options)
                                end |} |} in
  let maxTime := Z.max (from_option time 0 (o_clock options))
                       (fold_left maxClockTimeReducer (heads L0) 0) in
  set_clock (Clock identity maxTime) L0.

(** [Entry.create], without encryption *)
Definition Entry_create (identity logId data : string) (nexts : list Hash)
    (clock : LamportClock) (refs : list Hash) : Result Entry :=
  if negb (canAppend data identity) then Throw AccessError else
  let sig := signData logId data clock nexts refs identity in
  let entry := {| metadata := {| idDecrypted := logId; identity := identity; signature := sig |};
                  clock := clock; payload := data; next := nexts; refs := refs;
                  hash := "" |} in
  Ok {| metadata := metadata entry; clock := clock; payload := data;
        next := nexts; refs := refs; hash := toMultihash entry |}.

(** [append] *)
Definition Set_add (x : Entry) (s : list Entry) : list Entry :=
  if bool_decide (x ∈ s) then s else s ++ [x].

(** The values [i] takes in [for (let i = 1; i <= maxDistance; i *= 2)] *)
Definition pow2_upto (maxDistance : Z) : list Z :=
  if 1 <=? maxDistance
  then List.map (fun k => 2 ^ Z.of_nat k) (seq 0 (S (Z.to_nat (Z.log2 maxDistance))))
  else [].

Definition getEveryPow2 (all : list Entry) (maxDistance : Z) : list Entry :=
  fold_left (fun entries i =>
               let index := Z.min (i - 1) (Z.of_nat (length all) - 1) in
               match all !! Z.to_nat index with
               | Some e => Set_add e entries
               | None => entries
               end) (pow2_upto maxDistance) [].

Definition append (L : Log) (data : string) (pointerCount : Z) : Log * Result Entry :=
  let newTime := Z.max (time (_clock L)) (fold_left maxClockTimeReducer (heads L) 0) + 1 in
  let L := set_clock (Clock (clock_id (_clock L)) newTime) L in
  match traverse L (heads L) (Z.max pointerCount (Z.of_nat (length (heads L)))) None with
  | Throw e => (L, Throw e)
  | Ok r =>
      let all := r.*2 in
      let references := getEveryPow2 all (Z.min pointerCount (Z.of_nat (length all))) in
      let references :=
        match last all with
        | Some e => if Z.of_nat (length all) <? pointerCount then Set_add e references
                    else references
        | None => references
        end in
      let nexts := (fold_left (fun o e => obj_set (hash e) e o) (rev (heads L)) []).*1 in
      let isNext e := negb (bool_decide (e ∈ nexts)) in
      let refs := List.filter isNext (List.map getHash references) in
      match Entry_create (_identity L) (_id L) data nexts (_clock L) refs with
      | Throw e => (L, Throw e)
      | Ok entry =>
          let L := {| _id := _id L; _identity := _identity L;
                      _entryIndex := EntryIndex_set (hash entry) entry (_entryIndex L);
                      _headsIndex := {[hash entry := entry]};
                      _nextsIndex := fold_left (fun r e => <[e := hash entry]> r) nexts (_nextsIndex L);
                      _length := _length L + 1;
                      _clock := _clock L; _recycle := _recycle L |} in
          match maxOplogLength (_recycle L) with
          | Some m =>
              if m <? _length L
              then match cutLog L (default 0 (cutOplogToLength (_recycle L))) with
                   | Ok L' => (L', Ok entry)
                   | Throw e => (L, Throw e)
                   end
              else (L, Ok entry)
          | None => (L, Ok entry)
          end
      end
  end.

End WithEnvironment.

(** *** Properties of the log *)

Lemma elem_of_Object_values {V} (m : gmap string V) (v : V) :
  v ∈ Object_values m <-> exists k, m !! k = Some v.
Proof.
  unfold Object_values. rewrite list_elem_of_fmap. split.
  - intros [[k v'] [-> Hin]]. exists k. by apply elem_of_map_to_list.
  - intros [k Hk]. exists (k, v). split; [done|]. by apply elem_of_map_to_list.
Qed.

Lemma length_Object_values {V} (m : gmap string V) :
  length (Object_values m) = size m.
Proof. unfold Object_values. by rewrite length_fmap, length_map_to_list. Qed.

Lemma length_Object_keys {V} (m : gmap string V) :
  length (Object_keys m) = size m.
Proof. unfold Object_keys. by rewrite length_fmap, length_map_to_list. Qed.

Lemma length_js_sort {A} (cmp : A -> A -> Z) l : length (js_sort cmp l) = length l.
Proof. by rewrite js_sort_Permutation. Qed.

Lemma size_list_to_set_le (l : list Hash) :
  (size (list_to_set l : gset Hash) <= length l)%nat.
Proof.
  induction l as [|x l IH]; cbn.
  - by rewrite size_empty.
  - rewrite size_union_alt, size_singleton.
    assert (Hsub : (list_to_set l ∖ {[x]} : gset Hash) ⊆ list_to_set l) by set_solver.
    pose proof (subseteq_size _ _ Hsub). lia.
Qed.

Definition hashes (L : Log) : gset Hash :=
  list_to_set (hash <$> Object_values (_entryIndex L)).

Lemma elem_of_hashes L k e : _entryIndex L !! k = Some e -> hash e ∈ hashes L.
Proof.
  intros Hk. unfold hashes. apply elem_of_list_to_set, list_elem_of_fmap.
  exists e. split; [done|]. apply elem_of_Object_values. eauto.
Qed.

Lemma size_hashes L : (size (hashes L) <= size (_entryIndex L))%nat.
Proof.
  unfold hashes. etrans; [apply size_list_to_set_le|].
  by rewrite length_fmap, length_Object_values.
Qed.

Lemma size_difference_insert (X T : gset Hash) h :
  h ∈ X -> h ∉ T -> (S (size (X ∖ ({[h]} ∪ T))) = size (X ∖ T))%nat.
Proof.
  intros HX HT.
  assert (X ∖ T = {[h]} ∪ (X ∖ ({[h]} ∪ T))) as ->.
  { apply set_eq. intros x. destruct (decide (x = h)); set_solver. }
  pose proof (size_union (C:=gset string) {[h]} (X ∖ ({[h]} ∪ T))) as Hs.
  rewrite Hs by set_solver. by rewrite size_singleton.
Qed.

Lemma size_difference_mono (X T T' : gset Hash) :
  T ⊆ T' -> (size (X ∖ T') <= size (X ∖ T))%nat.
Proof. intros. apply subseteq_size. set_solver. Qed.

Section Traverse.
Variable sortFn : Entry -> Entry -> Z.

Lemma addToStack_measure L (st : list Entry * gset Hash) entry :
  hash entry ∈ hashes L ->
  (length (addToStack sortFn st entry).1 + size (hashes L ∖ (addToStack sortFn st entry).2)
   <= length st.1 + size (hashes L ∖ st.2))%nat.
Proof.
  intros Hin. destruct st as [stack traversed]. unfold addToStack.
  case_decide as Ht; cbn [fst snd]; [lia|].
  rewrite length_rev, length_js_sort. cbn [length].
  pose proof (size_difference_insert _ _ _ Hin Ht). lia.
Qed.

Lemma fold_addToStack_measure L entries (st : list Entry * gset Hash) :
  Forall (fun e => hash e ∈ hashes L) entries ->
  (length (fold_left (addToStack sortFn) entries st).1
     + size (hashes L ∖ (fold_left (addToStack sortFn) entries st).2)
   <= length st.1 + size (hashes L ∖ st.2))%nat.
Proof.
  revert st. induction entries as [|e entries IH]; intros st Hall; cbn; [lia|].
  apply Forall_cons in Hall as [He Hall].
  etrans; [apply IH; done|]. by apply addToStack_measure.
Qed.

Lemma omap_get_hashes L (l : list Hash) :
  Forall (fun e => hash e ∈ hashes L) (omap (get L) l).
Proof.
  apply Forall_forall. intros e He. apply list_elem_of_omap in He as (h & _ & Hh).
  by eapply elem_of_hashes.
Qed.

Lemma traverse_loop_terminates L amount endHash fuel stack traversed result count :
  (length stack + size (hashes L ∖ traversed) <= fuel)%nat ->
  exists r, traverse_loop sortFn fuel L amount endHash stack traversed result count = Ok r.
Proof.
  revert stack traversed result count.
  induction fuel as [|fuel IH]; intros stack traversed result count Hm.
  - destruct stack; [cbn; eauto|cbn in Hm; lia].
  - destruct stack as [|entry stack]; [cbn; eauto|]. cbn [traverse_loop].
    destruct (negb _); [eauto|].
    case_bool_decide; [eauto|].
    pose proof (fold_addToStack_measure L (omap (get L) (next entry))
                  (stack, {[hash entry]} ∪ traversed) (omap_get_hashes L _)) as Hf.
    destruct (fold_left _ _ _) as [stack'' traversed'] eqn:Hfold.
    apply IH. cbn in Hf, Hm.
    assert (Hsub : traversed ⊆ {[hash entry]} ∪ traversed) by set_solver.
    pose proof (size_difference_mono (hashes L) _ _ Hsub). lia.
Qed.

Lemma traverse_terminates L rootEntries amount endHash :
  exists r, traverse sortFn L rootEntries amount endHash = Ok r.
Proof.
  unfold traverse. apply traverse_loop_terminates.
  rewrite length_rev, length_js_sort.
  pose proof (size_hashes L).
  assert ((hashes L ∖ ∅ : gset Hash) = hashes L) as -> by set_solver. lia.
Qed.

End Traverse.

Lemma NoDup_fmap_eq {A B} (f : A -> B) (l : list A) x y :
  NoDup (f <$> l) -> x ∈ l -> y ∈ l -> f x = f y -> x = y.
Proof.
  induction l as [|z l IH]; cbn; [by intros _ ?%elem_of_nil|].
  intros [Hz Hnd]%NoDup_cons [->|Hx]%elem_of_cons [->|Hy]%elem_of_cons Hf; try done.
  - destruct Hz. rewrite Hf. by apply list_elem_of_fmap_2.
  - destruct Hz. rewrite <- Hf. by apply list_elem_of_fmap_2.
  - by apply IH.
Qed.

(** fold of uniqueEntriesReducer *)
Lemma fold_unique_lookup l (m : gmap Hash Entry) k e :
  fold_left uniqueEntriesReducer l m !! k = Some e ->
  (e ∈ l /\ hash e = k) \/ m !! k = Some e.
Proof.
  revert m. induction l as [|x l IH]; intros m; cbn; [by right|].
  intros Hl. apply IH in Hl as [[Hin Hk]|Hm].
  - left. split; [by right|done].
  - unfold uniqueEntriesReducer in Hm.
    destruct (decide (hash x = k)) as [<-|Hne].
    + rewrite lookup_insert_eq in Hm. injection Hm as <-. left. split; [by left|done].
    + rewrite lookup_insert_ne in Hm by done. by right.
Qed.

Lemma fold_unique_lookup_None l (m : gmap Hash Entry) k :
  fold_left uniqueEntriesReducer l m !! k = None <->
  m !! k = None /\ forall e, e ∈ l -> hash e <> k.
Proof.
  revert m. induction l as [|x l IH]; intros m; cbn.
  - split; [intros ?; split; [done|]; by intros ? ?%elem_of_nil|by intros [? _]].
  - rewrite IH. unfold uniqueEntriesReducer. rewrite lookup_insert_None. split.
    + intros [[Hm Hx] Hl]. split; [done|]. intros e [->|He]%elem_of_cons; [done|by apply Hl].
    + intros [Hm Hl]. split; [split; [done|apply Hl; by left]|].
      intros e He. apply Hl. by right.
Qed.

(** When the hashes of [l] are distinct, the fold holds every entry of [l]. *)
Lemma fold_unique_lookup_NoDup l k e :
  NoDup (hash <$> l) ->
  fold_left uniqueEntriesReducer l ∅ !! k = Some e <-> e ∈ l /\ hash e = k.
Proof.
  intros Hnd. split.
  - intros [?|Hm]%fold_unique_lookup; [done|]. by rewrite lookup_empty in Hm.
  - intros [Hin <-].
    destruct (fold_left uniqueEntriesReducer l ∅ !! hash e) as [e'|] eqn:Hl.
    + apply fold_unique_lookup in Hl as [[Hin' Hk]|Hm]; [|by rewrite lookup_empty in Hm].
      f_equal. eapply (NoDup_fmap_eq hash); eauto.
    + apply fold_unique_lookup_None in Hl as [_ Hl]. by destruct (Hl e Hin).
Qed.

(** fold of indexReducer: the keys are the next pointers *)
Lemma indexReducer_lookup entry (m : gmap Hash Hash) k v :
  indexReducer m entry !! k = Some v ->
  (k ∈ next entry /\ v = hash entry) \/ m !! k = Some v.
Proof.
  unfold indexReducer. generalize (next entry) as l. intros l. revert m.
  induction l as [|x l IH]; intros m; cbn; [by right|].
  intros [[Hin ->]|Hm]%IH.
  - left. split; [by right|done].
  - destruct (decide (x = k)) as [->|Hne].
    + rewrite lookup_insert_eq in Hm. injection Hm as <-. left. split; [by left|done].
    + rewrite lookup_insert_ne in Hm by done. by right.
Qed.

Lemma indexReducer_dom entry (m : gmap Hash Hash) :
  dom (indexReducer m entry) = dom m ∪ list_to_set (next entry).
Proof.
  unfold indexReducer. generalize (next entry) as l. intros l. revert m.
  induction l as [|x l IH]; intros m; cbn; [set_solver|].
  rewrite IH, dom_insert_L. set_solver.
Qed.

Lemma fold_indexReducer_dom l (m : gmap Hash Hash) :
  dom (fold_left indexReducer l m) = dom m ∪ ⋃ (List.map (fun e => list_to_set (next e)) l).
Proof.
  revert m. induction l as [|x l IH]; intros m; cbn; [set_solver|].
  rewrite IH, indexReducer_dom. set_solver.
Qed.

Lemma fold_indexReducer_lookup l (m : gmap Hash Hash) k v :
  fold_left indexReducer l m !! k = Some v ->
  (exists e, e ∈ l /\ k ∈ next e /\ v = hash e) \/ m !! k = Some v.
Proof.
  revert m. induction l as [|x l IH]; intros m; cbn; [by right|].
  intros [(e & He & Hk & ->)|Hm]%IH.
  - left. exists e. split; [by right|done].
  - apply indexReducer_lookup in Hm as [[Hk ->]|Hm]; [|by right].
    left. exists x. split; [by left|done].
Qed.

(** The next pointers of a list of entries *)
Definition nexts_of (l : list Entry) : gset Hash :=
  ⋃ (List.map (fun e => list_to_set (next e)) l).

Lemma elem_of_nexts_of l k :
  k ∈ nexts_of l <-> exists e, e ∈ l /\ k ∈ next e.
Proof.
  unfold nexts_of. rewrite elem_of_union_list. split.
  - intros (X & HX & Hk). apply list_elem_of_In, in_map_iff in HX as (e & <- & He).
    exists e. split; [by apply list_elem_of_In|]. by apply elem_of_list_to_set in Hk.
  - intros (e & He & Hk). exists (list_to_set (next e)). split.
    + apply list_elem_of_In, in_map_iff. exists e. split; [done|by apply list_elem_of_In].
    + by apply elem_of_list_to_set.
Qed.

(** [findHeads]: the entries no entry of the list points to *)
Lemma elem_of_findHeads l e :
  e ∈ findHeads l <-> e ∈ l /\ hash e ∉ nexts_of l.
Proof.
  unfold findHeads. rewrite js_sort_Permutation, list_elem_of_filter.
  rewrite <- not_elem_of_dom, fold_indexReducer_dom, dom_empty_L.
  unfold nexts_of. set_solver.
Qed.

(** Well-formed logs *)
Definition all_nexts (ix : gmap Hash Entry) : gset Hash := nexts_of (Object_values ix).

Definition keys_are_hashes (ix : gmap Hash Entry) : Prop :=
  map_Forall (fun k e => hash e = k /\ k <> ""%string) ix.

Definition next_closed (ix : gmap Hash Entry) : Prop :=
  map_Forall (fun _ e => Forall (fun h => is_Some (ix !! h)) (next e)) ix.

Definition older (ix : gmap Hash Entry) (e : Entry) (h : Hash) : Prop :=
  match ix !! h with
  | Some p => time (clock p) < time (clock e)
  | None => True
  end.

#[global] Instance older_dec ix e h : Decision (older ix e h).
Proof. unfold older. destruct (ix !! h); apply _. Defined.

Definition clocks_increase (ix : gmap Hash Entry) : Prop :=
  map_Forall (fun _ e => Forall (older ix e) (next e)) ix.

Definition heads_unreferenced (L : Log) : Prop :=
  _headsIndex L = filter (fun kv => kv.1 ∉ all_nexts (_entryIndex L)) (_entryIndex L).

Definition nexts_exact (L : Log) : Prop :=
  dom (_nextsIndex L) = all_nexts (_entryIndex L)
  /\ map_Forall (fun _ v => v <> ""%string) (_nextsIndex L).

Definition ids_match (L : Log) : Prop :=
  map_Forall (fun _ e => idDecrypted (metadata e) = _id L) (_entryIndex L).

Definition well_formed (L : Log) : Prop :=
  keys_are_hashes (_entryIndex L)
  /\ next_closed (_entryIndex L)
  /\ clocks_increase (_entryIndex L)
  /\ heads_unreferenced L
  /\ nexts_exact L
  /\ ids_match L
  /\ _length L = Z.of_nat (size (_entryIndex L)).

Definition agrees (ix : gmap Hash Entry) (k : Hash) (e : Entry) : Prop :=
  match ix !! k with
  | Some e' => e = e'
  | None => True
  end.

#[global] Instance agrees_dec ix k e : Decision (agrees ix k e).
Proof. unfold agrees. destruct (ix !! k); apply _. Defined.

Definition consistent (ix1 ix2 : gmap Hash Entry) : Prop :=
  map_Forall (agrees ix2) ix1.

#[global] Instance keys_are_hashes_dec ix : Decision (keys_are_hashes ix).
Proof. unfold keys_are_hashes. apply _. Defined.
#[global] Instance next_closed_dec ix : Decision (next_closed ix).
Proof. unfold next_closed. apply _. Defined.
#[global] Instance clocks_increase_dec ix : Decision (clocks_increase ix).
Proof. unfold clocks_increase. apply _. Defined.
#[global] Instance heads_unreferenced_dec L : Decision (heads_unreferenced L).
Proof. unfold heads_unreferenced. apply _. Defined.
#[global] Instance nexts_exact_dec L : Decision (nexts_exact L).
Proof. unfold nexts_exact. apply _. Defined.
#[global] Instance ids_match_dec L : Decision (ids_match L).
Proof. unfold ids_match. apply _. Defined.
#[global] Instance well_formed_dec L : Decision (well_formed L).
Proof. unfold well_formed. apply _. Defined.

#[global] Instance consistent_dec ix1 ix2 : Decision (consistent ix1 ix2).
Proof. unfold consistent. apply _. Defined.

Lemma elem_of_all_nexts ix k :
  k ∈ all_nexts ix <-> exists k' e', ix !! k' = Some e' /\ k ∈ next e'.
Proof.
  unfold all_nexts. rewrite elem_of_nexts_of. split.
  - intros (e & [k' Hk']%elem_of_Object_values & Hk). eauto.
  - intros (k' & e' & Hk' & Hk). exists e'. split; [|done].
    apply elem_of_Object_values. eauto.
Qed.

Lemma consistent_spec ix1 ix2 k e e' :
  consistent ix1 ix2 -> ix1 !! k = Some e -> ix2 !! k = Some e' -> e = e'.
Proof. intros Hc H1 H2. specialize (Hc k e H1). unfold agrees in Hc. by rewrite H2 in Hc. Qed.

Lemma consistent_sym ix1 ix2 : consistent ix1 ix2 -> consistent ix2 ix1.
Proof.
  intros Hc k e Hk. unfold agrees. destruct (ix1 !! k) as [e'|] eqn:H1; [|done].
  symmetry. by eapply consistent_spec.
Qed.

Lemma consistent_union_comm (ix1 ix2 : gmap Hash Entry) :
  consistent ix1 ix2 -> ix1 ∪ ix2 = ix2 ∪ ix1.
Proof.
  intros Hc. apply map_eq. intros k.
  destruct (ix1 !! k) as [e1|] eqn:H1, (ix2 !! k) as [e2|] eqn:H2.
  - rewrite (lookup_union_Some_l _ _ _ _ H1), (lookup_union_Some_l _ _ _ _ H2).
    f_equal. by eapply consistent_spec.
  - by rewrite (lookup_union_Some_l _ _ _ _ H1), (lookup_union_r _ _ _ H2).
  - by rewrite (lookup_union_r _ _ _ H1), (lookup_union_Some_l _ _ _ _ H2).
  - by rewrite !lookup_union_None_2.
Qed.

(** Reachability along [next], inside an index *)
Inductive reach (ix : gmap Hash Entry) (h : Hash) : Hash -> Prop :=
| reach_refl : is_Some (ix !! h) -> reach ix h h
| reach_step k e k' :
    reach ix h k -> ix !! k = Some e -> k' ∈ next e -> is_Some (ix !! k') ->
    reach ix h k'.

Lemma time_bound (ix : gmap Hash Entry) :
  exists T, map_Forall (fun _ e => time (clock e) <= T) ix.
Proof.
  induction ix as [|k e ix Hk _ [T IH]] using map_first_key_ind.
  - exists 0. apply map_Forall_empty.
  - exists (Z.max T (time (clock e))). apply map_Forall_insert; [done|]. split; [lia|].
    eapply map_Forall_impl; [exact IH|]. cbn. intros. lia.
Qed.

Lemma reach_time ix h k eh ek :
  clocks_increase ix -> reach ix h k -> ix !! h = Some eh -> ix !! k = Some ek ->
  time (clock ek) <= time (clock eh).
Proof.
  intros Hc Hr. revert ek. induction Hr as [|k e k' Hr IH He Hk' Hs]; intros ek Hh Hk.
  - rewrite Hh in Hk. injection Hk as <-. lia.
  - specialize (IH e Hh He). specialize (Hc k e He).
    rewrite Forall_forall in Hc. specialize (Hc k' Hk'). unfold older in Hc.
    rewrite Hk in Hc. lia.
Qed.

Lemma head_above L k e :
  clocks_increase (_entryIndex L) -> heads_unreferenced L ->
  _entryIndex L !! k = Some e ->
  exists h, is_Some (_headsIndex L !! h) /\ reach (_entryIndex L) h k.
Proof.
  intros Hc Hh. destruct (time_bound (_entryIndex L)) as [T HT].
  remember (Z.to_nat (T - time (clock e))) as n eqn:Hn.
  revert k e Hn. induction n as [n IH] using lt_wf_ind. intros k e Hn Hk.
  destruct (decide (k ∈ all_nexts (_entryIndex L))) as [Hin|Hnin].
  - apply elem_of_all_nexts in Hin as (k' & e' & Hk' & Hkn).
    pose proof (Hc k' e' Hk') as Hlt. rewrite Forall_forall in Hlt.
    specialize (Hlt k Hkn). unfold older in Hlt. rewrite Hk in Hlt.
    pose proof (HT k' e' Hk') as Hb. cbn in Hb.
    destruct (IH (Z.to_nat (T - time (clock e'))) ltac:(lia) k' e' eq_refl Hk')
      as (h & Hhead & Hr).
    exists h. split; [done|]. eapply reach_step; eauto.
  - exists k. split.
    + rewrite Hh. exists e. apply map_lookup_filter_Some. done.
    + by apply reach_refl.
Qed.

Lemma isDefined_true {A} (o : option A) : isDefined o = true <-> is_Some o.
Proof.
  destruct o; cbn; split; intros H.
  - by eexists.
  - done.
  - done.
  - by destruct H.
Qed.

Lemma isDefined_false {A} (o : option A) : isDefined o = false <-> o = None.
Proof. destruct o; cbn; split; done. Qed.

Lemma get_lookup L h : get L h = _entryIndex L !! h.
Proof. reflexivity. Qed.

(** The pushes of one entry *)
Lemma fold_pushToStack b l stack T :
  exists pushed,
    fold_left (pushToStack b) l (stack, T) = (stack ++ pushed, list_to_set pushed ∪ T)
    /\ (forall h, h ∈ pushed -> h ∈ l /\ _entryIndex b !! h = None)
    /\ (forall h, h ∈ l -> h ∈ list_to_set pushed ∪ T \/ is_Some (_entryIndex b !! h))
    /\ (forall P : gset Hash, (forall h, h ∈ l -> h ∈ P) ->
          (length pushed + size (P ∖ (list_to_set pushed ∪ T)) <= size (P ∖ T))%nat).
Proof.
  revert stack T. induction l as [|h l IH]; intros stack T.
  - exists []. cbn. rewrite app_nil_r. split; [f_equal; set_solver|].
    split; [by intros ? ?%elem_of_nil|]. split; [by intros ? ?%elem_of_nil|].
    intros P _. assert ((∅ ∪ T : gset Hash) = T) as -> by set_solver. lia.
  - cbn [fold_left]. unfold pushToStack at 2.
    destruct (negb (bool_decide (h ∈ T)) && negb (isDefined (get b h))) eqn:Hc.
    + apply andb_true_iff in Hc as [Ht Hb].
      apply negb_true_iff, bool_decide_eq_false in Ht.
      apply negb_true_iff, isDefined_false in Hb. rewrite get_lookup in Hb.
      destruct (IH (stack ++ [h]) ({[h]} ∪ T)) as (pushed & Hf & Hp & Hl & Hm).
      exists (h :: pushed). rewrite Hf, <- app_assoc. cbn [app list_to_set].
      split; [f_equal; set_solver|]. split; [|split].
      * intros x [->|Hx]%elem_of_cons; [split; [by left|done]|].
        destruct (Hp x Hx). split; [by right|done].
      * intros x [->|Hx]%elem_of_cons; [left; set_solver|].
        destruct (Hl x Hx) as [?|?]; [left; set_solver|by right].
      * intros P HP. cbn [length].
        specialize (Hm P (fun x Hx => HP x (list_elem_of_further _ _ _ Hx))).
        pose proof (size_difference_insert P T h (HP h (list_elem_of_here _ _)) Ht) as Hs.
        assert (Hs1 : ({[h]} ∪ list_to_set pushed ∪ T : gset Hash)
                      = list_to_set pushed ∪ ({[h]} ∪ T)) by set_solver.
        rewrite Hs1. lia.
    + destruct (IH stack T) as (pushed & Hf & Hp & Hl & Hm).
      exists pushed. rewrite Hf. split; [done|]. split; [|split].
      * intros x Hx. destruct (Hp x Hx). split; [by right|done].
      * intros x [->|Hx]%elem_of_cons; [|by apply Hl].
        apply andb_false_iff in Hc as [Ht|Hb].
        -- apply negb_false_iff, bool_decide_eq_true in Ht. left. set_solver.
        -- apply negb_false_iff, isDefined_true in Hb. by right.
      * intros P HP. apply Hm. intros x Hx. apply HP. by right.
Qed.

Lemma elem_of_pointers a k e h :
  _entryIndex a !! k = Some e -> h ∈ next e ++ refs e -> h ∈ pointers a.
Proof.
  intros Hk Hh. unfold pointers. apply elem_of_union_list.
  exists (list_to_set (next e ++ refs e)). split; [|by apply elem_of_list_to_set].
  apply list_elem_of_In, in_map_iff. exists e. split; [done|].
  apply list_elem_of_In, elem_of_Object_values. eauto.
Qed.

Section Difference.

Variables a b : Log.
Hypothesis Hkeys : keys_are_hashes (_entryIndex a).
Hypothesis Hids : map_Forall (fun _ e => idDecrypted (metadata e) = _id b) (_entryIndex a).

Definition settled (res : gmap Hash Entry) (stack : list Hash) (h : Hash) : Prop :=
  is_Some (_entryIndex b !! h) \/ is_Some (res !! h) \/ h ∈ stack
  \/ _entryIndex a !! h = None.

Record Inv (stack : list Hash) (T : gset Hash) (res : gmap Hash Entry) : Prop := {
  inv_sound : forall k e, res !! k = Some e ->
                _entryIndex a !! k = Some e /\ _entryIndex b !! k = None;
  inv_next : forall k e h, res !! k = Some e -> h ∈ next e -> settled res stack h;
  inv_heads : forall k, is_Some (_headsIndex a !! k) -> settled res stack k;
  inv_trav : forall h, h ∈ T -> settled res stack h
}.

Lemma settled_skip res h0 stack x :
  is_Some (_entryIndex b !! h0) \/ _entryIndex a !! h0 = None ->
  settled res (h0 :: stack) x -> settled res stack x.
Proof.
  intros Hh0 [?|[?|[Hx|?]]]; unfold settled; eauto.
  apply elem_of_cons in Hx as [->|Hx]; [|eauto]. destruct Hh0; eauto.
Qed.

Lemma settled_add res h0 entry stack pushed x :
  settled res (h0 :: stack) x ->
  settled (<[h0 := entry]> res) (stack ++ pushed) x.
Proof.
  intros [?|[[e He]|[Hx|?]]]; unfold settled; eauto.
  - right; left. destruct (decide (h0 = x)) as [->|Hne].
    + rewrite lookup_insert_eq. eauto.
    + rewrite lookup_insert_ne by done. eauto.
  - apply elem_of_cons in Hx as [->|Hx].
    + right; left. rewrite lookup_insert_eq. eauto.
    + right; right; left. apply elem_of_app. by left.
Qed.

Lemma difference_loop_spec fuel stack T res :
  (length stack + size (pointers a ∖ T) <= fuel)%nat ->
  Inv stack T res ->
  exists r T', difference_loop fuel a b stack T res = Ok r /\ Inv [] T' r.
Proof.
  revert stack T res. induction fuel as [|fuel IH]; intros stack T res Hm HI.
  - destruct stack; [cbn; eauto|cbn in Hm; lia].
  - destruct stack as [|h0 stack]; [cbn; eauto|]. cbn [difference_loop].
    cbn [length] in Hm.
    assert (Hskip : is_Some (_entryIndex b !! h0) \/ _entryIndex a !! h0 = None ->
                    exists r T', difference_loop fuel a b stack T res = Ok r /\ Inv [] T' r).
    { intros Hh0. apply IH; [lia|]. destruct HI as [H1 H2 H3 H4].
      split; [done|..]; eauto using settled_skip. }
    rewrite get_lookup. destruct (_entryIndex a !! h0) as [entry|] eqn:Ha; [|by apply Hskip; right].
    rewrite get_lookup. destruct (_entryIndex b !! h0) as [eb|] eqn:Hb; cbn [isDefined negb andb].
    { apply Hskip. left. eauto. }
    rewrite bool_decide_eq_true_2 by (by apply (Hids h0 entry)).
    destruct (Hkeys h0 entry Ha) as [Hhash _]. rewrite Hhash.
    destruct (fold_pushToStack b (next entry ++ refs entry) stack ({[h0]} ∪ T))
      as (pushed & Hf & Hp & Hl & Hmeas).
    rewrite Hf. apply IH.
    + specialize (Hmeas (pointers a) (fun h Hh => elem_of_pointers a h0 entry h Ha Hh)).
      rewrite length_app.
      pose proof (size_difference_mono (pointers a) T ({[h0]} ∪ T) ltac:(set_solver)). lia.
    + destruct HI as [H1 H2 H3 H4]. split.
      * intros k e. destruct (decide (h0 = k)) as [<-|Hne].
        -- rewrite lookup_insert_eq. intros [= <-]. done.
        -- rewrite lookup_insert_ne by done. apply H1.
      * intros k e h. destruct (decide (h0 = k)) as [<-|Hne].
        -- rewrite lookup_insert_eq. intros [= <-] Hh.
           destruct (Hl h) as [Hin|Hin]; [apply elem_of_app; by left| |by left].
           apply elem_of_union in Hin as [Hin|Hin].
           ++ right; right; left. apply elem_of_app. right. by apply elem_of_list_to_set in Hin.
           ++ apply elem_of_union in Hin as [->%elem_of_singleton|Hin].
              ** right; left. rewrite lookup_insert_eq. eauto.
              ** apply settled_add. by apply H4.
        -- rewrite lookup_insert_ne by done. intros Hk Hh. apply settled_add. eauto.
      * intros k Hk. apply settled_add. eauto.
      * intros h Hin. apply elem_of_union in Hin as [Hin|Hin].
        -- right; right; left. apply elem_of_app. right. by apply elem_of_list_to_set in Hin.
        -- apply elem_of_union in Hin as [->%elem_of_singleton|Hin].
           ++ right; left. rewrite lookup_insert_eq. eauto.
           ++ apply settled_add. by apply H4.
Qed.

Lemma difference_returns :
  exists r T', difference a b = Ok r /\ Inv [] T' r.
Proof.
  unfold difference. apply difference_loop_spec.
  - rewrite length_Object_keys.
    assert ((pointers a ∖ ∅ : gset Hash) = pointers a) as -> by set_solver. lia.
  - split.
    + intros k e. by rewrite lookup_empty.
    + intros k e h. by rewrite lookup_empty.
    + intros k [e Hk]. right; right; left.
      unfold Object_keys. apply list_elem_of_fmap. exists (k, e). split; [done|].
      by apply elem_of_map_to_list.
    + intros h. set_solver.
Qed.

(** What the walk finds, for a well-formed [a] and a [b] that holds the
    parents of its entries and agrees with [a]: the entries of [a] that
    [b] lacks. *)
Hypothesis Hclocks : clocks_increase (_entryIndex a).
Hypothesis Hheads : heads_unreferenced a.
Hypothesis Hclosed : next_closed (_entryIndex b).
Hypothesis Hcons : consistent (_entryIndex b) (_entryIndex a).

Lemma difference_spec : difference a b = Ok (_entryIndex a ∖ _entryIndex b).
Proof.
  destruct difference_returns as (r & T' & Hd & [H1 H2 H3 _]). rewrite Hd. f_equal.
  assert (Hreach : forall h k, reach (_entryIndex a) h k -> is_Some (_headsIndex a !! h) ->
            is_Some (_entryIndex b !! k) \/ is_Some (r !! k)).
  { intros h k Hr Hh. induction Hr as [Ha|k e k' Hr IH He Hk' Hs].
    - destruct (H3 h Hh) as [?|[?|[Hx|Hx]]]; eauto.
      + by apply elem_of_nil in Hx.
      + rewrite Hx in Ha. by destruct Ha.
    - destruct IH as [[eb Hb]|[er Her]].
      + left. pose proof (consistent_spec _ _ _ _ _ Hcons Hb He) as ->.
        specialize (Hclosed k e Hb). rewrite Forall_forall in Hclosed. by apply Hclosed.
      + destruct (H1 k er Her) as [Ha _]. rewrite He in Ha. injection Ha as <-.
        destruct (H2 k e k' Her Hk') as [?|[?|[Hx|Hx]]]; eauto.
        * by apply elem_of_nil in Hx.
        * rewrite Hx in Hs. by destruct Hs. }
  apply map_eq. intros k. rewrite lookup_difference.
  destruct (_entryIndex b !! k) as [eb|] eqn:Hb.
  - destruct (r !! k) as [e|] eqn:Hr; [|done]. destruct (H1 k e Hr) as [_ Hn]. congruence.
  - destruct (_entryIndex a !! k) as [e|] eqn:Ha.
    + destruct (head_above a k e Hclocks Hheads Ha) as (h & Hh & Hr).
      destruct (Hreach h k Hr Hh) as [[? Hx]|[er Her]]; [congruence|].
      destruct (H1 k er Her) as [Ha' _]. congruence.
    + destruct (r !! k) as [e|] eqn:Hr; [|done]. destruct (H1 k e Hr) as [Ha' _]. congruence.
Qed.

End Difference.

Lemma List_filter_sublist {A} (f : A -> bool) l : List.filter f l `sublist_of` l.
Proof.
  induction l as [|x l IH]; cbn; [constructor|].
  destruct (f x); by constructor.
Qed.

Lemma elem_of_List_filter {A} (f : A -> bool) l x :
  x ∈ List.filter f l <-> x ∈ l /\ f x = true.
Proof. rewrite !list_elem_of_In. apply filter_In. Qed.

Lemma NoDup_hash_List_filter (f : Entry -> bool) l :
  NoDup (hash <$> l) -> NoDup (hash <$> List.filter f l).
Proof.
  intros Hnd. eapply sublist_NoDup; [exact Hnd|].
  apply fmap_sublist, List_filter_sublist.
Qed.

Lemma NoDup_hash_findHeads l :
  NoDup (hash <$> l) -> NoDup (hash <$> findHeads l).
Proof.
  intros Hnd. unfold findHeads. rewrite js_sort_Permutation.
  eapply sublist_NoDup; [exact Hnd|]. apply fmap_sublist, sublist_filter.
Qed.

Lemma hash_Object_values (m : gmap Hash Entry) :
  map_Forall (fun k e => hash e = k) m -> hash <$> Object_values m = Object_keys m.
Proof.
  intros Hm. unfold Object_values, Object_keys. rewrite <- list_fmap_compose.
  apply Forall_fmap_ext, Forall_forall. intros [k e] Hin. cbn.
  apply elem_of_map_to_list in Hin. by apply Hm.
Qed.

Lemma NoDup_hash_values (m : gmap Hash Entry) :
  map_Forall (fun k e => hash e = k) m -> NoDup (hash <$> Object_values m).
Proof.
  intros Hm. rewrite hash_Object_values by done. apply NoDup_fst_map_to_list.
Qed.

Lemma keys_are_hashes_hash ix :
  keys_are_hashes ix -> map_Forall (fun k e => hash e = k) ix.
Proof. intros Hk k e He. by destruct (Hk k e He). Qed.

Lemma truthy_true s : truthy s = true <-> s <> ""%string.
Proof. unfold truthy. rewrite negb_true_iff, bool_decide_eq_false. done. Qed.

Lemma notInCurrentNexts_spec (N : gmap Hash Hash) e :
  map_Forall (fun _ v => v <> ""%string) N ->
  notInCurrentNexts N e = true <-> hash e ∉ dom N.
Proof.
  intros HN. unfold notInCurrentNexts. rewrite not_elem_of_dom.
  destruct (N !! hash e) as [v|] eqn:Hv; [|done].
  apply HN in Hv. apply truthy_true in Hv. rewrite Hv. done.
Qed.

Lemma notReferencedByNewItems_spec l e :
  hash e <> ""%string ->
  notReferencedByNewItems l e = true <-> hash e ∉ l.
Proof.
  intros Hne. unfold notReferencedByNewItems.
  destruct (find _ l) as [a|] eqn:Hf.
  - apply find_some in Hf as [Hin Ha]. apply bool_decide_eq_true in Ha. subst a.
    apply truthy_true in Hne. rewrite Hne. cbn. split; [done|].
    intros Hn. destruct Hn. by apply list_elem_of_In.
  - split; [|done]. intros _ Hin. apply list_elem_of_In in Hin.
    pose proof (find_none _ _ Hf _ Hin) as Hx. cbn in Hx.
    by apply bool_decide_eq_false in Hx.
Qed.

Lemma map_difference_union (m1 m2 : gmap Hash Entry) : (m1 ∖ m2) ∪ m2 = m2 ∪ m1.
Proof.
  apply map_eq. intros k. rewrite !lookup_union, lookup_difference.
  destruct (m2 !! k), (m1 !! k); done.
Qed.

Lemma all_nexts_union (m1 m2 : gmap Hash Entry) :
  all_nexts (m2 ∪ m1) = all_nexts m2 ∪ all_nexts (m1 ∖ m2).
Proof.
  apply set_eq. intros k. rewrite elem_of_union, !elem_of_all_nexts. split.
  - intros (k' & e' & Hk' & Hk). apply lookup_union_Some_raw in Hk' as [H2|[H2 H1]].
    + left. eauto.
    + right. exists k', e'. split; [|done]. rewrite lookup_difference, H2. done.
  - intros [(k' & e' & Hk' & Hk)|(k' & e' & Hk' & Hk)].
    + exists k', e'. split; [|done]. by apply lookup_union_Some_l.
    + exists k', e'. split; [|done]. rewrite lookup_difference in Hk'.
      destruct (m2 !! k') eqn:H2; [done|]. by rewrite lookup_union_r.
Qed.

Lemma nexts_of_flat_map l k :
  k ∈ flat_map getNextPointers l <-> k ∈ nexts_of l.
Proof.
  rewrite elem_of_nexts_of, list_elem_of_In, in_flat_map. split.
  - intros (e & He & Hk). exists e. by rewrite !list_elem_of_In.
  - intros (e & He & Hk). exists e. by rewrite <- !list_elem_of_In.
Qed.

Section Join.

Variable sortFn : Entry -> Entry -> Z.
Variable canAppend : string -> string -> bool.
Variable verifyEntry : Entry -> bool.

Definition permitted (L : Log) : Prop :=
  map_Forall (fun _ e => canAppend (payload e) (identity (metadata e)) = true
                         /\ verifyEntry e = true) (_entryIndex L).

Lemma checkEntries_ok l :
  Forall (fun e => canAppend (payload e) (identity (metadata e)) = true
                   /\ verifyEntry e = true) l ->
  checkEntries canAppend verifyEntry l = Ok tt.
Proof.
  induction l as [|e l IH]; cbn; [done|].
  intros [[-> ->] Hl]%Forall_cons. cbn. by apply IH.
Qed.

Lemma fold_addToNextsIndex L l len N :
  Forall (fun e => _entryIndex L !! hash e = None) l ->
  fold_left (addToNextsIndex L) l (len, N)
  = (len + Z.of_nat (length l), fold_left indexReducer l N).
Proof.
  revert len N. induction l as [|e l IH]; intros len N; cbn [fold_left length].
  - intros _. f_equal. lia.
  - intros [He Hl]%Forall_cons. unfold addToNextsIndex at 2.
    rewrite get_lookup, He. cbn [isDefined]. rewrite IH by done. f_equal. lia.
Qed.

End Join.

Section JoinSpec.

Variable sortFn : Entry -> Entry -> Z.
Variable canAppend : string -> string -> bool.
Variable verifyEntry : Entry -> bool.

Lemma heads_in_index L k e :
  heads_unreferenced L -> _headsIndex L !! k = Some e -> _entryIndex L !! k = Some e.
Proof. intros Hh Hk. rewrite Hh in Hk. by apply map_lookup_filter_Some in Hk as [? _]. Qed.

(** The heads a join computes *)
Lemma mergedHeads_spec L A (N' : gmap Hash Hash) newNexts :
  well_formed L -> well_formed A ->
  consistent (_entryIndex L) (_entryIndex A) ->
  dom N' = all_nexts (_entryIndex L ∪ _entryIndex A) ->
  map_Forall (fun _ v => v <> ""%string) N' ->
  (forall k, k ∈ newNexts -> k ∈ dom N') ->
  fold_left uniqueEntriesReducer
    (List.filter (notInCurrentNexts N')
       (List.filter (notReferencedByNewItems newNexts)
          (findHeads (Object_values (_headsIndex A ∪ _headsIndex L))))) ∅
  = filter (fun kv => kv.1 ∉ all_nexts (_entryIndex L ∪ _entryIndex A))
      (_entryIndex L ∪ _entryIndex A).
Proof.
  intros (HkL & HcL & HtL & HhL & HnL & HiL & HlL) (HkA & HcA & HtA & HhA & HnA & HiA & HlA)
    Hcons HN' HN'v Hnew.
  set (U := _headsIndex A ∪ _headsIndex L).
  assert (HU : forall k e, U !! k = Some e ->
            (_entryIndex L ∪ _entryIndex A) !! k = Some e /\ hash e = k /\ k <> ""%string).
  { intros k e [Ha|[_ Hl]]%lookup_union_Some_raw.
    - apply heads_in_index in Ha; [|done]. split; [|by apply HkA].
      destruct (_entryIndex L !! k) as [el|] eqn:Hel.
      + rewrite (lookup_union_Some_l _ _ _ _ Hel). f_equal.
        by eapply consistent_spec.
      + by rewrite lookup_union_r.
    - apply heads_in_index in Hl; [|done]. split; [|by apply HkL].
      by apply lookup_union_Some_l. }
  assert (HUnd : NoDup (hash <$> Object_values U)).
  { apply NoDup_hash_values. intros k e Hk. by apply HU. }
  apply map_eq. intros k. apply option_eq. intros e.
  rewrite fold_unique_lookup_NoDup
    by (by apply NoDup_hash_List_filter, NoDup_hash_List_filter, NoDup_hash_findHeads).
  rewrite !elem_of_List_filter, elem_of_findHeads, elem_of_Object_values.
  rewrite map_lookup_filter_Some. cbn [fst].
  split.
  - intros [[[[[k' Hk'] Hnu] Hnr] Hnn] <-].
    destruct (HU k' e Hk') as (HE & Hh & Hne). subst k'.
    split; [done|]. rewrite <- HN'. by apply notInCurrentNexts_spec.
  - intros [HE Hnin].
    assert (HUk : U !! k = Some e).
    { unfold U. apply lookup_union_Some_raw in HE as [Hl|[Hl Ha]].
      - assert (Hhl : _headsIndex L !! k = Some e).
        { rewrite HhL. apply map_lookup_filter_Some. split; [done|]. cbn.
          intros Hin. apply Hnin. rewrite all_nexts_union. set_solver. }
        destruct (_headsIndex A !! k) as [ea|] eqn:Hha.
        + rewrite (lookup_union_Some_l _ _ _ _ Hha). f_equal.
          apply heads_in_index in Hha; [|done]. symmetry. by eapply consistent_spec.
        + by rewrite lookup_union_r.
      - apply lookup_union_Some_l. rewrite HhA. apply map_lookup_filter_Some.
        split; [done|]. cbn. intros Hin. apply Hnin.
        apply elem_of_all_nexts in Hin as (k' & e' & Hk' & Hk).
        apply elem_of_all_nexts.
        destruct (_entryIndex L !! k') as [el|] eqn:Hel.
        + exists k', el. split; [by apply lookup_union_Some_l|].
          by rewrite (consistent_spec _ _ _ _ _ Hcons Hel Hk').
        + exists k', e'. split; [by rewrite lookup_union_r|done]. }
    destruct (HU k e HUk) as (_ & Hh & Hne).
    assert (Hdom : hash e ∉ dom N') by (by rewrite Hh, HN').
    split; [|done]. split; [split; [split|]|].
    + eauto.
    + intros Hin. apply elem_of_nexts_of in Hin as (e' & [k' Hk']%elem_of_Object_values & Hk).
      apply Hnin. rewrite <- Hh. apply elem_of_all_nexts. exists k', e'.
      split; [|done]. by apply HU.
    + apply notReferencedByNewItems_spec; [by rewrite Hh|]. intros Hin. by apply Hdom, Hnew.
    + by apply notInCurrentNexts_spec.
Qed.

Lemma union_keys_are_hashes (m1 m2 : gmap Hash Entry) :
  keys_are_hashes m1 -> keys_are_hashes m2 -> keys_are_hashes (m1 ∪ m2).
Proof.
  intros H1 H2 k e [?|[_ ?]]%lookup_union_Some_raw; [by apply H1|by apply H2].
Qed.

Lemma union_next_closed (m1 m2 : gmap Hash Entry) :
  next_closed m1 -> next_closed m2 -> next_closed (m1 ∪ m2).
Proof.
  intros H1 H2 k e Hk. apply Forall_forall. intros h Hh.
  apply lookup_union_Some_raw in Hk as [Hk|[_ Hk]].
  - specialize (H1 k e Hk). rewrite Forall_forall in H1.
    destruct (H1 h Hh) as [x Hx]. exists x. by apply lookup_union_Some_l.
  - specialize (H2 k e Hk). rewrite Forall_forall in H2.
    destruct (H2 h Hh) as [x Hx]. apply lookup_union_is_Some. right. eauto.
Qed.

Lemma union_clocks_increase (m1 m2 : gmap Hash Entry) :
  consistent m1 m2 -> next_closed m1 -> next_closed m2 ->
  clocks_increase m1 -> clocks_increase m2 -> clocks_increase (m1 ∪ m2).
Proof.
  intros Hc Hcl Hcl2 H1 H2 k e Hk. apply Forall_forall. intros h Hh. unfold older.
  destruct ((m1 ∪ m2) !! h) as [p|] eqn:Hp; [|done].
  apply lookup_union_Some_raw in Hk as [Hk|[_ Hk]].
  - specialize (Hcl k e Hk). rewrite Forall_forall in Hcl. destruct (Hcl h Hh) as [x Hx].
    rewrite (lookup_union_Some_l _ _ _ _ Hx) in Hp. injection Hp as <-.
    specialize (H1 k e Hk). rewrite Forall_forall in H1. specialize (H1 h Hh).
    unfold older in H1. by rewrite Hx in H1.
  - specialize (Hcl2 k e Hk). rewrite Forall_forall in Hcl2.
    destruct (Hcl2 h Hh) as [p2 Hp2].
    specialize (H2 k e Hk). rewrite Forall_forall in H2. specialize (H2 h Hh).
    unfold older in H2.
    apply lookup_union_Some_raw in Hp as [Hp|[_ Hp]].
    + rewrite Hp2 in H2.
      by rewrite (consistent_spec _ _ _ _ _ Hc Hp Hp2).
    + by rewrite Hp in H2.
Qed.

(** [join] up to its cut: the merged log [L1], and what follows it *)
Lemma join_core_spec L A size :
  well_formed L -> well_formed A -> _id L = _id A ->
  consistent (_entryIndex L) (_entryIndex A) -> permitted canAppend verifyEntry A ->
  exists L1,
    well_formed L1
    /\ _entryIndex L1 = _entryIndex L ∪ _entryIndex A
    /\ _id L1 = _id L /\ _identity L1 = _identity L /\ _recycle L1 = _recycle L
    /\ _nextsIndex L1
       = fold_left indexReducer (Object_values (_entryIndex A ∖ _entryIndex L)) (_nextsIndex L)
    /\ _clock L1 = _clock L
    /\ join sortFn canAppend verifyEntry L A size
       = (let* L2 := (if -1 <? size then cutLog sortFn L1 size else Ok L1) in
          Ok (set_clock (Clock (clock_id (_clock L2))
                           (Z.max (time (_clock L2))
                              (fold_left maxClockTimeReducer
                                 (Object_values (_headsIndex L2)) 0))) L2)).
Proof.
  intros HwL HwA Hid Hcons Hperm.
  pose proof HwL as (HkL & HcL & HtL & HhL & HnL & HiL & HlL).
  pose proof HwA as (HkA & HcA & HtA & HhA & HnA & HiA & HlA).
  unfold join. rewrite (bool_decide_eq_true_2 _ Hid). cbn [negb].
  rewrite (difference_spec A L HkA); try done.
  2:{ intros k e Hk. rewrite Hid. by apply (HiA k e). }
  cbn [bind].
  set (newItems := _entryIndex A ∖ _entryIndex L).
  assert (Hnew : forall k e, newItems !! k = Some e ->
            _entryIndex A !! k = Some e /\ _entryIndex L !! k = None).
  { intros k e Hk. unfold newItems in Hk. rewrite lookup_difference in Hk.
    destruct (_entryIndex L !! k); done. }
  rewrite checkEntries_ok.
  2:{ apply Forall_forall. intros e [k Hk]%elem_of_Object_values.
      apply Hnew in Hk as [Hk _]. by apply (Hperm k e). }
  cbn [bind]. rewrite fold_addToNextsIndex.
  2:{ apply Forall_forall. intros e [k Hk]%elem_of_Object_values.
      apply Hnew in Hk as [Hk Hl]. destruct (HkA k e Hk) as [-> _]. done. }
  set (N' := fold_left indexReducer (Object_values newItems) (_nextsIndex L)).
  assert (HE : EntryIndex_add newItems (_entryIndex L) = _entryIndex L ∪ _entryIndex A).
  { unfold EntryIndex_add, newItems. apply map_difference_union. }
  assert (HN'dom : dom N' = all_nexts (_entryIndex L ∪ _entryIndex A)).
  { unfold N'. rewrite fold_indexReducer_dom, all_nexts_union.
    destruct HnL as [-> _]. done. }
  assert (HN'v : map_Forall (fun _ v => v <> ""%string) N').
  { intros k v Hk. unfold N' in Hk.
    apply fold_indexReducer_lookup in Hk as [(e & [k' Hk']%elem_of_Object_values & _ & ->)|Hk].
    - apply Hnew in Hk' as [Hk' _]. destruct (HkA k' e Hk') as [-> ?]. done.
    - destruct HnL as [_ HnL]. by apply (HnL k v). }
  rewrite HE.
  rewrite (mergedHeads_spec L A N' _ HwL HwA Hcons HN'dom HN'v).
  2:{ intros k Hk. apply nexts_of_flat_map in Hk. unfold N'.
      rewrite fold_indexReducer_dom. set_solver. }
  eexists. split; [|split; [|split; [|split; [|split; [|split; [|split;
    [|reflexivity]]]]]]]; cbn [_entryIndex _id _identity _recycle _nextsIndex _clock];
    try done.
  unfold well_formed, heads_unreferenced, nexts_exact, ids_match.
  cbn [_entryIndex _headsIndex _nextsIndex _length _id _identity _recycle _clock].
  split; [by apply union_keys_are_hashes|].
  split; [by apply union_next_closed|].
  split; [by apply union_clocks_increase|].
  split; [done|].
  split; [split; [exact HN'dom|exact HN'v]|].
  split.
  { intros k e [Hk|[_ Hk]]%lookup_union_Some_raw; [by apply (HiL k e)|].
    cbn. rewrite Hid. by apply (HiA k e). }
  rewrite HlL, length_Object_values.
  rewrite <- HE. unfold EntryIndex_add.
  rewrite map_size_disj_union; [lia|].
  apply map_disjoint_spec. intros k x y Hx Hy. apply Hnew in Hx as [_ Hx]. congruence.
Qed.

Lemma join_spec L A :
  well_formed L -> well_formed A -> _id L = _id A ->
  consistent (_entryIndex L) (_entryIndex A) -> permitted canAppend verifyEntry A ->
  exists L',
    join sortFn canAppend verifyEntry L A (-1) = Ok L'
    /\ _entryIndex L' = _entryIndex L ∪ _entryIndex A
    /\ well_formed L'
    /\ _id L' = _id L /\ _identity L' = _identity L /\ _recycle L' = _recycle L
    /\ _nextsIndex L'
       = fold_left indexReducer (Object_values (_entryIndex A ∖ _entryIndex L)) (_nextsIndex L)
    /\ _clock L'
       = Clock (clock_id (_clock L))
           (Z.max (time (_clock L))
              (fold_left maxClockTimeReducer (Object_values (_headsIndex L')) 0)).
Proof.
  intros HwL HwA Hid Hcons Hperm.
  destruct (join_core_spec L A (-1) HwL HwA Hid Hcons Hperm)
    as (L1 & Hw & HE & Hi & Hident & Hr & HN & Hc & ->).
  assert ((-1 <? -1) = false) as -> by done. cbn [bind].
  eexists. split; [reflexivity|]. rewrite Hc.
  by repeat (split; [done|]).
Qed.

End JoinSpec.

Lemma fold_max_le l z bound :
  z <= bound -> Forall (fun e => time (clock e) <= bound) l ->
  fold_left maxClockTimeReducer l z <= bound.
Proof.
  revert z. induction l as [|e l IH]; intros z Hz Hl; cbn; [done|].
  apply Forall_cons in Hl as [He Hl]. apply IH; [|done].
  unfold maxClockTimeReducer. lia.
Qed.

Lemma fold_max_ge_init l z : z <= fold_left maxClockTimeReducer l z.
Proof.
  revert z. induction l as [|e l IH]; intros z; cbn; [lia|].
  etrans; [|apply IH]. unfold maxClockTimeReducer. lia.
Qed.

Lemma fold_max_ge l z e :
  e ∈ l -> time (clock e) <= fold_left maxClockTimeReducer l z.
Proof.
  revert z. induction l as [|x l IH]; intros z; [by intros ?%elem_of_nil|].
  intros [->|He]%elem_of_cons; cbn.
  - etrans; [|apply fold_max_ge_init]. unfold maxClockTimeReducer. lia.
  - by apply IH.
Qed.

(** In a well-formed log no clock is later than the latest head. *)
Lemma time_le_heads L k e :
  well_formed L -> _entryIndex L !! k = Some e ->
  time (clock e) <= fold_left maxClockTimeReducer (Object_values (_headsIndex L)) 0.
Proof.
  intros (Hk & Hc & Ht & Hh & Hn & Hi & Hl) He.
  destruct (head_above L k e Ht Hh He) as (h & [eh Hhead] & Hr).
  pose proof (heads_in_index L h eh Hh Hhead) as Heh.
  etrans; [by eapply reach_time|].
  apply fold_max_ge, elem_of_Object_values. eauto.
Qed.

Lemma union_consistent (m1 m2 m3 : gmap Hash Entry) :
  consistent m1 m3 -> consistent m2 m3 -> consistent (m1 ∪ m2) m3.
Proof.
  intros H1 H2 k e [Hk|[_ Hk]]%lookup_union_Some_raw; [by apply H1|by apply H2].
Qed.

Lemma consistent_refl m : consistent m m.
Proof. intros k e Hk. unfold agrees. by rewrite Hk. Qed.

Lemma wf_heads_eq L1 L2 :
  well_formed L1 -> well_formed L2 -> _entryIndex L1 = _entryIndex L2 ->
  _headsIndex L1 = _headsIndex L2 /\ _length L1 = _length L2.
Proof.
  intros (_ & _ & _ & Hh1 & _ & _ & Hl1) (_ & _ & _ & Hh2 & _ & _ & Hl2) HE.
  rewrite Hh1, Hh2, Hl1, Hl2, HE. done.
Qed.

Section Commutative.

Variable sortFn : Entry -> Entry -> Z.
Variable canAppend : string -> string -> bool.
Variable verifyEntry : Entry -> bool.

(** The state the claim compares *)
Definition state (L : Log) : gmap Hash Entry * gmap Hash Entry * Z * Z :=
  (_entryIndex L, _headsIndex L, _length L, time (_clock L)).

Lemma join_join_time L A LA LAB :
  well_formed LAB ->
  well_formed LA ->
  _entryIndex LAB = _entryIndex LA ∪ _entryIndex A ->
  time (_clock LA) = Z.max (time (_clock L))
                      (fold_left maxClockTimeReducer (Object_values (_headsIndex LA)) 0) ->
  time (_clock LAB) = Z.max (time (_clock LA))
                      (fold_left maxClockTimeReducer (Object_values (_headsIndex LAB)) 0) ->
  time (_clock LAB) = Z.max (time (_clock L))
                      (fold_left maxClockTimeReducer (Object_values (_headsIndex LAB)) 0).
Proof.
  intros HwLAB HwLA HE HtLA HtLAB.
  assert (fold_left maxClockTimeReducer (Object_values (_headsIndex LA)) 0
          <= fold_left maxClockTimeReducer (Object_values (_headsIndex LAB)) 0).
  { apply fold_max_le; [apply fold_max_ge_init|].
    apply Forall_forall. intros e [k Hk]%elem_of_Object_values.
    destruct HwLA as (_ & _ & _ & Hh & _).
    apply heads_in_index in Hk; [|done].
    apply (time_le_heads LAB k e HwLAB). rewrite HE. by apply lookup_union_Some_l. }
  lia.
Qed.

(** C1. Joining is commutative and idempotent on logs of one id whose
    indexes are well formed, that agree on the entries they share and
    whose entries pass the access controller and the signature check:
    joining [A] then [B] and joining [B] then [A], without a size, return
    logs with the same entry index, the same heads index, the same length
    and the same clock time, and joining [A] a second time changes none
    of them. *)
Theorem join_commutative_idempotent (L A B : Log) :
  well_formed L -> well_formed A -> well_formed B ->
  _id L = _id A -> _id L = _id B ->
  consistent (_entryIndex L) (_entryIndex A) ->
  consistent (_entryIndex L) (_entryIndex B) ->
  consistent (_entryIndex A) (_entryIndex B) ->
  permitted canAppend verifyEntry A -> permitted canAppend verifyEntry B ->
  exists LA LB LAB LBA LAA,
    join sortFn canAppend verifyEntry L A (-1) = Ok LA
    /\ join sortFn canAppend verifyEntry L B (-1) = Ok LB
    /\ join sortFn canAppend verifyEntry LA B (-1) = Ok LAB
    /\ join sortFn canAppend verifyEntry LB A (-1) = Ok LBA
    /\ join sortFn canAppend verifyEntry LA A (-1) = Ok LAA
    /\ state LAB = state LBA
    /\ state LAA = state LA.
Proof.
  intros HwL HwA HwB HidA HidB HcLA HcLB HcAB HpA HpB.
  destruct (join_spec sortFn canAppend verifyEntry L A HwL HwA HidA HcLA HpA)
    as (LA & HjLA & HELA & HwLA & HidLA & _ & _ & _ & HclLA).
  destruct (join_spec sortFn canAppend verifyEntry L B HwL HwB HidB HcLB HpB)
    as (LB & HjLB & HELB & HwLB & HidLB & _ & _ & _ & HclLB).
  destruct (join_spec sortFn canAppend verifyEntry LA B HwLA HwB) as
    (LAB & HjLAB & HELAB & HwLAB & _ & _ & _ & _ & HclLAB);
    [congruence|rewrite HELA; by apply union_consistent|done|].
  destruct (join_spec sortFn canAppend verifyEntry LB A HwLB HwA) as
    (LBA & HjLBA & HELBA & HwLBA & _ & _ & _ & _ & HclLBA);
    [congruence|rewrite HELB; apply union_consistent; [done|by apply consistent_sym]|done|].
  destruct (join_spec sortFn canAppend verifyEntry LA A HwLA HwA) as
    (LAA & HjLAA & HELAA & HwLAA & _ & _ & _ & _ & HclLAA);
    [congruence|rewrite HELA; apply union_consistent; [done|apply consistent_refl]|done|].
  exists LA, LB, LAB, LBA, LAA. do 5 (split; [done|]).
  assert (HE1 : _entryIndex LAB = _entryIndex LBA).
  { rewrite HELAB, HELBA, HELA, HELB, <- !(assoc_L (∪)).
    f_equal. by apply consistent_union_comm. }
  assert (HE2 : _entryIndex LAA = _entryIndex LA).
  { rewrite HELAA, HELA, <- (assoc_L (∪)). f_equal. apply map_eq. intros k.
    rewrite lookup_union. by destruct (_entryIndex A !! k). }
  apply (f_equal time) in HclLA, HclLB, HclLAB, HclLBA, HclLAA. cbn [time] in *.
  pose proof (join_join_time L B LA LAB HwLAB HwLA HELAB HclLA HclLAB) as Ht1.
  pose proof (join_join_time L A LB LBA HwLBA HwLB HELBA HclLB HclLBA) as Ht2.
  destruct (wf_heads_eq LAB LBA HwLAB HwLBA HE1) as [HH1 Hl1].
  destruct (wf_heads_eq LAA LA HwLAA HwLA HE2) as [HH2 Hl2].
  unfold state. split.
  - rewrite HE1, HH1, Hl1, Ht1, Ht2, HH1. done.
  - rewrite HE2, HH2, Hl2. f_equal. rewrite HclLAA, HH2, HclLA. lia.
Qed.

End Commutative.

(** *** Appending *)

Lemma elem_of_rev {A} (x : A) l : x ∈ rev l <-> x ∈ l.
Proof. rewrite !list_elem_of_In. symmetry. apply in_rev. Qed.

Lemma obj_set_keys {V} (k : string) (v : V) o x :
  x ∈ (obj_set k v o).*1 <-> x = k \/ x ∈ o.*1.
Proof.
  induction o as [|[k' v'] o IH]; cbn.
  - rewrite list_elem_of_singleton. split; [by left|]. intros [?|?%elem_of_nil]; done.
  - case_decide as Hk; cbn.
    + subst k'. rewrite elem_of_cons. split; [by right|]. intros [->|?]; [by left|done].
    + rewrite !elem_of_cons, IH. tauto.
Qed.


Section Append.

Variable sortFn : Entry -> Entry -> Z.
Variable toMultihash : Entry -> Hash.
Variable canAppend : string -> string -> bool.
Variable signData : string -> string -> LamportClock -> list Hash -> list Hash -> string -> string.

Lemma elem_of_heads L e :
  e ∈ heads sortFn L <-> e ∈ Object_values (_headsIndex L).
Proof. unfold heads. by rewrite elem_of_rev, js_sort_Permutation. Qed.

Lemma values_returns L : exists r, values sortFn L = Ok r.
Proof.
  unfold values. destruct (traverse_terminates sortFn L (heads sortFn L) (-1) None) as [r ->].
  cbn. eauto.
Qed.



End Append.

(** *** The heads index *)

(** The claim about the heads, as it is worded *)
Definition heads_exact (L : Log) : Prop :=
  forall k e,
    _headsIndex L !! k = Some e <->
    (_entryIndex L !! k = Some e
     /\ forall k' e', _entryIndex L !! k' = Some e' -> k' <> k -> k ∉ next e').

Definition no_self_reference (e : Entry) : Prop := hash e ∉ next e.

Lemma heads_unreferenced_exact L :
  map_Forall (fun k e => hash e = k /\ no_self_reference e) (_entryIndex L) ->
  heads_unreferenced L -> heads_exact L.
Proof.
  intros Hself Hh k e. rewrite Hh, map_lookup_filter_Some. cbn [fst].
  rewrite elem_of_all_nexts. split.
  - intros [Hk Hn]. split; [done|]. intros k' e' Hk' _ Hin. apply Hn. eauto.
  - intros [Hk Hn]. split; [done|]. intros (k' & e' & Hk' & Hin).
    destruct (decide (k' = k)) as [->|Hne]; [|by eapply Hn].
    rewrite Hk in Hk'. injection Hk' as <-.
    destruct (Hself k e Hk) as [<- Hs]. by apply Hs.
Qed.

Lemma wf_no_self_reference ix :
  keys_are_hashes ix -> clocks_increase ix ->
  map_Forall (fun k e => hash e = k /\ no_self_reference e) ix.
Proof.
  intros Hk Hc k e He. destruct (Hk k e He) as [Hh _]. split; [done|].
  intros Hin. specialize (Hc k e He). rewrite Forall_forall in Hc.
  specialize (Hc (hash e) Hin). unfold older in Hc. rewrite Hh, He in Hc. lia.
Qed.

Lemma wf_heads_exact L : well_formed L -> heads_exact L.
Proof.
  intros (Hk & _ & Ht & Hh & _). apply heads_unreferenced_exact; [|done].
  by apply wf_no_self_reference.
Qed.

(** The index and the heads made from a list of entries with distinct
    hashes, as the constructor and [cutLog] make them *)
Lemma fold_unique_values l :
  NoDup (hash <$> l) ->
  forall e, e ∈ Object_values (fold_left uniqueEntriesReducer l ∅) <-> e ∈ l.
Proof.
  intros Hnd e. rewrite elem_of_Object_values. split.
  - intros [k Hk]. by apply fold_unique_lookup_NoDup in Hk as [? _].
  - intros He. exists (hash e). by apply fold_unique_lookup_NoDup.
Qed.

Lemma findHeads_heads_unreferenced l :
  NoDup (hash <$> l) ->
  fold_left uniqueEntriesReducer (findHeads l) ∅
  = filter (fun kv => kv.1 ∉ all_nexts (fold_left uniqueEntriesReducer l ∅))
      (fold_left uniqueEntriesReducer l ∅).
Proof.
  intros Hnd. apply map_eq. intros k. apply option_eq. intros e.
  rewrite fold_unique_lookup_NoDup by (by apply NoDup_hash_findHeads).
  rewrite map_lookup_filter_Some, fold_unique_lookup_NoDup by done. cbn [fst].
  rewrite elem_of_findHeads.
  assert (Hn : forall x, x ∈ nexts_of l
                 <-> x ∈ all_nexts (fold_left uniqueEntriesReducer l ∅)).
  { intros x. unfold all_nexts. rewrite !elem_of_nexts_of.
    split; intros (e' & He' & Hx); exists e'; (split; [|done]);
      by apply (fold_unique_values l Hnd). }
  split.
  - intros [[He Hnin] <-]. split; [done|]. by rewrite <- Hn.
  - intros [[He <-] Hnin]. split; [|done]. split; [done|]. by rewrite Hn.
Qed.

Lemma fold_unique_of_values (m : gmap Hash Entry) :
  map_Forall (fun k e => hash e = k) m ->
  fold_left uniqueEntriesReducer (Object_values m) ∅ = m.
Proof.
  intros Hm. apply map_eq. intros k. apply option_eq. intros e.
  rewrite fold_unique_lookup_NoDup by (by apply NoDup_hash_values).
  rewrite elem_of_Object_values. split.
  - intros [[k' Hk'] <-]. by rewrite <- (Hm k' e Hk') in Hk'.
  - intros Hk. split; [eauto|]. by apply Hm.
Qed.



Section Constructor.

Variable sortFn : Entry -> Entry -> Z.


(** Heads given to the constructor are taken as they are *)
Lemma newLog_given_heads randomId identity options given :
  o_heads options = Some given ->
  _headsIndex (newLog sortFn randomId identity options)
  = fold_left uniqueEntriesReducer given ∅.
Proof. intros Hh. unfold newLog. by rewrite Hh. Qed.



End Constructor.

(** A result object of [traverse]: distinct keys, each the hash of its
    entry, and entries that satisfy [P] *)
Definition keyed (P : Entry -> Prop) (o : list (Hash * Entry)) : Prop :=
  NoDup o.*1 /\ Forall (fun kv => hash kv.2 = kv.1 /\ P kv.2) o.

Lemma obj_set_keyed P e o : P e -> keyed P o -> keyed P (obj_set (hash e) e o).
Proof.
  intros He [Hnd Hall]. induction o as [|[k v] o IH]; cbn.
  - split; [apply NoDup_singleton|]. by repeat constructor.
  - apply NoDup_cons in Hnd as [Hk Hnd]. apply Forall_cons in Hall as [Hv Hall].
    case_decide as Hd.
    + subst k. split; [by apply NoDup_cons|]. constructor; [done|done].
    + destruct (IH Hnd Hall) as [Hnd' Hall']. split.
      * cbn. apply NoDup_cons. split; [|done]. rewrite obj_set_keys.
        intros [->|?]; done.
      * by constructor.
Qed.

Lemma fmap_rev_stdlib {A B} (f : A -> B) l : f <$> rev l = rev (f <$> l).
Proof. apply map_rev. Qed.

Lemma NoDup_rev_stdlib {A} (l : list A) : NoDup l -> NoDup (rev l).
Proof. intros Hnd. by rewrite <- Permutation_rev. Qed.

Section TraverseInv.

Variable sortFn : Entry -> Entry -> Z.
Variable P : Entry -> Prop.

Lemma addToStack_Forall st e :
  P e -> Forall P st.1 -> Forall P (addToStack sortFn st e).1.
Proof.
  destruct st as [stack T]. intros He Hst. unfold addToStack.
  case_decide; [done|]. cbn [fst] in *.
  apply Forall_forall. intros x Hx.
  apply (proj1 (elem_of_rev _ _)) in Hx. rewrite js_sort_Permutation in Hx.
  apply elem_of_cons in Hx as [->|Hx]; [done|].
  by apply (proj1 (Forall_forall _ _) Hst).
Qed.

Lemma fold_addToStack_Forall entries st :
  Forall P entries -> Forall P st.1 ->
  Forall P (fold_left (addToStack sortFn) entries st).1.
Proof.
  revert st. induction entries as [|e entries IH]; intros st He Hst; cbn [fold_left]; [done|].
  apply Forall_cons in He as [He Hes]. apply IH; [done|]. by apply addToStack_Forall.
Qed.

Lemma traverse_loop_keyed L fuel amount endHash stack traversed result count r :
  map_Forall (fun _ e => P e) (_entryIndex L) ->
  Forall P stack -> keyed P result ->
  traverse_loop sortFn fuel L amount endHash stack traversed result count = Ok r ->
  keyed P r.
Proof.
  intros HE. revert stack traversed result count.
  induction fuel as [|fuel IH]; intros stack traversed result count Hst Hres.
  - destruct stack as [|entry stack]; cbn; [by intros [= <-]|].
    destruct (negb _); [by intros [= <-]|done].
  - destruct stack as [|entry stack]; cbn [traverse_loop]; [by intros [= <-]|].
    destruct (negb _); [by intros [= <-]|].
    apply Forall_cons in Hst as [He Hst].
    case_bool_decide; [intros [= <-]; by apply obj_set_keyed|].
    destruct (fold_left _ _ _) as [stack'' traversed'] eqn:Hfold.
    apply IH; [|by apply obj_set_keyed].
    pose proof (fold_addToStack_Forall (omap (get L) (next entry))
                  (stack, {[hash entry]} ∪ traversed)) as Hf.
    rewrite Hfold in Hf. apply Hf; [|done].
    apply Forall_forall. intros x Hx. apply list_elem_of_omap in Hx as (h & _ & Hh).
    by apply (HE h x).
Qed.

Lemma values_keyed L r :
  map_Forall (fun _ e => P e) (_entryIndex L) ->
  map_Forall (fun _ e => P e) (_headsIndex L) ->
  values sortFn L = Ok r ->
  NoDup (hash <$> r) /\ Forall P r.
Proof.
  intros HE HH. unfold values, traverse.
  destruct (traverse_loop _ _ _ _ _ _ _ _ _) as [o|] eqn:Ht; [|done].
  cbn [bind]. intros [= <-].
  apply traverse_loop_keyed in Ht as [Hnd Hall]; [|done| |].
  - assert (Hk : hash <$> o.*2 = o.*1).
    { rewrite <- list_fmap_compose. apply Forall_fmap_ext.
      eapply Forall_impl; [exact Hall|]. by intros [k e] [? _]. }
    split.
    + rewrite fmap_rev_stdlib, Hk. by apply NoDup_rev_stdlib.
    + apply Forall_forall. intros x Hx. apply (proj1 (elem_of_rev _ _)) in Hx.
      apply list_elem_of_fmap in Hx as ([k e] & -> & Hin).
      by apply (proj1 (Forall_forall _ _) Hall (k, e) Hin).
  - apply Forall_forall. intros x Hx. apply (proj1 (elem_of_rev _ _)) in Hx.
    rewrite js_sort_Permutation in Hx. apply elem_of_heads in Hx.
    apply elem_of_Object_values in Hx as [k Hk]. by apply (HH k x).
  - split; [constructor|constructor].
Qed.

End TraverseInv.

Lemma js_slice_sublist {A} start (l : list A) : js_slice start l `sublist_of` l.
Proof. unfold js_slice. destruct (start <? 0); apply sublist_drop. Qed.

(** What is left of [well_formed] when a log was cut: the entries sit
    under their hashes, none names itself, and the heads are exact *)
Definition sound_heads (L : Log) : Prop :=
  map_Forall (fun k e => hash e = k /\ no_self_reference e) (_entryIndex L)
  /\ heads_exact L.


Section CutLog.

Variable sortFn : Entry -> Entry -> Z.


End CutLog.


Section AppendInvariant.

Variable sortFn : Entry -> Entry -> Z.
Variable toMultihash : Entry -> Hash.
Variable canAppend : string -> string -> bool.
Variable signData : string -> string -> LamportClock -> list Hash -> list Hash -> string -> string.


End AppendInvariant.


Definition recycles (L : Log) : bool :=
  match maxOplogLength (_recycle L) with
  | Some m => m <? _length L + 1
  | None => false
  end.


Lemma well_formed_set_clock c L : well_formed (set_clock c L) <-> well_formed L.
Proof. done. Qed.

Lemma sound_heads_set_clock c L : sound_heads (set_clock c L) <-> sound_heads L.
Proof. done. Qed.

Section AppendUnfold.

Variable sortFn : Entry -> Entry -> Z.
Variable toMultihash : Entry -> Hash.
Variable canAppend : string -> string -> bool.
Variable signData : string -> string -> LamportClock -> list Hash -> list Hash -> string -> string.


End AppendUnfold.

(** *** Sequences of operations *)

Inductive Op :=
| DoAppend (data : string) (pointerCount : Z)
| DoJoin (log : Log) (size : Z)
| DoCutLog (size : Z).

Section Operations.

Variable sortFn : Entry -> Entry -> Z.
Variable toMultihash : Entry -> Hash.
Variable canAppend : string -> string -> bool.
Variable verifyEntry : Entry -> bool.
Variable signData : string -> string -> LamportClock -> list Hash -> list Hash -> string -> string.

Definition perform (L : Log) (op : Op) : Result Log :=
  match op with
  | DoAppend data pointerCount =>
      let '(L', r) := append sortFn toMultihash canAppend signData L data pointerCount in
      let* _entry := r in Ok L'
  | DoJoin log size => join sortFn canAppend verifyEntry L log size
  | DoCutLog size => cutLog sortFn L size
  end.

(** Whether the operation cuts the log, and so leaves [_nextsIndex] behind *)
Definition cuts (L : Log) (op : Op) : bool :=
  match op with
  | DoAppend _ _ => recycles L
  | DoJoin _ size => -1 <? size
  | DoCutLog _ => true
  end.

(** The hash of the appended entry is new to the log *)
Definition fresh_hash (L : Log) (r : Result Entry) : Prop :=
  match r with
  | Ok entry => hash entry <> ""%string
                /\ _entryIndex L !! hash entry = None
                /\ hash entry ∉ all_nexts (_entryIndex L)
  | Throw _ => True
  end.

Definition admitted (cut : bool) (L : Log) (op : Op) : Prop :=
  match op with
  | DoAppend data pointerCount =>
      canAppend data (_identity L) = true
      /\ fresh_hash L (snd (append sortFn toMultihash canAppend signData L data pointerCount))
  | DoJoin log size =>
      cut = false /\ well_formed log
      /\ consistent (_entryIndex L) (_entryIndex log)
      /\ permitted canAppend verifyEntry log
  | DoCutLog _ => True
  end.

(** Every operation of the sequence is admitted in the log it is applied
    to; nothing is asked of what follows an operation that throws. *)
Fixpoint admitted_all (cut : bool) (L : Log) (ops : list Op) : Prop :=
  match ops with
  | [] => True
  | op :: ops' =>
      admitted cut L op
      /\ match perform L op with
         | Ok L' => admitted_all (cut || cuts L op) L' ops'
         | Throw _ => True
         end
  end.



#[global] Instance permitted_dec L : Decision (permitted canAppend verifyEntry L).
Proof. unfold permitted. apply _. Defined.
#[global] Instance fresh_hash_dec L r : Decision (fresh_hash L r).
Proof. unfold fresh_hash. destruct r; apply _. Defined.
#[global] Instance admitted_dec cut L op : Decision (admitted cut L op).
Proof. unfold admitted. destruct op; apply _. Defined.
#[global] Instance admitted_all_dec cut L ops : Decision (admitted_all cut L ops).
Proof.
  revert cut L. induction ops as [|op ops IH]; intros cut L; cbn [admitted_all]; [apply _|].
  destruct (perform L op); apply _.
Defined.





End Operations.

Section HeadsIndex.

Variable sortFn : Entry -> Entry -> Z.
Variable toMultihash : Entry -> Hash.
Variable canAppend : string -> string -> bool.
Variable verifyEntry : Entry -> bool.
Variable signData : string -> string -> LamportClock -> list Hash -> list Hash -> string -> string.



End HeadsIndex.

(** *** What [traverse] and [values] reach *)

Lemma elem_of_obj_set {V} (k : string) (v : V) o k' v' :
  (k', v') ∈ obj_set k v o -> (k' = k /\ v' = v) \/ (k', v') ∈ o.
Proof.
  induction o as [|[k0 v0] o IH]; cbn.
  - intros [= -> ->]%list_elem_of_singleton. by left.
  - case_decide as Hk; subst.
    + intros [[= -> ->]|Hin]%elem_of_cons; [by left|]. right. by right.
    + intros [[= -> ->]|Hin]%elem_of_cons; [right; by left|].
      destruct (IH Hin) as [?|?]; [by left|]. right. by right.
Qed.

Section Reached.

Variable sortFn : Entry -> Entry -> Z.

Lemma addToStack_grows (st : list Entry * gset Hash) e :
  let st' := addToStack sortFn st e in
  st.2 ⊆ st'.2 /\ hash e ∈ st'.2
  /\ (forall x, x ∈ st.1 -> x ∈ st'.1)
  /\ (forall h, h ∈ st'.2 -> h ∈ st.2 \/ exists x, x ∈ st'.1 /\ hash x = h).
Proof.
  destruct st as [stack T]. cbn zeta. unfold addToStack. case_decide as Hin; cbn [fst snd].
  - split; [done|]. split; [done|]. split; [done|]. by left.
  - split; [set_solver|]. split; [set_solver|].
    assert (Hst : forall x, x ∈ rev (js_sort sortFn (e :: stack)) <-> x = e \/ x ∈ stack).
    { intros x. rewrite elem_of_rev, js_sort_Permutation. apply elem_of_cons. }
    split; [intros x Hx; apply Hst; by right|].
    intros h [->%elem_of_singleton|Hh]%elem_of_union; [|by left].
    right. exists e. split; [|done]. apply Hst. by left.
Qed.

Lemma fold_addToStack_grows entries (st : list Entry * gset Hash) :
  let st' := fold_left (addToStack sortFn) entries st in
  st.2 ⊆ st'.2 /\ (forall e, e ∈ entries -> hash e ∈ st'.2)
  /\ (forall x, x ∈ st.1 -> x ∈ st'.1)
  /\ (forall h, h ∈ st'.2 -> h ∈ st.2 \/ exists x, x ∈ st'.1 /\ hash x = h).
Proof.
  cbn zeta. revert st. induction entries as [|e entries IH]; intros st; cbn [fold_left].
  - split; [done|]. split; [by intros e ?%elem_of_nil|]. split; [done|]. by left.
  - destruct (addToStack_grows st e) as (H1 & H2 & H3 & H4).
    destruct (IH (addToStack sortFn st e)) as (G1 & G2 & G3 & G4).
    split; [set_solver|]. split.
    + intros x [->|Hx]%elem_of_cons; [by apply G1|by apply G2].
    + split; [intros x Hx; by apply G3, H3|].
      intros h [Hh|Hh]%G4; [|by right].
      destruct (H4 h Hh) as [?|(x & Hx & Hhx)]; [by left|]. right. exists x.
      split; [by apply G3|done].
Qed.

(** A hash is covered when it is a key of the result or the hash of an
    entry on the stack. *)
Definition covered (result : list (Hash * Entry)) (stack : list Entry) (h : Hash) : Prop :=
  h ∈ result.*1 \/ exists x, x ∈ stack /\ hash x = h.

Definition Complete (L : Log) (roots : list Entry) (stack : list Entry) (T : gset Hash)
    (result : list (Hash * Entry)) : Prop :=
  (forall h, h ∈ T -> covered result stack h)
  /\ (forall x, x ∈ roots -> covered result stack (hash x))
  /\ (forall k e h e', (k, e) ∈ result -> h ∈ next e ->
        _entryIndex L !! h = Some e' -> hash e' ∈ T).

Lemma traverse_loop_complete L roots fuel stack T result count r :
  Complete L roots stack T result ->
  traverse_loop sortFn fuel L (-1) None stack T result count = Ok r ->
  exists T', Complete L roots [] T' r.
Proof.
  revert stack T result count.
  induction fuel as [|fuel IH]; intros stack T result count Hinv.
  - destruct stack as [|entry stack]; cbn; [intros [= <-]; eauto|].
    rewrite orb_true_r. cbn. done.
  - destruct stack as [|entry stack]; cbn [traverse_loop]; [intros [= <-]; eauto|].
    rewrite orb_true_r. cbn [negb].
    rewrite bool_decide_eq_false_2 by done.
    destruct (fold_left _ _ _) as [stack'' T''] eqn:Hfold.
    apply IH.
    pose proof (fold_addToStack_grows (omap (get L) (next entry))
                  (stack, {[hash entry]} ∪ T)) as Hg.
    cbn zeta in Hg. rewrite Hfold in Hg. cbn [fst snd] in Hg.
    destruct Hg as (G1 & G2 & G3 & G4). destruct Hinv as (I1 & I2 & I3).
    assert (Hcov : forall h, covered result (entry :: stack) h ->
              covered (obj_set (hash entry) entry result) stack'' h).
    { intros h [Hh|(x & [->|Hx]%elem_of_cons & Hhx)].
      - left. apply obj_set_keys. by right.
      - left. apply obj_set_keys. by left.
      - right. exists x. split; [by apply G3|done]. }
    split; [|split].
    + intros h [[->%elem_of_singleton|Hh]%elem_of_union|(x & Hx & Hhx)]%G4.
      * left. apply obj_set_keys. by left.
      * by apply Hcov, I1.
      * right. eauto.
    + intros x Hx. by apply Hcov, I2.
    + intros k e h e' [[-> ->]|Hin]%elem_of_obj_set Hh He'.
      * apply G2. apply list_elem_of_omap. exists h. split; [done|]. by rewrite get_lookup.
      * apply G1. apply elem_of_union. right. by eapply I3.
Qed.

(** What [values] returns in a well-formed log: no hash twice, and the
    entries of the entry index, no more and no less *)
Lemma values_members (L : Log) (r : list Entry) :
  well_formed L -> values sortFn L = Ok r ->
  NoDup (hash <$> r) /\ forall e, e ∈ r <-> e ∈ Object_values (_entryIndex L).
Proof.
  intros Hw Hr. pose proof Hw as (Hk & Hc & Ht & Hh & Hn & Hi & Hl).
  pose (P := fun e : Entry => _entryIndex L !! hash e = Some e).
  assert (HPE : map_Forall (fun _ e => P e) (_entryIndex L)).
  { intros k e He. unfold P. by destruct (Hk k e He) as [-> _]. }
  assert (HPH : map_Forall (fun _ e => P e) (_headsIndex L)).
  { intros k e He. apply (HPE k e). by eapply heads_in_index. }
  destruct (values_keyed sortFn P L r HPE HPH Hr) as [Hnd HP].
  assert (Hmem : forall e, e ∈ r <-> e ∈ Object_values (_entryIndex L)).
  { intros e. split.
    - intros He. apply elem_of_Object_values. exists (hash e).
      by apply (proj1 (Forall_forall _ _) HP).
    - intros [k He]%elem_of_Object_values.
      unfold values, traverse in Hr.
      destruct (traverse_loop _ _ _ _ _ _ _ _ _) as [o|] eqn:Hloop; [|done].
      cbn [bind] in Hr. injection Hr as <-.
      pose proof Hloop as Hkeyed.
      apply (traverse_loop_keyed sortFn P) in Hkeyed as [_ Hall]; [|done| |by split; constructor].
      2:{ apply Forall_forall. intros x Hx. apply (proj1 (elem_of_rev _ _)) in Hx.
          rewrite js_sort_Permutation in Hx. apply elem_of_heads in Hx.
          apply elem_of_Object_values in Hx as [k' Hk']. by apply (HPH k' x). }
      apply (traverse_loop_complete L (heads sortFn L)) in Hloop as (T' & I1 & I2 & I3).
      2:{ split; [by intros h ?%elem_of_empty|]. split; [|by intros ? ? ? ? ?%elem_of_nil].
          intros x Hx. right. exists x. split; [|done].
          apply (proj2 (elem_of_rev _ _)). by rewrite js_sort_Permutation. }
      assert (Hkeys : forall h, h ∈ o.*1 -> exists e', (h, e') ∈ o
                        /\ _entryIndex L !! h = Some e').
      { intros h ([h' e'] & -> & Hin)%list_elem_of_fmap. exists e'. split; [done|].
        destruct (proj1 (Forall_forall _ _) Hall _ Hin) as [Hhash HPe]. cbn in *.
        by rewrite <- Hhash. }
      assert (Hreach : forall h0 k0, reach (_entryIndex L) h0 k0 -> h0 ∈ o.*1 -> k0 ∈ o.*1).
      { intros h0 k0 Hreach Hh0. induction Hreach as [|k1 e1 k2 Hr1 IH He1 Hnext [e2 He2]];
          [done|].
        destruct (Hkeys k1 IH) as (e1' & Hin1 & He1').
        assert (e1' = e1) as -> by congruence.
        pose proof (I3 k1 e1 k2 e2 Hin1 Hnext He2) as HT.
        destruct (Hk k2 e2 He2) as [Hhash _]. rewrite Hhash in HT.
        destruct (I1 k2 HT) as [?|(x & ?%elem_of_nil & _)]; done. }
      destruct (head_above L k e Ht Hh He) as (h0 & [eh Hhead] & Hreach0).
      assert (Hh0 : h0 ∈ o.*1).
      { assert (Hroot : eh ∈ heads sortFn L).
        { apply elem_of_heads, elem_of_Object_values. eauto. }
        destruct (I2 eh Hroot) as [Hin|(x & ?%elem_of_nil & _)]; [|done].
        pose proof (heads_in_index L h0 eh Hh Hhead) as Heh.
        destruct (Hk h0 eh Heh) as [<- _]. done. }
      destruct (Hkeys k (Hreach h0 k Hreach0 Hh0)) as (e' & Hin & He').
      assert (e' = e) as -> by congruence.
      apply (proj2 (elem_of_rev _ _)). apply list_elem_of_fmap. by exists (k, e). }
  done.
Qed.

Lemma values_permutation (L : Log) :
  well_formed L ->
  exists r, values sortFn L = Ok r /\ r ≡ₚ Object_values (_entryIndex L).
Proof.
  intros Hw. destruct (values_returns sortFn L) as [r Hr]. exists r. split; [done|].
  destruct (values_members L r Hw Hr) as [Hnd Hmem].
  apply NoDup_Permutation; [by eapply NoDup_fmap_1| |done].
  eapply NoDup_fmap_1, NoDup_hash_values, keys_are_hashes_hash. by destruct Hw.
Qed.

(** X1. In a well-formed log [values] returns every entry of the entry index
    once: it is a rearrangement of the entries, no two of which have the
    same hash, and its length is the length of the log. *)
Theorem values_complete (L : Log) :
  well_formed L ->
  exists r,
    values sortFn L = Ok r
    /\ r ≡ₚ Object_values (_entryIndex L)
    /\ NoDup (hash <$> r)
    /\ Z.of_nat (length r) = _length L.
Proof.
  intros Hw. destruct (values_returns sortFn L) as [r Hr]. exists r. split; [done|].
  destruct (values_members L r Hw Hr) as [Hnd Hmem].
  assert (Hperm : r ≡ₚ Object_values (_entryIndex L)).
  { apply NoDup_Permutation; [by eapply NoDup_fmap_1| |done].
    eapply NoDup_fmap_1, NoDup_hash_values, keys_are_hashes_hash. by destruct Hw. }
  split; [done|]. split; [done|].
  destruct Hw as (_ & _ & _ & _ & _ & _ & ->).
  by rewrite Hperm, length_Object_values.
Qed.

End Reached.

(** *** The amount a traversal is asked for *)

Lemma length_obj_set {V} (k : string) (v : V) o :
  (length (obj_set k v o) <= S (length o))%nat.
Proof.
  induction o as [|[k' v'] o IH]; cbn; [lia|].
  case_decide; cbn; lia.
Qed.

Section Amount.

Variable sortFn : Entry -> Entry -> Z.

Lemma traverse_loop_amount L fuel amount endHash stack traversed result count r :
  0 <= amount -> Z.of_nat (length result) <= count -> count <= amount ->
  traverse_loop sortFn fuel L amount endHash stack traversed result count = Ok r ->
  Z.of_nat (length r) <= amount.
Proof.
  intros Ha. revert stack traversed result count.
  induction fuel as [|fuel IH]; intros stack traversed result count Hres Hc.
  - destruct stack as [|entry stack]; cbn; [intros [= <-]; lia|].
    destruct (negb _); [intros [= <-]; lia|done].
  - destruct stack as [|entry stack]; cbn [traverse_loop]; [intros [= <-]; lia|].
    destruct (negb _) eqn:Hguard; [intros [= <-]; lia|].
    apply negb_false_iff, orb_true_iff in Hguard as [Hlt%Z.ltb_lt|Hneg%Z.ltb_lt]; [|lia].
    pose proof (length_obj_set (hash entry) entry result) as Hlen.
    case_bool_decide; [intros [= <-]; lia|].
    destruct (fold_left _ _ _) as [stack'' traversed'].
    apply IH; lia.
Qed.

(** X2. [traverse] returns, whatever it is given. Asked for an amount that is
    not negative it returns at most that many entries; every entry it
    returns is one of the roots or an entry of the log and is returned
    once, under its hash. *)
Theorem traverse_bounded (L : Log) (rootEntries : list Entry) (amount : Z)
    (endHash : option Hash) :
  exists r,
    traverse sortFn L rootEntries amount endHash = Ok r
    /\ (0 <= amount -> Z.of_nat (length r) <= amount)
    /\ NoDup r.*1
    /\ (forall k e, (k, e) ∈ r ->
          hash e = k /\ (e ∈ rootEntries \/ e ∈ Object_values (_entryIndex L))).
Proof.
  destruct (traverse_terminates sortFn L rootEntries amount endHash) as [r Hr].
  exists r. split; [done|]. unfold traverse in Hr. split.
  - intros Ha. eapply traverse_loop_amount; [done| | |exact Hr]; cbn; lia.
  - apply (traverse_loop_keyed sortFn
             (fun e => e ∈ rootEntries \/ e ∈ Object_values (_entryIndex L)))
      in Hr as [Hnd Hall].
    + split; [done|]. intros k e Hin.
      exact (proj1 (Forall_forall _ _) Hall (k, e) Hin).
    + intros k e He. right. apply elem_of_Object_values. eauto.
    + apply Forall_forall. intros x Hx. left.
      apply (proj1 (elem_of_rev _ _)) in Hx. by rewrite js_sort_Permutation in Hx.
    + split; constructor.
Qed.

End Amount.

(** *** Cutting a log, and building it again from its entries *)

Lemma dom_fold_unique l (m : gmap Hash Entry) :
  dom (fold_left uniqueEntriesReducer l m) = dom m ∪ list_to_set (hash <$> l).
Proof.
  revert m. induction l as [|e l IH]; intros m; cbn [fold_left].
  - cbn. set_solver.
  - rewrite IH. unfold uniqueEntriesReducer. rewrite dom_insert_L, fmap_cons.
    cbn [list_to_set]. set_solver.
Qed.

Lemma size_fold_unique l :
  NoDup (hash <$> l) -> size (fold_left uniqueEntriesReducer l ∅) = length l.
Proof.
  intros Hnd. rewrite <- size_dom, dom_fold_unique, dom_empty_L, union_empty_l_L.
  rewrite size_list_to_set by done. apply length_fmap.
Qed.

Lemma fold_unique_Permutation (m : gmap Hash Entry) l :
  map_Forall (fun k e => hash e = k) m -> l ≡ₚ Object_values m ->
  fold_left uniqueEntriesReducer l ∅ = m.
Proof.
  intros Hm Hl. apply map_eq. intros k. apply option_eq. intros e.
  rewrite fold_unique_lookup_NoDup by (rewrite Hl; by apply NoDup_hash_values).
  rewrite Hl, elem_of_Object_values. split.
  - intros [[k' Hk'] <-]. by rewrite <- (Hm k' e Hk') in Hk'.
  - intros Hk. split; [eauto|]. by apply Hm.
Qed.

Lemma length_js_slice_neg {A} (size : Z) (l : list A) :
  0 < size -> Z.of_nat (length (js_slice (- size) l)) <= size.
Proof.
  intros Hs. unfold js_slice. replace (- size <? 0) with true by (symmetry; apply Z.ltb_lt; lia).
  rewrite length_drop. lia.
Qed.

Lemma js_slice_all {A} (size : Z) (l : list A) :
  size = 0 \/ Z.of_nat (length l) <= size -> js_slice (- size) l = l.
Proof.
  intros Hs. unfold js_slice. destruct (- size <? 0) eqn:Hneg.
  - apply Z.ltb_lt in Hneg. replace (Z.to_nat _) with 0%nat by lia. done.
  - apply Z.ltb_ge in Hneg. replace (Z.to_nat (- size)) with 0%nat by lia. done.
Qed.

Section Cut.

Variable sortFn : Entry -> Entry -> Z.

(** X3. [cutLog] returns; when the size is positive the log it leaves has at
    most that many entries. Each of them is an entry the log had, in its
    entry index or among its heads, and is kept under its hash; the
    length is their number; the heads are the entries that no entry
    kept names, so every head is an entry of the log. *)
Theorem cutLog_cuts (L : Log) (size : Z) :
  exists L',
    cutLog sortFn L size = Ok L'
    /\ (0 < size -> Z.of_nat (base.size (_entryIndex L')) <= size)
    /\ _length L' = Z.of_nat (base.size (_entryIndex L'))
    /\ (forall k e, _entryIndex L' !! k = Some e ->
          hash e = k
          /\ (e ∈ Object_values (_entryIndex L) \/ e ∈ Object_values (_headsIndex L)))
    /\ heads_unreferenced L'
    /\ (forall k e, _headsIndex L' !! k = Some e -> _entryIndex L' !! k = Some e).
Proof.
  unfold cutLog. destruct (values_returns sortFn L) as [r Hr]. rewrite Hr. cbn [bind].
  pose (P := fun e : Entry => e ∈ Object_values (_entryIndex L)
                              \/ e ∈ Object_values (_headsIndex L)).
  destruct (values_keyed sortFn P L r) as [Hnd Hall]; [| |done|].
  { intros k e He. left. apply elem_of_Object_values. eauto. }
  { intros k e He. right. apply elem_of_Object_values. eauto. }
  set (tmp := js_slice (- size) r).
  assert (Hnd' : NoDup (hash <$> tmp)).
  { eapply sublist_NoDup; [exact Hnd|]. apply fmap_sublist, js_slice_sublist. }
  eexists. split; [reflexivity|]. cbn [_entryIndex _headsIndex _length].
  assert (Hu : fold_left uniqueEntriesReducer (findHeads tmp) ∅
               = filter (fun kv => kv.1 ∉ all_nexts (fold_left uniqueEntriesReducer tmp ∅))
                   (fold_left uniqueEntriesReducer tmp ∅))
    by (by apply findHeads_heads_unreferenced).
  split; [|split; [done|split; [|split; [exact Hu|]]]].
  - intros Hs. rewrite size_fold_unique by done. by apply length_js_slice_neg.
  - intros k e He. apply fold_unique_lookup_NoDup in He as [Hin Hk]; [|done].
    split; [done|]. apply (proj1 (Forall_forall _ _) Hall).
    eapply elem_of_sublist; [exact Hin|apply js_slice_sublist].
  - intros k e He. rewrite Hu in He. by apply map_lookup_filter_Some in He as [? _].
Qed.

(** X4. In a well-formed log [cutLog] changes nothing when the size is 0 (for
    [slice(-0)] is the whole list) or is not less than the length. *)
Theorem cutLog_keeps_all (L : Log) (size : Z) :
  well_formed L -> size = 0 \/ _length L <= size ->
  cutLog sortFn L size = Ok L.
Proof.
  intros Hw Hs. pose proof Hw as (Hk & Hc & Ht & Hh & Hn & Hi & Hl).
  destruct (values_permutation sortFn L Hw) as (r & Hr & Hperm).
  assert (Hlen : Z.of_nat (length r) = _length L)
    by (by rewrite Hl, Hperm, length_Object_values).
  assert (Hnd : NoDup (hash <$> r))
    by (rewrite Hperm; by apply NoDup_hash_values, keys_are_hashes_hash).
  unfold cutLog. rewrite Hr. cbn [bind].
  rewrite js_slice_all by (destruct Hs; [by left|right; lia]).
  assert (HE : fold_left uniqueEntriesReducer r ∅ = _entryIndex L).
  { apply fold_unique_Permutation; [by apply keys_are_hashes_hash|done]. }
  rewrite findHeads_heads_unreferenced by done. rewrite HE, <- Hh.
  unfold EntryIndex_length. rewrite <- Hl. by destruct L.
Qed.

(** X5. A well-formed log built again by the constructor from its [values],
    with its id (which is not empty, or a random id would replace it),
    with or without its [heads], has the same entries, the same heads and
    the same length, and is well formed. *)
Theorem constructor_from_values (L : Log) (randomId identity : string)
    (options : LogOptions) (r : list Entry) :
  well_formed L ->
  values sortFn L = Ok r ->
  o_entries options = Some r ->
  _id L <> ""%string -> o_logId options = Some (_id L) ->
  o_heads options = None \/ o_heads options = Some (heads sortFn L) ->
  let L' := newLog sortFn randomId identity options in
  _entryIndex L' = _entryIndex L
  /\ _headsIndex L' = _headsIndex L
  /\ _length L' = _length L
  /\ _id L' = _id L
  /\ well_formed L'.
Proof.
  intros Hw Hr He _ Hid Hheads. cbn zeta.
  pose proof Hw as (Hk & Hc & Ht & Hh & Hn & Hi & Hl).
  destruct (values_permutation sortFn L Hw) as (r' & Hr' & Hperm).
  assert (r' = r) as -> by congruence.
  assert (HE : fold_left uniqueEntriesReducer r ∅ = _entryIndex L).
  { apply fold_unique_Permutation; [by apply keys_are_hashes_hash|done]. }
  assert (HH : fold_left uniqueEntriesReducer
                 (default (findHeads (Object_values (_entryIndex L))) (o_heads options)) ∅
               = _headsIndex L).
  { destruct Hheads as [-> | ->]; cbn [default].
    - rewrite findHeads_heads_unreferenced
        by (by apply NoDup_hash_values, keys_are_hashes_hash).
      rewrite fold_unique_of_values by (by apply keys_are_hashes_hash). by rewrite <- Hh.
    - apply fold_unique_Permutation.
      + intros k e Hke. apply heads_in_index in Hke; [|done]. by apply (Hk k e).
      + unfold heads. rewrite <- Permutation_rev. apply js_sort_Permutation. }
  unfold newLog. cbv zeta. rewrite He, Hid.
  change (default [] (Some r)) with r. change (default randomId (Some (_id L))) with (_id L).
  rewrite HE, HH, length_Object_values.
  match goal with |- context [set_clock ?c ?l] => generalize c end. intros newClock.
  cbn [set_clock _entryIndex _headsIndex _length _id].
  split; [done|]. split; [done|]. split; [done|]. split; [done|].
  unfold well_formed, heads_unreferenced, nexts_exact, ids_match.
  cbn [set_clock _entryIndex _headsIndex _nextsIndex _length _id].
  split; [done|]. split; [done|]. split; [done|]. split; [done|].
  split; [|split; [done|done]].
  split.
  - rewrite fold_indexReducer_dom, dom_empty_L, union_empty_l_L. done.
  - intros k v [(e & [k' Hk']%elem_of_Object_values & _ & ->)|Hv]%fold_indexReducer_lookup.
    + destruct (Hk k' e Hk') as [-> ?]. done.
    + by rewrite lookup_empty in Hv.
Qed.

End Cut.

(** *** What [difference] and [join] let through *)

Section DifferenceSound.

Variables a b : Log.

(** What the walk has collected: entries of [a], kept under their hash,
    that [b] lacks and that carry the id of [b]. *)
Definition collected (res : gmap Hash Entry) : Prop :=
  forall k e, res !! k = Some e ->
    hash e = k
    /\ idDecrypted (metadata e) = _id b
    /\ exists h, _entryIndex a !! h = Some e /\ _entryIndex b !! h = None.

Lemma difference_loop_collected fuel stack T res :
  (length stack + size (pointers a ∖ T) <= fuel)%nat ->
  collected res ->
  exists r, difference_loop fuel a b stack T res = Ok r /\ collected r.
Proof.
  revert stack T res. induction fuel as [|fuel IH]; intros stack T res Hm HI.
  - destruct stack; [cbn; eauto|cbn in Hm; lia].
  - destruct stack as [|h0 stack]; [cbn; eauto|]. cbn [difference_loop].
    cbn [length] in Hm.
    assert (Hskip : exists r, difference_loop fuel a b stack T res = Ok r /\ collected r)
      by (apply IH; [lia|done]).
    rewrite get_lookup. destruct (_entryIndex a !! h0) as [entry|] eqn:Ha; [|done].
    rewrite get_lookup. destruct (_entryIndex b !! h0) as [eb|] eqn:Hb;
      cbn [isDefined negb andb]; [done|].
    case_bool_decide as Hid; [|done].
    destruct (fold_pushToStack b (next entry ++ refs entry) stack ({[hash entry]} ∪ T))
      as (pushed & Hf & Hp & Hl & Hmeas).
    rewrite Hf. apply IH.
    + specialize (Hmeas (pointers a) (fun h Hh => elem_of_pointers a h0 entry h Ha Hh)).
      rewrite length_app.
      pose proof (size_difference_mono (pointers a) T ({[hash entry]} ∪ T) ltac:(set_solver)).
      lia.
    + intros k e. destruct (decide (hash entry = k)) as [<-|Hne].
      * rewrite lookup_insert_eq. intros [= <-]. eauto.
      * rewrite lookup_insert_ne by done. apply HI.
Qed.

(** X6. [difference a b] returns, whatever the two logs hold; each entry it
    returns is an entry of [a] that [b] does not have under the same key,
    carries the id of [b], and is returned under its own hash. *)
Theorem difference_sound :
  exists r, difference a b = Ok r /\ collected r.
Proof.
  unfold difference. apply difference_loop_collected.
  - rewrite length_Object_keys.
    assert ((pointers a ∖ ∅ : gset Hash) = pointers a) as -> by set_solver. lia.
  - intros k e. by rewrite lookup_empty.
Qed.

End DifferenceSound.

Section JoinChecks.

Variable sortFn : Entry -> Entry -> Z.
Variable canAppend : string -> string -> bool.
Variable verifyEntry : Entry -> bool.

Lemma checkEntries_throws l e :
  e ∈ l ->
  canAppend (payload e) (identity (metadata e)) = false \/ verifyEntry e = false ->
  checkEntries canAppend verifyEntry l = Throw AccessError
  \/ checkEntries canAppend verifyEntry l = Throw SignatureError.
Proof.
  induction l as [|x l IH]; [by intros ?%elem_of_nil|].
  intros [->|He]%elem_of_cons Hbad; cbn [checkEntries].
  - destruct (canAppend (payload x) _); cbn [negb]; [|by left].
    destruct Hbad as [? | ->]; [done|]. by right.
  - destruct (canAppend (payload x) _); cbn [negb]; [|by left].
    destruct (verifyEntry x); cbn [negb]; [|by right]. by apply IH.
Qed.

(** X7. Joining two well-formed logs of the same id that agree on the hashes
    they share, when every entry of the other log passes [canAppend] and
    [verifyEntry]: the join returns a well-formed log whose entries are
    those of both, whose length is their number and whose heads are
    exactly its entries that no entry names. *)
Theorem join_unites (L A : Log) :
  well_formed L -> well_formed A -> _id L = _id A ->
  consistent (_entryIndex L) (_entryIndex A) -> permitted canAppend verifyEntry A ->
  exists L',
    join sortFn canAppend verifyEntry L A (-1) = Ok L'
    /\ _entryIndex L' = _entryIndex L ∪ _entryIndex A
    /\ _length L' = Z.of_nat (size (_entryIndex L ∪ _entryIndex A))
    /\ heads_exact L'
    /\ well_formed L'.
Proof.
  intros HwL HwA Hid Hcons Hperm.
  destruct (join_spec sortFn canAppend verifyEntry L A HwL HwA Hid Hcons Hperm)
    as (L' & Hj & HE & Hw & _).
  exists L'. split; [done|]. split; [done|].
  split; [|split; [by apply wf_heads_exact|done]].
  destruct Hw as (_ & _ & _ & _ & _ & _ & ->). by rewrite HE.
Qed.

(** X8. The same join throws, whatever the size asked for, as soon as one
    entry of the other log that this log lacks fails [canAppend] or
    [verifyEntry]. *)
Theorem join_rejects_unchecked (L A : Log) (size : Z) (k : Hash) (e : Entry) :
  well_formed L -> well_formed A -> _id L = _id A ->
  consistent (_entryIndex L) (_entryIndex A) ->
  _entryIndex A !! k = Some e -> _entryIndex L !! k = None ->
  canAppend (payload e) (identity (metadata e)) = false \/ verifyEntry e = false ->
  join sortFn canAppend verifyEntry L A size = Throw AccessError
  \/ join sortFn canAppend verifyEntry L A size = Throw SignatureError.
Proof.
  intros HwL HwA Hid Hcons HA HL Hbad.
  pose proof HwL as (HkL & HcL & HtL & HhL & HnL & HiL & HlL).
  pose proof HwA as (HkA & HcA & HtA & HhA & HnA & HiA & HlA).
  unfold join. rewrite bool_decide_eq_true_2 by done. cbn [negb].
  rewrite (difference_spec A L); try done.
  2:{ intros k' e' He'. rewrite Hid. by apply (HiA k' e'). }
  cbn [bind].
  destruct (checkEntries_throws (Object_values (_entryIndex A ∖ _entryIndex L)) e)
    as [-> | ->]; [|done|by left|by right].
  apply elem_of_Object_values. exists k. by rewrite lookup_difference, HL.
Qed.

End JoinChecks.

(** *** The clock of a log *)


Section ClockAdvances.

Variable sortFn : Entry -> Entry -> Z.
Variable toMultihash : Entry -> Hash.
Variable canAppend : string -> string -> bool.
Variable verifyEntry : Entry -> bool.
Variable signData : string -> string -> LamportClock -> list Hash -> list Hash -> string -> string.






End ClockAdvances.

Section AppendKeeps.

Variable sortFn : Entry -> Entry -> Z.
Variable toMultihash : Entry -> Hash.
Variable canAppend : string -> string -> bool.
Variable signData : string -> string -> LamportClock -> list Hash -> list Hash -> string -> string.


End AppendKeeps.


(** *** A concrete environment

    The entries are ordered by [Entry.compare], the hash of an entry is
    made of its payload, every entry is admitted and every signature
    holds. *)
Definition payload_hash (e : Entry) : Hash := String.append "h:" (payload e).
Definition allow_all (_ _ : string) : bool := true.
Definition accept_all (_ : Entry) : bool := true.
Definition sign_plain (_ _ : string) (_ : LamportClock) (_ _ : list Hash) (_ : string)
    : string := "sig".

Definition no_recycling : RecycleOptions :=
  {| maxOplogLength := None; cutOplogToLength := None |}.

Definition plain_options : LogOptions :=
  {| o_logId := Some "X"%string; o_entries := None; o_heads := None; o_clock := None;
     o_recycle := no_recycling |}.

Definition empty_log (identity : string) : Log :=
  newLog Entry_compare "r" identity plain_options.

Definition appendTo (L : Log) (data : string) : Log :=
  fst (append Entry_compare payload_hash allow_all sign_plain L data 1).

Definition joinTo (L A : Log) (size : Z) : Log :=
  match join Entry_compare allow_all accept_all L A size with
  | Ok L' => L'
  | Throw _ => L
  end.

Definition log_a : Log := appendTo (empty_log "A") "a".
Definition log_b : Log := appendTo (empty_log "B") "b".

(** A decidable proposition about concrete logs, settled by evaluation *)
Ltac by_evaluation := refine (bool_decide_unpack _ _); vm_compute; exact I.

Lemma join_commutative_idempotent_witness :
  exists LA LB LAB LBA LAA,
    join Entry_compare allow_all accept_all (empty_log "C") log_a (-1) = Ok LA
    /\ join Entry_compare allow_all accept_all (empty_log "C") log_b (-1) = Ok LB
    /\ join Entry_compare allow_all accept_all LA log_b (-1) = Ok LAB
    /\ join Entry_compare allow_all accept_all LB log_a (-1) = Ok LBA
    /\ join Entry_compare allow_all accept_all LA log_a (-1) = Ok LAA
    /\ state LAB = state LBA
    /\ state LAA = state LA.
Proof.
  apply (join_commutative_idempotent Entry_compare allow_all accept_all
           (empty_log "C") log_a log_b).
  - by_evaluation.
  - by_evaluation.
  - by_evaluation.
  - reflexivity.
  - reflexivity.
  - by_evaluation.
  - by_evaluation.
  - by_evaluation.
  - by_evaluation.
  - by_evaluation.
Defined.

(** A log of three entries [e], [x], [b] in a chain, and the log that
    keeps the one entry [x] of it: a join with a size has cut it. *)
Definition chain_ex : Log := appendTo (appendTo (empty_log "B") "e") "x".
Definition chain_exb : Log := appendTo chain_ex "b".
Definition only_x : Log := joinTo (empty_log "A") chain_ex 1.

(** C1, as first stated, fails: joining [only_x] and then [chain_exb]
    leaves [e] out, for the walk from the head [b] stops at [x], which the
    log already has; joining them in the other order brings all three
    entries. *)
Lemma join_order_changes_entries :
  join Entry_compare allow_all accept_all (empty_log "A") chain_ex 1 = Ok only_x
  /\ exists LA LAB LB LBA,
       join Entry_compare allow_all accept_all (empty_log "C") only_x (-1) = Ok LA
       /\ join Entry_compare allow_all accept_all LA chain_exb (-1) = Ok LAB
       /\ join Entry_compare allow_all accept_all (empty_log "C") chain_exb (-1) = Ok LB
       /\ join Entry_compare allow_all accept_all LB only_x (-1) = Ok LBA
       /\ _entryIndex LAB !! "h:e"%string = None
       /\ is_Some (_entryIndex LBA !! "h:e"%string)
       /\ _entryIndex LAB <> _entryIndex LBA.
Proof.
  split; [vm_compute; reflexivity|].
  exists (joinTo (empty_log "C") only_x (-1)),
         (joinTo (joinTo (empty_log "C") only_x (-1)) chain_exb (-1)),
         (joinTo (empty_log "C") chain_exb (-1)),
         (joinTo (joinTo (empty_log "C") chain_exb (-1)) only_x (-1)).
  repeat (split; [vm_compute; reflexivity|]).
  split; [vm_compute; eauto|].
  intros Heq. apply (f_equal (fun m => m !! "h:e"%string)) in Heq.
  vm_compute in Heq. discriminate.
Qed.







(** [cutLog] keeps [_nextsIndex] as it was. The log below holds [a], [b]
    that names [a], and a later [z]; cut to one entry it keeps [z], and
    its [_nextsIndex] still has [a]. A join with [log_a] then brings [a]
    back and leaves it out of the heads, though no entry names it. *)
Definition later_options : LogOptions :=
  {| o_logId := Some "X"%string; o_entries := None; o_heads := None;
     o_clock := Some (Clock "B" 5); o_recycle := no_recycling |}.

Definition log_z : Log := appendTo (newLog Entry_compare "r" "B" later_options) "z".
Definition log_abz : Log := joinTo (appendTo log_a "b") log_z (-1).

Lemma join_after_cutLog_misses_head :
  exists L1 L2,
    cutLog Entry_compare log_abz 1 = Ok L1
    /\ join Entry_compare allow_all accept_all L1 log_a (-1) = Ok L2
    /\ is_Some (_entryIndex L2 !! "h:a"%string)
    /\ map_Forall (fun _ e => "h:a"%string ∉ next e) (_entryIndex L2)
    /\ _headsIndex L2 !! "h:a"%string = None
    /\ ~ heads_exact L2.
Proof.
  pose (L1 := match cutLog Entry_compare log_abz 1 with Ok L => L | Throw _ => log_abz end).
  exists L1, (joinTo L1 log_a (-1)).
  split; [vm_compute; reflexivity|]. split; [vm_compute; reflexivity|].
  assert (Ha : is_Some (_entryIndex (joinTo L1 log_a (-1)) !! "h:a"%string))
    by (vm_compute; eauto).
  assert (Hn : map_Forall (fun _ e => "h:a"%string ∉ next e)
                 (_entryIndex (joinTo L1 log_a (-1)))) by by_evaluation.
  assert (Hh : _headsIndex (joinTo L1 log_a (-1)) !! "h:a"%string = None)
    by (vm_compute; reflexivity).
  repeat (split; [done|]).
  intros Hexact. destruct Ha as [a Ha].
  assert (_headsIndex (joinTo L1 log_a (-1)) !! "h:a"%string = Some a) as Hhead.
  { apply Hexact. split; [done|]. intros k' e' Hk' _. by apply (Hn k' e'). }
  congruence.
Qed.

(** *** The properties above, on the concrete logs *)

Lemma values_complete_witness :
  exists r, values Entry_compare chain_exb = Ok r
    /\ r ≡ₚ Object_values (_entryIndex chain_exb)
    /\ NoDup (hash <$> r) /\ Z.of_nat (length r) = _length chain_exb.
Proof. apply (values_complete Entry_compare chain_exb). by_evaluation. Defined.

Lemma cutLog_keeps_all_witness :
  cutLog Entry_compare chain_exb 3 = Ok chain_exb.
Proof.
  apply (cutLog_keeps_all Entry_compare chain_exb 3).
  - by_evaluation.
  - right. vm_compute. discriminate.
Defined.

(** The options that hand the constructor the values of [chain_exb] *)
Definition valuesOf (L : Log) : list Entry :=
  match values Entry_compare L with
  | Ok r => r
  | Throw _ => []
  end.

Definition from_chain_exb : LogOptions :=
  {| o_logId := Some "X"%string; o_entries := Some (valuesOf chain_exb);
     o_heads := None; o_clock := None; o_recycle := no_recycling |}.

Lemma constructor_from_values_witness :
  let L' := newLog Entry_compare "r" "C" from_chain_exb in
  _entryIndex L' = _entryIndex chain_exb
  /\ _headsIndex L' = _headsIndex chain_exb
  /\ _length L' = _length chain_exb
  /\ _id L' = _id chain_exb
  /\ well_formed L'.
Proof.
  apply (constructor_from_values Entry_compare chain_exb "r" "C" from_chain_exb
           (valuesOf chain_exb)).
  - by_evaluation.
  - vm_compute. reflexivity.
  - reflexivity.
  - vm_compute. discriminate.
  - reflexivity.
  - by left.
Defined.

Lemma join_unites_witness :
  exists L',
    join Entry_compare allow_all accept_all log_a log_b (-1) = Ok L'
    /\ _entryIndex L' = _entryIndex log_a ∪ _entryIndex log_b
    /\ _length L' = Z.of_nat (size (_entryIndex log_a ∪ _entryIndex log_b))
    /\ heads_exact L'
    /\ well_formed L'.
Proof.
  apply (join_unites Entry_compare allow_all accept_all log_a log_b).
  - by_evaluation.
  - by_evaluation.
  - reflexivity.
  - by_evaluation.
  - by_evaluation.
Defined.

(** An access controller that turns the payload [b] away, and the entry
    of [log_b] *)
Definition deny_b (data _ : string) : bool := negb (String.eqb data "b").

Definition entry_b : Entry :=
  {| metadata := {| idDecrypted := "X"; identity := "B"; signature := "sig" |};
     clock := Clock "B" 1; payload := "b"; next := []; refs := []; hash := "h:b" |}.

Lemma join_rejects_unchecked_witness :
  join Entry_compare deny_b accept_all log_a log_b (-1) = Throw AccessError
  \/ join Entry_compare deny_b accept_all log_a log_b (-1) = Throw SignatureError.
Proof.
  apply (join_rejects_unchecked Entry_compare deny_b accept_all log_a log_b (-1)
           "h:b" entry_b).
  - by_evaluation.
  - by_evaluation.
  - reflexivity.
  - by_evaluation.
  - vm_compute. reflexivity.
  - vm_compute. reflexivity.
  - left. reflexivity.
Defined.




End LogModel.

(** ** Transport messages (stream-interface/src/messages.ts) *)

Module Messages.

Definition bytes := list Byte.byte.

(** [SignatureWithKey] of the crypto package: a signature and the key
    that made it. *)
Record SignatureWithKey := {
  signature : bytes;
  publicKey : bytes
}.

Record MessageHeader := {
  _id : bytes;
  _timestamp : Z;
  _expires : Z;
  _origin : option (list string);
  to : list string;
  signatures : option (list SignatureWithKey)
}.

Inductive DeliveryMode :=
| SilentDelivery (redundancy : Z)
| AcknowledgeDelivery (redundancy : Z)
| SeekDelivery (redundancy : Z).

(** The serialized fields of the four message classes, next to the
    header they all carry. *)
Inductive Body :=
| DataMessage (_deliveryMode : DeliveryMode) (_data : option bytes)
| ACK (messageIdToAcknowledge : bytes) (seenCounter : Z)
| Hello (joined : list string)
| Goodbye (leaving : list string).

(** A message: the serialized part and the field [_verified], which is
    not serialized. *)
Record Message := {
  header : MessageHeader;
  body : Body;
  _verified : option bool
}.

Definition set_to (v : list string) (m : Message) : Message :=
  {| header := {| _id := _id (header m); _timestamp := _timestamp (header m);
                  _expires := _expires (header m); _origin := _origin (header m);
                  to := v; signatures := signatures (header m) |};
     body := body m; _verified := _verified m |}.

Definition set_signatures (v : option (list SignatureWithKey)) (m : Message) : Message :=
  {| header := {| _id := _id (header m); _timestamp := _timestamp (header m);
                  _expires := _expires (header m); _origin := _origin (header m);
                  to := to (header m); signatures := v |};
     body := body m; _verified := _verified m |}.

Definition set_verified (v : option bool) (m : Message) : Message :=
  {| header := header m; body := body m; _verified := v |}.



(** The constructor of [ACK] *)
Definition new_ACK (messageIdToAcknowledge : bytes) (seenCounter : Z)
    (header : MessageHeader) : Message :=
  {| header := header; body := ACK messageIdToAcknowledge (Z.min 255 seenCounter);
     _verified := None |}.

(** [MessageHeader.verify], at the time [now] *)
Definition MessageHeader_verify (now : Z) (h : MessageHeader) : bool :=
  now <=? _expires h.

Section WithCrypto.

(** The serializer (borsh) sees the decorated fields only; [verify] is
    the signature check of the crypto package. *)
Variable serialize : MessageHeader -> Body -> bytes.
Variable verify : SignatureWithKey -> bytes -> bool.

Definition message_bytes (m : Message) : bytes := serialize (header m) (body m).

(** The bytes that are signed: the message with [to] emptied and the
    signatures removed. *)
Definition signed_bytes (m : Message) : bytes :=
  message_bytes (set_signatures None (set_to [] m)).

(** [sign] *)
Definition sign (obj : Message) (signer : bytes -> SignatureWithKey) : Message :=
  let to0 := to (header obj) in
  let obj := set_to [] obj in
  let signatures0 := signatures (header obj) in
  let obj := set_signatures None obj in
  let signature := signer (message_bytes obj) in
  let obj := set_signatures
               (Some (match signatures0 with
                      | Some s => s ++ [signature]
                      | None => [signature]
                      end)) obj in
  set_to to0 obj.

(** [verifyMultiSig]: the result and the message as it is left *)
Definition verifyMultiSig (message : Message) (expectSignatures : bool) : bool * Message :=
  match signatures (header message) with
  | None => (negb expectSignatures, message)
  | Some sigs =>
      if (length sigs =? 0)%nat then (negb expectSignatures, message)
      else
        let to0 := to (header message) in
        let m := set_to [] message in
        let m := set_signatures None m in
        let bytes := message_bytes m in
        let m := set_to to0 m in
        let m := set_signatures (Some sigs) m in
        (forallb (fun s => verify s bytes) sigs, m)
  end.

(** [Message.verify] *)
Definition Message_verify (now : Z) (m : Message) (expectSignatures : bool) : bool * Message :=
  match _verified m with
  | Some v => (v, m)
  | None =>
      if MessageHeader_verify now (header m)
      then let '(r, m) := verifyMultiSig m expectSignatures in (r, set_verified (Some r) m)
      else (false, set_verified (Some false) m)
  end.



(** *** Properties *)

Lemma set_to_set_to v w m : set_to v (set_to w m) = set_to v m.
Proof. reflexivity. Qed.

Lemma set_signatures_set_to s v m :
  set_signatures s (set_to v m) = set_to v (set_signatures s m).
Proof. reflexivity. Qed.

Lemma set_to_id m : set_to (to (header m)) m = m.
Proof. destruct m as [[] ? ?]; reflexivity. Qed.

Lemma set_signatures_id m : set_signatures (signatures (header m)) m = m.
Proof. destruct m as [[] ? ?]; reflexivity. Qed.

Lemma signed_bytes_set_to v m : signed_bytes (set_to v m) = signed_bytes m.
Proof. reflexivity. Qed.

Lemma signed_bytes_set_signatures s m :
  signed_bytes (set_signatures s m) = signed_bytes m.
Proof. reflexivity. Qed.

Lemma verifyMultiSig_spec m e :
  verifyMultiSig m e =
    (match signatures (header m) with
     | None | Some [] => negb e
     | Some sigs => forallb (fun s => verify s (signed_bytes m)) sigs
     end, m).
Proof.
  unfold verifyMultiSig.
  destruct (signatures (header m)) as [[|s sigs]|] eqn:Hs; try reflexivity.
  cbn [length Nat.eqb]. f_equal.
  destruct m as [[i t x o d g] b v]; cbn in Hs; subst g; reflexivity.
Qed.

(** C6. What [sign] signs is the serialization of the message with [to]
    emptied and the signatures removed; it appends the signature and
    leaves [to] and the body as they were. [verifyMultiSig] checks every
    signature against the same bytes and leaves the message as it was.
    So the signed bytes, and with them the verdict of [verifyMultiSig] and
    of [Message.verify], are the same whatever the [to] field holds. *)
Theorem sign_covers_header_without_to (m : Message)
    (signer : bytes -> SignatureWithKey) (e : bool) (now : Z) (to' : list string) :
  signatures (header (sign m signer))
    = Some (default [] (signatures (header m)) ++ [signer (signed_bytes m)])
  /\ to (header (sign m signer)) = to (header m)
  /\ body (sign m signer) = body m
  /\ signed_bytes (sign m signer) = signed_bytes m
  /\ verifyMultiSig m e
       = (match signatures (header m) with
          | None | Some [] => negb e
          | Some sigs => forallb (fun s => verify s (signed_bytes m)) sigs
          end, m)
  /\ signed_bytes (set_to to' m) = signed_bytes m
  /\ fst (verifyMultiSig (set_to to' m) e) = fst (verifyMultiSig m e)
  /\ fst (verifyMultiSig (set_to to' (sign m signer)) e)
       = fst (verifyMultiSig (sign m signer) e)
  /\ fst (Message_verify now (set_to to' m) e) = fst (Message_verify now m e).
Proof.
  repeat split.
  - unfold sign; cbn. destruct (signatures (header m)); reflexivity.
  - apply verifyMultiSig_spec.
  - rewrite !verifyMultiSig_spec. reflexivity.
  - rewrite !verifyMultiSig_spec. reflexivity.
  - unfold Message_verify. cbn [_verified set_to].
    destruct (_verified m); [reflexivity|].
    change (header (set_to to' m)) with (header (set_to to' m)).
    unfold MessageHeader_verify; cbn [header set_to _expires].
    destruct (now <=? _expires (header m)); [|reflexivity].
    pose proof (verifyMultiSig_spec (set_to to' m) e) as H1.
    pose proof (verifyMultiSig_spec m e) as H2.
    destruct (verifyMultiSig (set_to to' m) e) as [r1 m1].
    destruct (verifyMultiSig m e) as [r2 m2].
    cbn. inversion H1; inversion H2; subst. reflexivity.
Qed.


(** C10. A message that has not been verified yet and whose [expires] is
    earlier than the current time does not verify, whatever signatures it
    carries. The verdict of a verification is stored in [_verified], and
    every later call returns the stored verdict, at whatever time. *)
Theorem Message_verify_expired_and_cached (m : Message) (now now' : Z) (e e' : bool) :
  (_verified m = None -> _expires (header m) < now ->
     Message_verify now m e = (false, set_verified (Some false) m))
  /\ _verified (snd (Message_verify now m e)) = Some (fst (Message_verify now m e))
  /\ fst (Message_verify now' (snd (Message_verify now m e)) e')
       = fst (Message_verify now m e).
Proof.
  assert (Hc : _verified (snd (Message_verify now m e))
               = Some (fst (Message_verify now m e))).
  { unfold Message_verify. destruct (_verified m) eqn:Hv; [exact Hv|].
    destruct (MessageHeader_verify now (header m)); [|reflexivity].
    rewrite verifyMultiSig_spec. reflexivity. }
  split; [|split; [exact Hc|]].
  - intros Hv Hexp. unfold Message_verify, MessageHeader_verify. rewrite Hv.
    destruct (now <=? _expires (header m)) eqn:Hle; [|reflexivity].
    apply Z.leb_le in Hle. lia.
  - unfold Message_verify at 1. rewrite Hc. reflexivity.
Qed.

End WithCrypto.

Section SignThenVerify.

Variable serialize : MessageHeader -> Body -> bytes.
Variable verify : SignatureWithKey -> bytes -> bool.

(** A message signed by several signers, one after the other *)
Definition sign_all (m : Message) (signers : list (bytes -> SignatureWithKey)) : Message :=
  fold_left (sign serialize) signers m.

Lemma sign_keeps m signer :
  signed_bytes serialize (sign serialize m signer) = signed_bytes serialize m
  /\ _verified (sign serialize m signer) = _verified m
  /\ _expires (header (sign serialize m signer)) = _expires (header m)
  /\ signatures (header (sign serialize m signer))
     = Some (default [] (signatures (header m)) ++ [signer (signed_bytes serialize m)]).
Proof.
  repeat split. unfold sign; cbn. by destruct (signatures (header m)).
Qed.

Lemma sign_all_keeps signers : forall m,
  signed_bytes serialize (sign_all m signers) = signed_bytes serialize m
  /\ _verified (sign_all m signers) = _verified m
  /\ _expires (header (sign_all m signers)) = _expires (header m)
  /\ default [] (signatures (header (sign_all m signers)))
     = default [] (signatures (header m))
       ++ List.map (fun signer => signer (signed_bytes serialize m)) signers.
Proof.
  induction signers as [|signer signers IH]; intros m; cbn [sign_all fold_left List.map].
  - by rewrite app_nil_r.
  - destruct (IH (sign serialize m signer)) as (H1 & H2 & H3 & H4).
    destruct (sign_keeps m signer) as (G1 & G2 & G3 & G4).
    unfold sign_all in *. rewrite H1, H2, H3, H4, G1, G2, G3, G4. cbn [default].
    unfold id. by rewrite <- app_assoc.
Qed.

(** X11. A message that has not been verified yet and has not expired, once
    signed by one signer or by several in turn, verifies exactly when
    every signature it carried before and every signature added is valid
    for the bytes that were signed: the message with [to] emptied and
    without signatures. Whether signatures are expected plays no part. *)
Theorem signed_message_verifies (m : Message)
    (signers : list (bytes -> SignatureWithKey)) (now : Z) (e : bool) :
  signers <> [] -> _verified m = None -> now <= _expires (header m) ->
  fst (Message_verify serialize verify now (sign_all m signers) e)
  = forallb (fun s => verify s (signed_bytes serialize m))
      (default [] (signatures (header m))
       ++ List.map (fun signer => signer (signed_bytes serialize m)) signers).
Proof.
  intros Hne Hv Hexp.
  destruct (sign_all_keeps signers m) as (H1 & H2 & H3 & H4).
  unfold Message_verify, MessageHeader_verify. rewrite H2, Hv, H3.
  replace (now <=? _expires (header m)) with true by (symmetry; by apply Z.leb_le).
  rewrite verifyMultiSig_spec. cbn [fst]. rewrite H1, <- H4.
  destruct (signatures (header (sign_all m signers))) as [[|s sigs]|] eqn:Hs; [| done |].
  - cbn [default] in H4. symmetry in H4. apply app_eq_nil in H4 as [_ H4].
    destruct signers; [done|discriminate].
  - cbn [default] in H4. symmetry in H4. apply app_eq_nil in H4 as [_ H4].
    destruct signers; [done|discriminate].
Qed.

End SignThenVerify.


(** *** The constructors of the header and of the data message *)

Definition WEEK_MS : Z := 7 * 24 * 60 * 60 + 1000.

Record HeaderProperties := {
  p_to : option (list string);
  p_origin : option (list string);
  p_expires : option Z;
  p_id : option bytes
}.

(** The constructor of [MessageHeader]. [randomBytes] is the value of
    [randomBytes(ID_LENGTH)]; the clock is read twice, for [_expires] and
    for [_timestamp]. An [expires] of [0n] is falsy. *)
Definition new_MessageHeader (randomBytes : bytes) (now now' : Z)
    (properties : option HeaderProperties) : MessageHeader :=
  {| _id := default randomBytes (properties ≫= p_id);
     _timestamp := now';
     _expires := match properties ≫= p_expires with
                 | Some e => if e =? 0 then now + WEEK_MS else e
                 | None => now + WEEK_MS
                 end;
     _origin := properties ≫= p_origin;
     to := default [] (properties ≫= p_to);
     signatures := Some [] |}.

(** The constructor of [DataMessage]; the header is made when none is
    given. *)
Definition new_DataMessage (randomBytes : bytes) (now now' : Z)
    (header : option MessageHeader) (data : option bytes) (deliveryMode : DeliveryMode)
    : Message :=
  {| header := default (new_MessageHeader randomBytes now now' None) header;
     body := DataMessage deliveryMode data;
     _verified := None |}.

Section Lifetime.

Variable serialize : MessageHeader -> Body -> bytes.
Variable verify : SignatureWithKey -> bytes -> bool.

(** X12. A header made without [expires], or with an [expires] of 0, expires
    605800 milliseconds after it is made. A data message made without a
    header carries such a header and no signature: verified for the first
    time at the time [t], it verifies exactly when [t] is not later than
    that and no signature is expected. *)
Theorem new_message_lifetime (randomBytes : bytes) (now now' t : Z)
    (properties : option HeaderProperties) (data : option bytes)
    (deliveryMode : DeliveryMode) (e : bool) :
  (properties ≫= p_expires = None \/ properties ≫= p_expires = Some 0 ->
     MessageHeader_verify t (new_MessageHeader randomBytes now now' properties)
     = (t <=? now + 605800))
  /\ fst (Message_verify serialize verify t
            (new_DataMessage randomBytes now now' None data deliveryMode) e)
     = (t <=? now + 605800) && negb e.
Proof.
  split.
  - intros Hexp. unfold MessageHeader_verify, new_MessageHeader. cbn [_expires].
    by destruct Hexp as [-> | ->].
  - unfold Message_verify, new_DataMessage. cbn [_verified header default].
    unfold MessageHeader_verify. cbn [_expires new_MessageHeader mbind option_bind].
    change (now + WEEK_MS) with (now + 605800).
    destruct (t <=? now + 605800); [|done].
    rewrite verifyMultiSig_spec. done.
Qed.

End Lifetime.

(** A data message without signatures, expiring at time 20. *)
Definition unsigned_message : Message :=
  {| header := {| _id := []; _timestamp := 0; _expires := 20; _origin := None;
                  to := []; signatures := Some [] |};
     body := DataMessage (SilentDelivery 1) None;
     _verified := None |}.

Definition no_bytes (h : MessageHeader) (b : Body) : bytes := [].
Definition reject_all (s : SignatureWithKey) (b : bytes) : bool := false.

(** C10, as first stated, fails: a message verified at time 10, before it
    expires, still verifies at time 30, after it has expired, because the
    stored verdict is returned. *)
Lemma expired_message_verifies_from_cache :
  let m1 := snd (Message_verify no_bytes reject_all 10 unsigned_message false) in
  _expires (header m1) < 30
  /\ fst (Message_verify no_bytes reject_all 30 m1 false) = true.
Proof. split; reflexivity. Qed.

Lemma Message_verify_expired_and_cached_witness :
  Message_verify no_bytes reject_all 30 unsigned_message true
    = (false, set_verified (Some false) unsigned_message).
Proof.
  apply (Message_verify_expired_and_cached no_bytes reject_all unsigned_message 30 30 true true).
  - reflexivity.
  - reflexivity.
Defined.

Definition key_of (b : bytes) : SignatureWithKey := {| signature := b; publicKey := [] |}.
Definition same_length (s : SignatureWithKey) (b : bytes) : bool :=
  (length (signature s) =? length b)%nat.

Lemma signed_message_verifies_witness :
  fst (Message_verify no_bytes same_length 10 (sign_all no_bytes unsigned_message [key_of]) true)
  = forallb (fun s => same_length s (signed_bytes no_bytes unsigned_message))
      (default [] (signatures (header unsigned_message))
       ++ List.map (fun signer => signer (signed_bytes no_bytes unsigned_message)) [key_of]).
Proof.
  apply (signed_message_verifies no_bytes same_length unsigned_message [key_of] 10 true).
  - discriminate.
  - reflexivity.
  - cbn. lia.
Defined.

End Messages.

(** ** The shared log (shared-log/src/index.ts) *)

Module SharedLogModel.

(** *** Numbers

    The replication factor, the offsets on the ring and the cursor are
    JavaScript numbers. The code is written once over the operations it
    uses; [float_Number] is the IEEE 754 binary64 instance, [Z_Number] the
    integers (a factor is 0 or 1 for an observer and for the default
    replicator role). *)

Class Number (R : Type) := {
  zero : R;
  add : R -> R -> R;
  sub : R -> R -> R;
  gt : R -> R -> bool
}.

(** The further operations of the sampling code. *)
Class NumberOps (R : Type) `{Number R} := {
  mul : R -> R -> R;
  div : R -> R -> R;
  rem : R -> R -> R;
  abs : R -> R;
  min : R -> R -> R;
  lt : R -> R -> bool;
  of_Z : Z -> R
}.

#[global] Instance Z_Number : Number Z :=
  {| zero := 0; add := Z.add; sub := Z.sub; gt := Z.gtb |}.

Definition float_of_Z (z : Z) : float := SF2Prim (binary_normalize prec emax z 0 false).

(** [a % b] on binary64: the remainder of the truncated division, exact,
    with the sign of the dividend. *)
Definition float_rem (a b : float) : float :=
  match Prim2SF a, Prim2SF b with
  | S754_finite sa ma ea, S754_finite _ mb eb =>
      let e := Z.min ea eb in
      let r := (Z.pos ma * 2 ^ (ea - e)) mod (Z.pos mb * 2 ^ (eb - e)) in
      SF2Prim (binary_normalize prec emax (if sa then - r else r) e sa)
  | S754_zero _, S754_finite _ _ _ => a
  | S754_zero _, S754_infinity _ => a
  | S754_finite _ _ _, S754_infinity _ => a
  | _, _ => nan
  end.

(** [Math.min] *)
Definition float_min (a b : float) : float :=
  if is_nan a || is_nan b then nan
  else if PrimFloat.ltb a b then a
  else if PrimFloat.ltb b a then b
  else if get_sign a then a else b.

#[global] Instance float_Number : Number float :=
  {| zero := float_of_Z 0; add := PrimFloat.add; sub := PrimFloat.sub;
     gt := fun a b => PrimFloat.ltb b a |}.

#[global] Instance float_NumberOps : NumberOps float :=
  {| mul := PrimFloat.mul; div := PrimFloat.div; rem := float_rem;
     abs := PrimFloat.abs; min := float_min; lt := PrimFloat.ltb;
     of_Z := float_of_Z |}.

(** *** Roles and the ring *)

Inductive DeliveryMode :=
| SilentDelivery (redundancy : Z) (to : list string)
| AcknowledgeDelivery (redundancy : Z) (to : list string)
| SeekDelivery (redundancy : Z) (to : list string).

Definition WAIT_FOR_ROLE_MATURITY : Z := 5000.

Section WithNumber.

Context {R : Type} {HN : Number R} {HO : NumberOps R}.

Record Replicator := {
  factor : R;
  timestamp : Z
}.

Inductive Role :=
| Observer
| ReplicatorRole (r : Replicator).

Record ReplicatorRect := {
  publicKey : string;
  offset : R;
  role : Replicator
}.

(** The fields of [SharedLog] the modelled methods use. [closed] is the
    flag of the program, [identity] the public key of the node. *)
Record SharedLog := {
  closed : bool;
  identity : string;
  _sortedPeersCache : option (list ReplicatorRect);
  _totalParticipation : R;
  _canReplicate : option (string -> Replicator -> bool);
  openTime : Z
}.

Definition set_ring (l : list ReplicatorRect) (total : R) (st : SharedLog) : SharedLog :=
  {| closed := closed st; identity := identity st;
     _sortedPeersCache := Some l; _totalParticipation := total;
     _canReplicate := _canReplicate st; openTime := openTime st |}.

(** The result of [_modifyReplicators] *)
Inductive Changed :=
| added
| none
| updated (prev : Replicator)
| removed (prev : Replicator).

(** [hashToUniformNumber] of replication.ts, not part of the sources. *)
Variable hashToUniformNumber : string -> R.
(** [PublicSignKey.hashcode] *)
Variable hashcode : string -> string.

(** The walk of [_modifyReplicators] over the sorted list: [before] holds
    the nodes already passed, nearest first. The result is the list after
    the update or the insertion, and what changed. *)
Fixpoint insert_walk (rect : ReplicatorRect) (before : list ReplicatorRect)
    (l : list ReplicatorRect) : Result (list ReplicatorRect * Changed) :=
  match l with
  | [] => Ok (rev before ++ [rect], added)
  | currentNode :: rest =>
      if bool_decide (publicKey currentNode = publicKey rect)
      then Ok (rev before ++ rect :: rest, updated (role currentNode))
      else if gt (offset rect) (offset currentNode)
      then match rest with
           | _ :: _ => insert_walk rect (currentNode :: before) rest
           | [] =>
               (* no next node: [prev] is the last node, [prev.next] is null *)
               Ok (rev before ++ [currentNode; rect], added)
           end
      else
        (* [prev] is the node before; [prev.next] is [currentNode] *)
        match before with
        | [] => Ok (rect :: currentNode :: rest, added)
        | _ :: _ =>
            if bool_decide (publicKey currentNode = publicKey rect)
            then Throw Unexpected
            else Ok (rev before ++ rect :: currentNode :: rest, added)
        end
  end.

Fixpoint remove_walk (key : string) (l : list ReplicatorRect)
    : option (list ReplicatorRect * Replicator) :=
  match l with
  | [] => None
  | currentNode :: rest =>
      if bool_decide (publicKey currentNode = key)
      then Some (rest, role currentNode)
      else match remove_walk key rest with
           | Some (rest', prev) => Some (currentNode :: rest', prev)
           | None => None
           end
  end.

(** [_modifyReplicators]; [online] is the outcome of waiting for the peer. *)
Definition _modifyReplicators (st : SharedLog) (role : Role) (key : string)
    (online : bool) : Result (SharedLog * Changed) :=
  let refused :=
    match role, _canReplicate st with
    | ReplicatorRole r, Some can => negb (can key r)
    | _, _ => false
    end in
  if refused then Ok (st, none) else
  match _sortedPeersCache st with
  | None => if closed st then Ok (st, none) else Throw Unexpected
  | Some sortedPeer =>
      match role with
      | ReplicatorRole r =>
          if gt (factor r) zero then
            let isOnline := bool_decide (identity st = key) || online in
            if isOnline then
              let code := hashToUniformNumber key in
              let rect := {| publicKey := key; offset := code; role := r |} in
              match sortedPeer with
              | [] => Ok (set_ring [rect] (add (_totalParticipation st) (factor r)) st, added)
              | _ :: _ =>
                  match insert_walk rect [] sortedPeer with
                  | Throw e => Throw e
                  | Ok (l, updated prev) =>
                      Ok (set_ring l (sub (add (_totalParticipation st) (factor r)) (factor prev)) st,
                          updated prev)
                  | Ok (l, c) =>
                      Ok (set_ring l (add (_totalParticipation st) (factor r)) st, c)
                  end
              end
            else Ok (st, none)
          else
            match remove_walk key sortedPeer with
            | Some (l, prev) =>
                Ok (set_ring l (sub (_totalParticipation st) (factor prev)) st, removed prev)
            | None => Ok (st, none)
            end
      | Observer =>
          match remove_walk key sortedPeer with
          | Some (l, prev) =>
              Ok (set_ring l (sub (_totalParticipation st) (factor prev)) st, removed prev)
          | None => Ok (st, none)
          end
      end
  end.


(** *** Leader selection *)

(** [maybeIncrementMatured]: the test on the age of a role *)
Definition isMatured (time roleAge : Z) (r : Replicator) : bool :=
  roleAge <? time - timestamp r.

Record Diff := {
  diff : R;
  rect : ReplicatorRect
}.

(** A [Set] of strings, in insertion order. *)
Definition Set_add (x : string) (s : list string) : list string :=
  if bool_decide (x ∈ s) then s else s ++ [x].

Definition MAX_SAFE_INTEGER : R := of_Z 9007199254740991.
Definition lit_0_00001 : R := div (of_Z 1) (of_Z 100000).

Section Collect.

(** The callbacks [point], [done] and [onMatured] share the variables of
    the caller; [S] is the state they read and write. *)
Context {S : Type}.
Variable point : S -> R.
Variable done : S -> bool.
Variable onMatured : ReplicatorRect -> S -> S.

Record Collecting := {
  collector : list string;
  diffs : list Diff;
  matured : Z;
  callbacks : S
}.

(** The body of the loop for one node *)
Definition visit (time roleAge : Z) (width : R) (currentNode : ReplicatorRect)
    (st : Collecting) : Collecting :=
  let start := rem (offset currentNode) width in
  let absDelta := abs (sub start (point (callbacks st))) in
  let diff := min absDelta (sub width absDelta) in
  if lt diff (add (div (factor (role currentNode)) (of_Z 2)) lit_0_00001)
  then
    let collector := Set_add (hashcode (publicKey currentNode)) (collector st) in
    if isMatured time roleAge (role currentNode)
    then {| collector := collector; diffs := diffs st; matured := matured st + 1;
            callbacks := onMatured currentNode (callbacks st) |}
    else {| collector := collector; diffs := diffs st; matured := matured st;
            callbacks := callbacks st |}
  else
    {| collector := collector st;
       diffs := diffs st ++
                [{| diff := if gt (factor (role currentNode)) zero
                            then div diff (factor (role currentNode))
                            else MAX_SAFE_INTEGER;
                    rect := currentNode |}];
       matured := matured st; callbacks := callbacks st |}.

(** The loop: [order] is the ring from the current node on, once around.
    After the last node the walk is back at the start node, whose key
    ends it. *)
Fixpoint walk (time roleAge : Z) (width : R) (startKey : string)
    (order : list ReplicatorRect) (st : Collecting) : Collecting :=
  match order with
  | [] => st
  | currentNode :: rest =>
      if done (callbacks st) then st
      else
        let st := visit time roleAge width currentNode st in
        match rest with
        | [] => st
        | nextNode :: _ =>
            if bool_decide (startKey = publicKey nextNode) then st
            else walk time roleAge width startKey rest st
        end
  end.

(** The loop over the sorted [diffs] when no node had matured *)
Fixpoint nearest (time roleAge : Z) (sorted : list Diff) (collector : list string)
    (matured : Z) : list string :=
  match sorted with
  | [] => collector
  | node :: rest =>
      let collector := Set_add (hashcode (publicKey (rect node))) collector in
      let matured := if isMatured time roleAge (role (rect node)) then matured + 1 else matured in
      if 0 <? matured then collector else nearest time roleAge rest collector matured
  end.

(** [collectNodesAroundPoint]; [currentNode] is the position of the node
    in [peers], if any. *)
Definition collectNodesAroundPoint (time roleAge : Z) (peers : list ReplicatorRect)
    (currentNode : option nat) (width : R) (collected : list string) (s : S)
    : list string * S :=
  let st0 := {| collector := collected; diffs := []; matured := 0; callbacks := s |} in
  let st :=
    match currentNode with
    | Some i =>
        match peers !! i with
        | Some startNode =>
            walk time roleAge width (publicKey startNode) (drop i peers ++ take i peers) st0
        | None => st0
        end
    | None => st0
    end in
  if matured st =? 0
  then
    let sorted := js_sort_by (fun x y => negb (gt (sub (diff x) (diff y)) zero)) (diffs st) in
    (nearest time roleAge sorted (collector st) (matured st), callbacks st)
  else (collector st, callbacks st).

End Collect.

(** [findLeadersFromUniformNumber], at the time [now] *)
Definition findLeadersFromUniformNumber (st : SharedLog) (now : Z) (cursor : R)
    (numberOfLeaders : Z) (roleAge : option Z) : list string :=
  let width := of_Z 1 in
  match _sortedPeersCache st with
  | None => []
  | Some peers =>
      if (length peers =? 0)%nat then []
      else
        let numberOfLeaders := Z.min numberOfLeaders (Z.of_nat (length peers)) in
        let t := now in
        let roleAge := default (Z.min WAIT_FOR_ROLE_MATURITY (now - openTime st)) roleAge in
        fold_left
          (fun leaders i =>
             let point := mul (rem (add cursor (div (of_Z i) (of_Z numberOfLeaders))) (of_Z 1)) width in
             fst (collectNodesAroundPoint (fun _ : unit => point) (fun _ => false)
                    (fun _ s => s) t roleAge peers (Some 0%nat) width leaders tt))
          (seqZ 0 numberOfLeaders) []
  end.

(** [sha256] of the encoded subject *)
Variable seed : string -> string.

(** [findLeaders] *)
Definition findLeaders (st : SharedLog) (now : Z) (subject : string)
    (numberOfLeaders : Z) (roleAge : option Z) : list string :=
  if closed st then [hashcode (identity st)]
  else
    let cursor := hashToUniformNumber (seed subject) in
    findLeadersFromUniformNumber st now cursor numberOfLeaders roleAge.

(** *** Append *)

(** The log of the shared log (the package [@peerbit/log]), its entries
    and the message made from them are collaborators. *)
Variables LogT EntryT DataT MessageT : Type.
Variable log_append : LogT -> DataT -> Z -> LogT * EntryT.
Variable gid : EntryT -> string.
Variable decodeReplicas : EntryT -> Z.
Variable createExchangeHeadsMessage : LogT -> list EntryT -> MessageT.

(** [SharedLog.append]: the log after the append, the entry, and what is
    handed to [rpc.send]. [replicas_min] is [this.replicas.min]. *)
Definition append (st : SharedLog) (log : LogT) (now : Z) (replicas_min : Z)
    (data : DataT) (replicas : option Z)
    : LogT * EntryT * list (MessageT * DeliveryMode) :=
  let minReplicasData :=
    match replicas with
    | Some r => if r =? 0 then replicas_min else r
    | None => replicas_min
    end in
  let '(log, entry) := log_append log data minReplicasData in
  let leaders := findLeaders st now (gid entry) (decodeReplicas entry) None in
  let isLeader := bool_decide (hashcode (identity st) ∈ leaders) in
  let message := createExchangeHeadsMessage log [entry] in
  (log, entry,
   [(message, if isLeader then SilentDelivery 1 leaders
              else AcknowledgeDelivery 1 leaders)]).

(** *** Properties *)


Section Exact.

(** Addition and subtraction of factors are exact: sums may be
    reordered, and subtracting what was added gives back the sum. *)
Hypothesis add_right_comm : forall a b c : R, add (add a b) c = add (add a c) b.
Hypothesis add_sub : forall a b : R, sub (add a b) b = a.








End Exact.

Section Maturity.

(** Two moments [(time1, roleAge1)] and [(time2, roleAge2)] at which the
    same roles of [peers] have matured. *)
Definition same_maturity (peers : list ReplicatorRect)
    (time1 roleAge1 time2 roleAge2 : Z) : Prop :=
  Forall (fun node => isMatured time1 roleAge1 (role node)
                      = isMatured time2 roleAge2 (role node)) peers.

Context {S : Type}.
Variable point : S -> R.
Variable done : S -> bool.
Variable onMatured : ReplicatorRect -> S -> S.
Variables time1 roleAge1 time2 roleAge2 : Z.

Lemma visit_maturity width node (st : Collecting) :
  isMatured time1 roleAge1 (role node) = isMatured time2 roleAge2 (role node) ->
  visit point onMatured time1 roleAge1 width node st
  = visit point onMatured time2 roleAge2 width node st.
Proof. intros Hm. unfold visit. by rewrite Hm. Qed.

Lemma visit_diffs width node (st : Collecting) time roleAge (P : ReplicatorRect -> Prop) :
  P node -> Forall (fun d => P (rect d)) (diffs st) ->
  Forall (fun d => P (rect d)) (diffs (visit point onMatured time roleAge width node st)).
Proof.
  intros Hn Hd. unfold visit.
  destruct (lt _ _).
  - destruct (isMatured _ _ _); exact Hd.
  - cbn [diffs]. apply Forall_app. split; [exact Hd|].
    constructor; [exact Hn|constructor].
Qed.

Lemma walk_maturity width startKey order (st : Collecting) :
  same_maturity order time1 roleAge1 time2 roleAge2 ->
  walk point done onMatured time1 roleAge1 width startKey order st
  = walk point done onMatured time2 roleAge2 width startKey order st.
Proof.
  revert st. induction order as [|node rest IH]; intros st Hm; cbn; [done|].
  apply Forall_cons in Hm as [Hn Hrest].
  destruct (done (callbacks st)); [done|].
  rewrite (visit_maturity _ _ _ Hn).
  destruct rest as [|nextNode rest]; [done|].
  case_bool_decide; [done|]. by apply IH.
Qed.

Lemma walk_diffs width startKey order (st : Collecting) time roleAge
    (P : ReplicatorRect -> Prop) :
  Forall P order -> Forall (fun d => P (rect d)) (diffs st) ->
  Forall (fun d => P (rect d))
    (diffs (walk point done onMatured time roleAge width startKey order st)).
Proof.
  revert st. induction order as [|node rest IH]; intros st Ho Hd; cbn; [done|].
  apply Forall_cons in Ho as [Hn Hrest].
  destruct (done (callbacks st)); [done|].
  pose proof (visit_diffs width node st time roleAge P Hn Hd) as Hv.
  destruct rest as [|nextNode rest]; [done|].
  case_bool_decide; [done|]. by apply IH.
Qed.

Lemma nearest_maturity sorted collected m :
  Forall (fun d => isMatured time1 roleAge1 (role (rect d))
                   = isMatured time2 roleAge2 (role (rect d))) sorted ->
  nearest time1 roleAge1 sorted collected m = nearest time2 roleAge2 sorted collected m.
Proof.
  revert collected m. induction sorted as [|d rest IH]; intros collected m Hm; cbn; [done|].
  apply Forall_cons in Hm as [Hd Hrest]. rewrite Hd.
  destruct (0 <? _); [done|]. by apply IH.
Qed.

Lemma collectNodesAroundPoint_maturity peers currentNode width collected s :
  same_maturity peers time1 roleAge1 time2 roleAge2 ->
  collectNodesAroundPoint point done onMatured time1 roleAge1 peers currentNode width collected s
  = collectNodesAroundPoint point done onMatured time2 roleAge2 peers currentNode width collected s.
Proof.
  intros Hm. unfold collectNodesAroundPoint.
  set (st0 := {| collector := collected; diffs := []; matured := 0; callbacks := s |}).
  assert (Hst : forall time roleAge,
    Forall (fun d => isMatured time1 roleAge1 (role (rect d))
                     = isMatured time2 roleAge2 (role (rect d)))
      (diffs (match currentNode with
              | Some i =>
                  match peers !! i with
                  | Some startNode =>
                      walk point done onMatured time roleAge width (publicKey startNode)
                        (drop i peers ++ take i peers) st0
                  | None => st0
                  end
              | None => st0
              end))).
  { intros time roleAge. destruct currentNode as [i|]; [|by constructor].
    destruct (peers !! i); [|by constructor].
    apply (walk_diffs _ _ _ _ _ _
             (fun node => isMatured time1 roleAge1 (role node)
                          = isMatured time2 roleAge2 (role node))); [|by constructor].
    apply Forall_app. split; [by apply Forall_drop|by apply Forall_take]. }
  assert (Heq :
    match currentNode with
    | Some i =>
        match peers !! i with
        | Some startNode =>
            walk point done onMatured time1 roleAge1 width (publicKey startNode)
              (drop i peers ++ take i peers) st0
        | None => st0
        end
    | None => st0
    end
    = match currentNode with
      | Some i =>
          match peers !! i with
          | Some startNode =>
              walk point done onMatured time2 roleAge2 width (publicKey startNode)
                (drop i peers ++ take i peers) st0
          | None => st0
          end
      | None => st0
      end).
  { destruct currentNode as [i|]; [|done]. destruct (peers !! i); [|done].
    apply walk_maturity. apply Forall_app.
    split; [by apply Forall_drop|by apply Forall_take]. }
  rewrite Heq. destruct (matured _ =? 0); [|done].
  f_equal. apply nearest_maturity.
  rewrite js_sort_by_Permutation. apply Hst.
Qed.

End Maturity.

(** C4. With the same ring, cursor and number of leaders, two calls of
    the sampling procedure return the same leaders, in the same order,
    whenever the same roles of the ring have matured at the two calls:
    the time of a call and the role age enter the result through the
    maturity of the roles on the ring only. *)
Theorem findLeaders_same_maturity_same_leaders (st : SharedLog)
    (peers : list ReplicatorRect) (subject : string) (cursor : R) (numberOfLeaders : Z)
    (now1 now2 : Z) (roleAge1 roleAge2 : option Z) :
  _sortedPeersCache st = Some peers ->
  same_maturity peers
    now1 (default (Z.min WAIT_FOR_ROLE_MATURITY (now1 - openTime st)) roleAge1)
    now2 (default (Z.min WAIT_FOR_ROLE_MATURITY (now2 - openTime st)) roleAge2) ->
  findLeadersFromUniformNumber st now1 cursor numberOfLeaders roleAge1
    = findLeadersFromUniformNumber st now2 cursor numberOfLeaders roleAge2
  /\ findLeaders st now1 subject numberOfLeaders roleAge1
    = findLeaders st now2 subject numberOfLeaders roleAge2.
Proof.
  intros Hring Hm.
  assert (Hu : forall c,
    findLeadersFromUniformNumber st now1 c numberOfLeaders roleAge1
    = findLeadersFromUniformNumber st now2 c numberOfLeaders roleAge2).
  { intros c. unfold findLeadersFromUniformNumber. rewrite Hring.
    destruct (length peers =? 0)%nat; [done|].
    generalize (@nil string) as leaders.
    induction (seqZ 0 (Z.min numberOfLeaders (Z.of_nat (length peers)))) as [|i l IH];
      intros leaders; cbn [fold_left]; [done|].
    rewrite (collectNodesAroundPoint_maturity _ _ _ _ _ _ _ peers (Some 0%nat) _ leaders tt Hm).
    apply IH. }
  split; [apply Hu|]. unfold findLeaders. destruct (closed st); [done|apply Hu].
Qed.

(** C8. When the shared log is closed, [findLeaders] returns the list
    that holds the hash of the public key of the node and nothing else,
    whatever the subject, the number of leaders asked for and the ring. *)
Theorem findLeaders_closed_returns_self (st : SharedLog) (now : Z) (subject : string)
    (numberOfLeaders : Z) (roleAge : option Z) :
  closed st = true ->
  findLeaders st now subject numberOfLeaders roleAge = [hashcode (identity st)]
  /\ forall ring total,
       findLeaders (set_ring ring total st) now subject numberOfLeaders roleAge
       = [hashcode (identity st)].
Proof.
  intros Hc. unfold findLeaders. cbn [closed set_ring identity]. by rewrite Hc.
Qed.


End WithNumber.

(** *** Concrete rings *)

(** The binary64 number nearest to [n / d]. *)
Definition ratio (n d : Z) : float := PrimFloat.div (float_of_Z n) (float_of_Z d).

Definition key_hash (key : string) : string := key.
Definition key_offset (key : string) : float :=
  if bool_decide (key = "A"%string) then ratio 0 1
  else if bool_decide (key = "B"%string) then ratio 333 1000
  else ratio 666 1000.

(** Three replicators a third of the ring apart, each with factor 0.34;
    the first took its role at time 0, the others at time 20000. *)
Definition three_peers : list (@ReplicatorRect float) :=
  [ {| publicKey := "A"; offset := key_offset "A";
       role := {| factor := ratio 34 100; timestamp := 0 |} |};
    {| publicKey := "B"; offset := key_offset "B";
       role := {| factor := ratio 34 100; timestamp := 20000 |} |};
    {| publicKey := "C"; offset := key_offset "C";
       role := {| factor := ratio 34 100; timestamp := 20000 |} |} ].

Definition three_peers_log (isClosed : bool) : @SharedLog float :=
  {| closed := isClosed; identity := "A";
     _sortedPeersCache := Some three_peers;
     _totalParticipation := ratio 102 100;
     _canReplicate := None; openTime := 0 |}.

(** C4, as first stated, fails: on the same ring, with the same cursor
    0.4 and one leader asked for, the call at time 21000, when the role
    of B has not matured, returns B, C and A, and the call at time 30000
    returns B alone. *)
Lemma leaders_change_with_time :
  findLeadersFromUniformNumber key_hash (three_peers_log false) 21000 (ratio 4 10) 1 None
    = ["B"; "C"; "A"]%string
  /\ findLeadersFromUniformNumber key_hash (three_peers_log false) 30000 (ratio 4 10) 1 None
    = ["B"]%string.
Proof. split; vm_compute; reflexivity. Qed.

Lemma findLeaders_same_maturity_same_leaders_witness :
  findLeadersFromUniformNumber key_hash (three_peers_log false) 30000 (ratio 4 10) 2 None
    = findLeadersFromUniformNumber key_hash (three_peers_log false) 40000 (ratio 4 10) 2 (Some 100)
  /\ findLeaders key_offset key_hash key_hash (three_peers_log false) 30000 "gid" 2 None
    = findLeaders key_offset key_hash key_hash (three_peers_log false) 40000 "gid" 2 (Some 100).
Proof.
  apply (findLeaders_same_maturity_same_leaders key_offset key_hash key_hash
           (three_peers_log false) three_peers).
  - reflexivity.
  - repeat constructor.
Defined.

Lemma findLeaders_closed_returns_self_witness :
  findLeaders key_offset key_hash key_hash (three_peers_log true) 30000 "gid" 2 None
    = ["A"%string]
  /\ forall ring total,
       findLeaders key_offset key_hash key_hash
         (set_ring ring total (three_peers_log true)) 30000 "gid" 2 None
       = ["A"%string].
Proof.
  apply (findLeaders_closed_returns_self key_offset key_hash key_hash
           (three_peers_log true) 30000 "gid" 2 None).
  reflexivity.
Defined.

(** A shared log that has just been opened, over the integers and over
    binary64. *)
Definition opened {R} `{Number R} : @SharedLog R :=
  {| closed := false; identity := "A"; _sortedPeersCache := Some [];
     _totalParticipation := zero; _canReplicate := None; openTime := 0 |}.

Definition Z_offset (key : string) : Z := Z.of_nat (String.length key).




(** *** The ring of replicators *)

Section Ring.

Context {R : Type} {HN : Number R}.
Variable hashToUniformNumber : string -> R.

(** The offsets grow strictly along the ring *)
Fixpoint ascending (l : list (@ReplicatorRect R)) : Prop :=
  match l with
  | [] => True
  | x :: l' => Forall (fun y => gt (offset y) (offset x) = true) l' /\ ascending l'
  end.

(** Every node sits at the offset of its key *)
Definition placed (l : list (@ReplicatorRect R)) : Prop :=
  Forall (fun x => offset x = hashToUniformNumber (publicKey x)) l.

Definition ring_ok (l : list (@ReplicatorRect R)) : Prop := ascending l /\ placed l.


Lemma ascending_app l1 l2 :
  ascending (l1 ++ l2)
  <-> ascending l1 /\ ascending l2
      /\ forall x y, x ∈ l1 -> y ∈ l2 -> gt (offset y) (offset x) = true.
Proof.
  induction l1 as [|a l1 IH]; cbn.
  - split; [intros H; repeat split; [done|]; by intros x y ?%elem_of_nil|tauto].
  - rewrite Forall_app, IH. split.
    + intros ([Ha1 Ha2] & H1 & H2 & H12). repeat split; try done.
      intros x y [->|Hx]%elem_of_cons Hy.
      * by apply (proj1 (Forall_forall _ _) Ha2).
      * by apply H12.
    + intros ([Ha1 H1] & H2 & H12). repeat split; try done.
      * apply Forall_forall. intros y Hy. apply H12; [by left|done].
      * intros x y Hx Hy. apply H12; [by right|done].
Qed.



Lemma remove_walk_shape key (l : list (@ReplicatorRect R)) :
  match remove_walk key l with
  | Some (l', prev) =>
      exists l1 old l2, l = l1 ++ old :: l2 /\ l' = l1 ++ l2
        /\ publicKey old = key /\ role old = prev
        /\ Forall (fun x => publicKey x <> key) l1
  | None => Forall (fun x => publicKey x <> key) l
  end.
Proof.
  induction l as [|currentNode rest IH]; cbn [remove_walk]; [constructor|].
  case_bool_decide as Hkey.
  - exists [], currentNode, rest. by repeat split.
  - destruct (remove_walk key rest) as [[rest' prev]|].
    + destruct IH as (l1 & old & l2 & -> & -> & Hold & Hprev & Hl1).
      exists (currentNode :: l1), old, l2. repeat split; try done. by constructor.
    + by constructor.
Qed.

Section Order.

(** [>] is a strict total order on the offsets in use (as on the integers,
    and on the doubles other than NaN and the two zeros taken apart). *)
Hypothesis gt_irrefl : forall a : R, gt a a = false.
Hypothesis gt_trans : forall a b c : R, gt a b = true -> gt b c = true -> gt a c = true.
Hypothesis gt_total : forall a b : R, a = b \/ gt a b = true \/ gt b a = true.

Lemma ring_ok_key_once l1 old l2 x :
  ring_ok (l1 ++ old :: l2) ->
  Forall (fun y => publicKey y <> publicKey old) l1 ->
  x ∈ l1 ++ l2 -> publicKey x <> publicKey old.
Proof.
  intros [Hasc Hpl] Hl1 [Hx|Hx]%elem_of_app.
  - by apply (proj1 (Forall_forall _ _) Hl1).
  - intros Hk. apply ascending_app in Hasc as (_ & [Hold _] & _).
    pose proof (proj1 (Forall_forall _ _) Hold x Hx) as Hgt. cbn beta in Hgt.
    unfold placed in Hpl. rewrite Forall_forall in Hpl.
    rewrite (Hpl x), (Hpl old), Hk, gt_irrefl in Hgt; [done| |].
    + apply elem_of_app. right. by left.
    + apply elem_of_app. right. by right.
Qed.






(** X15. An observer, or a replicator with a factor that is not positive, is
    not on the ring after the call; the other peers of the ring are kept
    as they were. It is reported as removed, with the role it had, when
    the key was on the ring, and nothing changes when it was not. *)
Theorem modifyReplicators_observer_off_ring (st : SharedLog) (newRole : Role)
    (key : string) (online : bool) (ring : list ReplicatorRect) :
  _sortedPeersCache st = Some ring ->
  ring_ok ring ->
  match newRole with
  | Observer => True
  | ReplicatorRole r =>
      gt (factor r) zero = false
      /\ match _canReplicate st with Some can => can key r = true | None => True end
  end ->
  exists st' c ring',
    _modifyReplicators hashToUniformNumber st newRole key online = Ok (st', c)
    /\ _sortedPeersCache st' = Some ring'
    /\ (forall x, x ∈ ring' <-> x ∈ ring /\ publicKey x <> key)
    /\ match c with
       | removed prev => exists old, old ∈ ring /\ publicKey old = key /\ role old = prev
       | none => st' = st /\ Forall (fun x => publicKey x <> key) ring
       | _ => False
       end.
Proof.
  intros Hring Hok Hrole.
  assert (Hremove : exists st' c ring',
    match remove_walk key ring with
    | Some (l, prev) =>
        Ok (set_ring l (sub (_totalParticipation st) (factor prev)) st, removed prev)
    | None => Ok (st, none)
    end = Ok (st', c)
    /\ _sortedPeersCache st' = Some ring'
    /\ (forall x, x ∈ ring' <-> x ∈ ring /\ publicKey x <> key)
    /\ match c with
       | removed prev => exists old, old ∈ ring /\ publicKey old = key /\ role old = prev
       | none => st' = st /\ Forall (fun x => publicKey x <> key) ring
       | _ => False
       end).
  { pose proof (remove_walk_shape key ring) as Hs.
    destruct (remove_walk key ring) as [[l prev]|].
    - destruct Hs as (l1 & old & l2 & -> & -> & Hold & Hprev & Hl1).
      eexists _, _, _. split; [reflexivity|]. split; [reflexivity|]. split.
      + intros x. rewrite <- Hold in Hl1 |- *.
        pose proof (ring_ok_key_once l1 old l2 x Hok Hl1) as Honce.
        rewrite !elem_of_app, elem_of_cons. rewrite elem_of_app in Honce.
        split; [tauto|]. intros [[?|[->|?]] ?]; tauto.
      + exists old. split; [|done]. apply elem_of_app. right. by left.
    - eexists _, _, _. split; [reflexivity|]. split; [exact Hring|]. split; [|done].
      intros x. split; [|tauto]. intros Hx. split; [done|].
      by apply (proj1 (Forall_forall _ _) Hs). }
  unfold _modifyReplicators. destruct newRole as [|r].
  - rewrite Hring. exact Hremove.
  - destruct Hrole as [Hf Hcan].
    replace (match _canReplicate st with
             | Some can => negb (can key r)
             | None => false
             end) with false by (destruct (_canReplicate st); [by rewrite Hcan|done]).
    rewrite Hring, Hf. exact Hremove.
Qed.

End Order.

End Ring.

(** *** The leaders *)

Lemma Set_add_elem x s y : y ∈ Set_add x s <-> y = x \/ y ∈ s.
Proof.
  unfold Set_add. case_bool_decide as Hx.
  - split; [by right|]. by intros [->|?].
  - rewrite elem_of_app, list_elem_of_singleton. tauto.
Qed.

Lemma Set_add_NoDup x s : NoDup s -> NoDup (Set_add x s).
Proof.
  intros Hs. unfold Set_add. case_bool_decide as Hx; [done|].
  apply NoDup_app. split; [done|]. split; [|apply NoDup_singleton].
  intros y Hy ->%list_elem_of_singleton. done.
Qed.

Lemma Set_add_not_nil x s : Set_add x s <> [].
Proof.
  unfold Set_add. case_bool_decide as Hx.
  - intros ->. by apply elem_of_nil in Hx.
  - by destruct s.
Qed.

Section Leaders.

Context {R : Type} {HN : Number R} {HO : NumberOps R}.
Variable hashcode : string -> string.

Section Collected.

Context {S : Type}.
Variable point : S -> R.
Variable done : S -> bool.
Variable onMatured : @ReplicatorRect R -> S -> S.
Variables time roleAge : Z.
Variable width : R.

(** What a collection may hold: the names in [allowed], each once; the
    nodes set aside in [diffs] are among them too. *)
Definition within (allowed : list string) (st : @Collecting R S) : Prop :=
  NoDup (collector st)
  /\ (forall y, y ∈ collector st -> y ∈ allowed)
  /\ Forall (fun d => hashcode (publicKey (rect d)) ∈ allowed) (diffs st).

(** Something has been collected or set aside, and a matured node has
    been collected *)
Definition started (st : @Collecting R S) : Prop :=
  (collector st <> [] \/ diffs st <> [])
  /\ 0 <= matured st /\ (0 < matured st -> collector st <> []).

Lemma visit_within (allowed : list string) node st :
  hashcode (publicKey node) ∈ allowed ->
  within allowed st ->
  within allowed (visit hashcode point onMatured time roleAge width node st).
Proof.
  intros Hn (Hnd & Hsub & Hd). unfold visit.
  destruct (lt _ _).
  - assert (Hw : NoDup (Set_add (hashcode (publicKey node)) (collector st))
                /\ forall y, y ∈ Set_add (hashcode (publicKey node)) (collector st) ->
                             y ∈ allowed).
    { split; [by apply Set_add_NoDup|]. intros y [->|Hy]%Set_add_elem; [done|by apply Hsub]. }
    destruct Hw as [Hw1 Hw2]. destruct (isMatured _ _ _); unfold within; cbn; done.
  - unfold within; cbn. split; [done|]. split; [done|].
    apply Forall_app. split; [done|]. by repeat constructor.
Qed.

Lemma visit_started node st :
  0 <= matured st -> (0 < matured st -> collector st <> []) ->
  started (visit hashcode point onMatured time roleAge width node st).
Proof.
  intros Hm Hc. unfold visit, started. destruct (lt _ _).
  - destruct (isMatured _ _ _); cbn; (split; [left; apply Set_add_not_nil|]);
      (split; [lia|]); intros _; apply Set_add_not_nil.
  - cbn. split; [right; by destruct (diffs st)|]. done.
Qed.

Lemma visit_keeps node st y :
  y ∈ collector st ->
  y ∈ collector (visit hashcode point onMatured time roleAge width node st).
Proof.
  intros Hy. unfold visit. destruct (lt _ _); [|done].
  destruct (isMatured _ _ _); cbn; apply Set_add_elem; by right.
Qed.

Lemma walk_within (allowed : list string) startKey order st :
  Forall (fun node => hashcode (publicKey node) ∈ allowed) order ->
  within allowed st ->
  within allowed (walk hashcode point done onMatured time roleAge width startKey order st).
Proof.
  revert st. induction order as [|node rest IH]; intros st Ho Hst; cbn [walk]; [done|].
  apply Forall_cons in Ho as [Hn Ho]. destruct (done _); [done|].
  pose proof (visit_within allowed node st Hn Hst) as Hv.
  destruct rest as [|nextNode rest']; [done|].
  case_bool_decide; [done|]. by apply IH.
Qed.

Lemma walk_keeps startKey order st y :
  y ∈ collector st ->
  y ∈ collector (walk hashcode point done onMatured time roleAge width startKey order st).
Proof.
  revert st. induction order as [|node rest IH]; intros st Hy; cbn [walk]; [done|].
  destruct (done _); [done|].
  pose proof (visit_keeps node st y Hy) as Hv.
  destruct rest as [|nextNode rest']; [done|].
  case_bool_decide; [done|]. by apply IH.
Qed.

Lemma walk_started_keeps startKey order st :
  started st ->
  started (walk hashcode point done onMatured time roleAge width startKey order st).
Proof.
  revert st. induction order as [|node rest IH]; intros st Hst; cbn [walk]; [done|].
  destruct (done _); [done|].
  assert (Hv : started (visit hashcode point onMatured time roleAge width node st)).
  { destruct Hst as (_ & Hm & Hc). by apply visit_started. }
  destruct rest as [|nextNode rest']; [done|].
  case_bool_decide; [done|]. by apply IH.
Qed.

Lemma walk_started startKey node rest st :
  done (callbacks st) = false ->
  0 <= matured st -> (0 < matured st -> collector st <> []) ->
  started (walk hashcode point done onMatured time roleAge width startKey (node :: rest) st).
Proof.
  intros Hd Hm Hc. cbn [walk]. rewrite Hd.
  pose proof (visit_started node st Hm Hc) as Hv.
  destruct rest as [|nextNode rest']; [done|].
  case_bool_decide; [done|]. by apply walk_started_keeps.
Qed.

Lemma nearest_within (allowed : list string) (sorted : list (@Diff R)) collected m :
  Forall (fun d => hashcode (publicKey (rect d)) ∈ allowed) sorted ->
  NoDup collected -> (forall y, y ∈ collected -> y ∈ allowed) ->
  NoDup (nearest hashcode time roleAge sorted collected m)
  /\ forall y, y ∈ nearest hashcode time roleAge sorted collected m -> y ∈ allowed.
Proof.
  revert collected m. induction sorted as [|d rest IH]; intros collected m Hs Hnd Hsub;
    cbn [nearest]; [done|].
  apply Forall_cons in Hs as [Hd Hs].
  assert (Hw : NoDup (Set_add (hashcode (publicKey (rect d))) collected)
              /\ forall y, y ∈ Set_add (hashcode (publicKey (rect d))) collected ->
                           y ∈ allowed).
  { split; [by apply Set_add_NoDup|]. intros y [->|Hy]%Set_add_elem; [done|by apply Hsub]. }
  destruct (0 <? _); [exact Hw|]. apply IH; [done|apply Hw..].
Qed.

Lemma nearest_keeps (sorted : list (@Diff R)) collected m y :
  y ∈ collected -> y ∈ nearest hashcode time roleAge sorted collected m.
Proof.
  revert collected m. induction sorted as [|d rest IH]; intros collected m Hy;
    cbn [nearest]; [done|].
  assert (y ∈ Set_add (hashcode (publicKey (rect d))) collected)
    by (apply Set_add_elem; by right).
  destruct (0 <? _); [done|]. by apply IH.
Qed.

Lemma nearest_not_nil (sorted : list (@Diff R)) collected m :
  sorted <> [] \/ collected <> [] ->
  nearest hashcode time roleAge sorted collected m <> [].
Proof.
  destruct sorted as [|d rest]; cbn [nearest]; [by intros [?|?]|]. intros _.
  pose proof (Set_add_not_nil (hashcode (publicKey (rect d))) collected) as Hne.
  intros Hnil. destruct (0 <? _); [done|].
  destruct (Set_add (hashcode (publicKey (rect d))) collected) as [|y s] eqn:Hs; [done|].
  assert (Hy : y ∈ nearest hashcode time roleAge rest (y :: s)
                     (if isMatured time roleAge (role (rect d)) then m + 1 else m))
    by (apply nearest_keeps; by left).
  rewrite Hnil in Hy. by apply elem_of_nil in Hy.
Qed.

(** [collectNodesAroundPoint] adds names of peers of the ring only, keeps
    what was collected before, and collects no name twice. *)
Lemma collectNodesAroundPoint_within peers currentNode collected s :
  NoDup collected ->
  let r := fst (collectNodesAroundPoint hashcode point done onMatured time roleAge peers
                  currentNode width collected s) in
  NoDup r
  /\ (forall y, y ∈ collected -> y ∈ r)
  /\ (forall y, y ∈ r -> y ∈ collected \/ exists x, x ∈ peers /\ y = hashcode (publicKey x)).
Proof.
  intros Hnd. cbn zeta. unfold collectNodesAroundPoint.
  set (allowed := collected ++ ((fun x => hashcode (publicKey x)) <$> peers)).
  set (st0 := {| collector := collected; diffs := []; matured := 0; callbacks := s |}).
  assert (Hall : forall l, (forall x, x ∈ l -> x ∈ peers) ->
            Forall (fun node => hashcode (publicKey node) ∈ allowed) l).
  { intros l Hl. apply Forall_forall. intros x Hx. apply elem_of_app. right.
    apply list_elem_of_fmap. exists x. split; [done|]. by apply Hl. }
  assert (H0 : within allowed st0).
  { split; [done|]. split; [|constructor]. intros y Hy. apply elem_of_app. by left. }
  set (st := match currentNode with
             | Some i => match peers !! i with
                         | Some startNode => walk hashcode point done onMatured time roleAge
                                               width (publicKey startNode)
                                               (drop i peers ++ take i peers) st0
                         | None => st0
                         end
             | None => st0
             end).
  assert (Hst : within allowed st /\ forall y, y ∈ collected -> y ∈ collector st).
  { unfold st. destruct currentNode as [i|]; [|done].
    destruct (peers !! i) as [startNode|]; [|done]. split.
    - apply walk_within; [|done]. apply Hall. intros x Hx.
      by rewrite Permutation_app_comm, take_drop in Hx.
    - intros y Hy. by apply walk_keeps. }
  destruct Hst as [(Hnd' & Hsub & Hd) Hkeep].
  assert (Hfin : forall y, y ∈ allowed ->
            y ∈ collected \/ exists x, x ∈ peers /\ y = hashcode (publicKey x)).
  { intros y [?|(x & -> & Hx)%list_elem_of_fmap]%elem_of_app; [by left|right; eauto]. }
  destruct (matured st =? 0); cbn [fst].
  - destruct (nearest_within allowed
                (js_sort_by (fun x y => negb (gt (sub (diff x) (diff y)) zero)) (diffs st))
                (collector st) (matured st)) as [Hn1 Hn2]; [|done|done|].
    { by rewrite js_sort_by_Permutation. }
    split; [done|]. split.
    + intros y Hy. by apply nearest_keeps, Hkeep.
    + intros y Hy. by apply Hfin, Hn2.
  - split; [done|]. split; [done|]. intros y Hy. by apply Hfin, Hsub.
Qed.

(** From the head of a ring that is not empty, something is collected *)
Lemma collectNodesAroundPoint_not_nil p peers collected s :
  done s = false ->
  fst (collectNodesAroundPoint hashcode point done onMatured time roleAge (p :: peers)
         (Some 0%nat) width collected s) <> [].
Proof.
  intros Hd. unfold collectNodesAroundPoint. cbn [lookup list_lookup drop take app].
  set (st0 := {| collector := collected; diffs := []; matured := 0; callbacks := s |}).
  rewrite app_nil_r.
  pose proof (walk_started (publicKey p) p peers st0 Hd) as (Hsome & Hm & Hc);
    [done|cbn; lia|].
  destruct (matured _ =? 0) eqn:Hz; cbn [fst].
  - apply nearest_not_nil. destruct Hsome as [?|Hdiffs]; [by right|left].
    intros Hnil. apply Hdiffs. apply Permutation_nil_r. rewrite <- Hnil.
    symmetry. apply js_sort_by_Permutation.
  - apply Hc. apply Z.eqb_neq in Hz. lia.
Qed.

End Collected.

Lemma seqZ_nil_iff m n : seqZ m n = [] <-> n <= 0.
Proof.
  split.
  - intros Hnil. destruct (decide (n <= 0)) as [|Hn]; [done|].
    assert (Hl : length (seqZ m n) = Z.to_nat n) by apply length_seqZ.
    rewrite Hnil in Hl. cbn in Hl. lia.
  - intros Hn. by apply seqZ_nil.
Qed.

(** X16. The leaders are peers of the ring, each named once; when the log is
    closed the one leader is the node itself. *)
Theorem findLeaders_on_ring (hashToUniformNumber : string -> R) (seed : string -> string)
    (st : SharedLog) (now : Z) (subject : string) (numberOfLeaders : Z)
    (roleAge : option Z) :
  let leaders := findLeaders hashToUniformNumber hashcode seed st now subject
                   numberOfLeaders roleAge in
  NoDup leaders
  /\ forall y, y ∈ leaders ->
       (closed st = true /\ y = hashcode (identity st))
       \/ (closed st = false
           /\ exists peers x, _sortedPeersCache st = Some peers /\ x ∈ peers
                              /\ y = hashcode (publicKey x)).
Proof.
  cbn zeta. unfold findLeaders. destruct (closed st).
  { split; [apply NoDup_singleton|]. intros y ->%list_elem_of_singleton. by left. }
  unfold findLeadersFromUniformNumber.
  destruct (_sortedPeersCache st) as [peers|]; [|split; [constructor|by intros y ?%elem_of_nil]].
  destruct (length peers =? 0)%nat; [split; [constructor|by intros y ?%elem_of_nil]|].
  set (f := fun leaders i => _).
  assert (Hfold : forall l acc,
            NoDup acc -> (forall y, y ∈ acc -> exists x, x ∈ peers /\ y = hashcode (publicKey x)) ->
            NoDup (fold_left f l acc)
            /\ forall y, y ∈ fold_left f l acc ->
                 exists x, x ∈ peers /\ y = hashcode (publicKey x)).
  { induction l as [|i l IH]; intros acc Hnd Hsub; cbn [fold_left]; [done|].
    unfold f at 2 4.
    match goal with |- context [collectNodesAroundPoint hashcode ?p ?d ?o ?t ?ra peers ?cur ?w acc tt] =>
      pose proof (collectNodesAroundPoint_within p d o t ra w peers cur acc tt Hnd)
        as (H1 & _ & H3) end.
    apply IH; [done|]. intros y [Hy|Hy]%H3; [by apply Hsub|done]. }
  destruct (Hfold (seqZ 0 (Z.min numberOfLeaders (Z.of_nat (length peers)))) [])
    as [H1 H2]; [constructor|by intros y ?%elem_of_nil|].
  split; [done|]. intros y Hy. right. split; [done|]. exists peers.
  destruct (H2 y Hy) as (x & Hx & ->). eauto.
Qed.

(** X17. There is no leader exactly when the log is open and its ring is
    undefined or empty, or no leader is asked for. *)
Theorem findLeaders_none_iff (hashToUniformNumber : string -> R) (seed : string -> string)
    (st : SharedLog) (now : Z) (subject : string) (numberOfLeaders : Z)
    (roleAge : option Z) :
  findLeaders hashToUniformNumber hashcode seed st now subject numberOfLeaders roleAge = []
  <-> closed st = false
      /\ (_sortedPeersCache st = None \/ _sortedPeersCache st = Some []
          \/ numberOfLeaders <= 0).
Proof.
  unfold findLeaders. destruct (closed st); [split; [done|by intros [? _]]|].
  unfold findLeadersFromUniformNumber.
  destruct (_sortedPeersCache st) as [peers|]; [|split; [by auto|done]].
  destruct peers as [|p peers]; [split; [by auto|done]|].
  cbn [length Nat.eqb].
  set (n := Z.min numberOfLeaders (Z.of_nat (S (length peers)))).
  set (f := fun leaders i => _).
  assert (Hkeep : forall l acc, acc <> [] -> fold_left f l acc <> []).
  { induction l as [|i l IH]; intros acc Hacc; cbn [fold_left]; [done|].
    apply IH. unfold f. by apply collectNodesAroundPoint_not_nil. }
  split.
  - intros Hnil. split; [done|]. right. right.
    destruct (decide (numberOfLeaders <= 0)) as [|Hpos]; [done|].
    destruct (seqZ 0 n) as [|i l] eqn:Hseq.
    + apply seqZ_nil_iff in Hseq. unfold n in Hseq. lia.
    + cbn [fold_left] in Hnil. apply Hkeep in Hnil; [done|].
      unfold f. by apply collectNodesAroundPoint_not_nil.
  - intros [_ [?|[?|Hn]]]; [done..|].
    replace (seqZ 0 n) with (@nil Z); [done|]. symmetry. apply seqZ_nil_iff.
    unfold n. lia.
Qed.

(** X18. Alone on the ring of an open log, a peer leads every subject. *)
Theorem findLeaders_alone (hashToUniformNumber : string -> R) (seed : string -> string)
    (st : SharedLog) (now : Z) (subject : string) (numberOfLeaders : Z)
    (roleAge : option Z) (p : ReplicatorRect) :
  closed st = false -> _sortedPeersCache st = Some [p] -> 1 <= numberOfLeaders ->
  findLeaders hashToUniformNumber hashcode seed st now subject numberOfLeaders roleAge
  = [hashcode (publicKey p)].
Proof.
  intros Hopen Hring Hn. unfold findLeaders. rewrite Hopen.
  unfold findLeadersFromUniformNumber. rewrite Hring. cbn [length Nat.eqb].
  replace (Z.min numberOfLeaders (Z.of_nat 1)) with 1 by lia.
  change (seqZ 0 1) with [0]. cbn [fold_left].
  match goal with
  | |- fst (collectNodesAroundPoint hashcode ?pt ?d ?o ?t ?ra [p] ?cur ?w [] tt) = _ =>
      pose proof (collectNodesAroundPoint_within pt d o t ra w [p] cur [] tt (NoDup_nil_2))
        as (Hnd & _ & Hsub);
      pose proof (collectNodesAroundPoint_not_nil pt d o t ra w p [] [] tt eq_refl) as Hne
  end.
  cbn zeta in Hnd, Hsub.
  destruct (fst _) as [|y l]; [done|].
  assert (Hin : forall z, z ∈ y :: l -> z = hashcode (publicKey p)).
  { intros z [?%elem_of_nil|(x & Hx & ->)]%Hsub; [done|].
    by apply list_elem_of_singleton in Hx as ->. }
  rewrite (Hin y) by (by left). f_equal.
  destruct l as [|z l]; [done|].
  apply NoDup_cons in Hnd as [Hy _]. destruct Hy.
  rewrite (Hin y), (Hin z); [by left|by right; left|by left].
Qed.

End Leaders.

(** *** Grouping heads, the history of the memory, the role messages *)

(** [Map.get] on a [Map] kept in insertion order *)
Definition Map_get {V} (k : string) (m : list (string * V)) : option V :=
  snd <$> find (fun kv => bool_decide (kv.1 = k)) m.

Section GroupByGid.

Context {T : Type}.
(** [getGid] of an entry, or of the entry of an entry with references *)
Variable getGid : T -> string.

(** [groupByGid] *)
Definition groupByGid (entries : list T) : list (string * list T) :=
  fold_left
    (fun groupByGid head =>
       let gid := getGid head in
       match Map_get gid groupByGid with
       | Some value => obj_set gid (value ++ [head]) groupByGid
       | None => obj_set gid [head] groupByGid
       end) entries [].

Lemma Map_get_obj_set {V} k (v : V) m k' :
  Map_get k' (obj_set k v m) = if decide (k = k') then Some v else Map_get k' m.
Proof.
  unfold Map_get. induction m as [|[k0 v0] m IH]; cbn [obj_set find].
  - cbn [fst]. destruct (decide (k = k')) as [Hk|Hk].
    + by rewrite bool_decide_eq_true_2.
    + by rewrite bool_decide_eq_false_2.
  - destruct (decide (k0 = k)) as [Hk0|Hk0]; cbn [find fst].
    + subst k0. destruct (decide (k = k')) as [Hk|Hk].
      * by rewrite bool_decide_eq_true_2.
      * by rewrite !bool_decide_eq_false_2.
    + destruct (decide (k0 = k')) as [Hk|Hk].
      * subst k'. rewrite !bool_decide_eq_true_2 by done.
        by rewrite decide_False by congruence.
      * rewrite !bool_decide_eq_false_2 by done. exact IH.
Qed.

Lemma obj_set_fst {V} k (v : V) m :
  (obj_set k v m).*1 = if bool_decide (k ∈ m.*1) then m.*1 else m.*1 ++ [k].
Proof.
  induction m as [|[k0 v0] m IH]; cbn [obj_set]; [done|].
  destruct (decide (k0 = k)) as [Hk0|Hk0]; rewrite !fmap_cons; cbn [fst].
  - subst k0. rewrite bool_decide_eq_true_2; [done|by left].
  - rewrite IH. destruct (decide (k ∈ m.*1)) as [Hin|Hin].
    + rewrite !bool_decide_eq_true_2; [done|by right|done].
    + rewrite !bool_decide_eq_false_2; [done| |done].
      intros [?|?]%elem_of_cons; [congruence|done].
Qed.

Lemma Map_get_None {V} k (m : list (string * V)) : Map_get k m = None <-> k ∉ m.*1.
Proof.
  unfold Map_get. induction m as [|[k0 v0] m IH]; cbn.
  - split; [intros _ ?%elem_of_nil; done|done].
  - case_bool_decide as Hk; cbn in Hk; subst.
    + split; [done|]. intros []. by left.
    + rewrite IH. split.
      * intros Hn [?|?]%elem_of_cons; [congruence|done].
      * intros Hn ?. apply Hn. by right.
Qed.

(** X19. [groupByGid] makes one group for every gid among the entries and
    none for any other, under keys that do not repeat; the group of a
    gid holds the entries of that gid, all of them, in their order, so
    no group is empty. *)
Theorem groupByGid_groups (entries : list T) :
  NoDup (groupByGid entries).*1
  /\ (forall gid, Map_get gid (groupByGid entries)
        = if bool_decide (gid ∈ getGid <$> entries)
          then Some (filter (fun e => getGid e = gid) entries)
          else None)
  /\ (forall gid group, (gid, group) ∈ groupByGid entries -> group <> []).
Proof.
  unfold groupByGid.
  set (f := fun groupByGid head => _).
  assert (Hgen : forall l m done,
    NoDup m.*1 ->
    (forall gid, Map_get gid m = if bool_decide (gid ∈ getGid <$> done)
                                 then Some (filter (fun e => getGid e = gid) done)
                                 else None) ->
    NoDup (fold_left f l m).*1
    /\ forall gid, Map_get gid (fold_left f l m)
         = if bool_decide (gid ∈ getGid <$> (done ++ l))
           then Some (filter (fun e => getGid e = gid) (done ++ l))
           else None).
  { induction l as [|head l IH]; intros m done Hnd Hm; cbn [fold_left].
    - by rewrite app_nil_r.
    - replace (done ++ head :: l) with ((done ++ [head]) ++ l) by (by rewrite <- app_assoc).
      apply IH.
      + unfold f. destruct (Map_get (getGid head) m) eqn:Hg; rewrite obj_set_fst.
        * rewrite bool_decide_eq_true_2; [done|].
          destruct (decide (getGid head ∈ m.*1)) as [|Hn]; [done|].
          apply Map_get_None in Hn. congruence.
        * apply Map_get_None in Hg. rewrite bool_decide_eq_false_2 by done.
          apply NoDup_app. split; [done|]. split; [|apply NoDup_singleton].
          by intros x Hx ->%list_elem_of_singleton.
      + intros gid. unfold f.
        rewrite fmap_app, filter_app. cbn [fmap list_fmap].
        assert (Hset : forall v, Map_get gid (obj_set (getGid head) v m)
                         = if decide (getGid head = gid) then Some v else Map_get gid m)
          by (intros v; apply Map_get_obj_set).
        specialize (Hm gid).
        destruct (decide (getGid head = gid)) as [Hh|Hh].
        * rewrite bool_decide_eq_true_2
            by (apply elem_of_app; right; apply list_elem_of_singleton; done).
          rewrite (filter_cons_True _ head []) by done. rewrite filter_nil.
          rewrite <- Hh in Hm.
          destruct (Map_get (getGid head) m) as [value|] eqn:Hg; rewrite Hset.
          -- case_bool_decide; [|done]. injection Hm as ->. by rewrite Hh.
          -- case_bool_decide as Hin; [done|].
             assert (Hnil : filter (fun e => getGid e = gid) done = []).
             { destruct (filter (fun e => getGid e = gid) done) as [|e l'] eqn:Hf; [done|].
               assert (He : e ∈ filter (fun e => getGid e = gid) done)
                 by (rewrite Hf; by left).
               apply list_elem_of_filter in He as [Hge He]. destruct Hin.
               rewrite Hh, <- Hge. apply list_elem_of_fmap. eauto. }
             by rewrite Hnil.
        * rewrite (filter_cons_False _ head []) by done. rewrite filter_nil, app_nil_r.
          replace (bool_decide (gid ∈ (getGid <$> done) ++ [getGid head]))
            with (bool_decide (gid ∈ getGid <$> done)).
          2:{ apply bool_decide_ext. rewrite elem_of_app, list_elem_of_singleton.
              split; [by left|]. intros [?|?]; [done|congruence]. }
          destruct (Map_get (getGid head) m); by rewrite Hset, Hm. }
  destruct (Hgen entries [] []) as [H1 H2]; [constructor|done|].
  split; [done|]. split; [exact H2|].
  intros gid group Hin.
  assert (Hg : Map_get gid (fold_left f entries []) = Some group).
  { clear H2. revert Hin H1. generalize (fold_left f entries []). intros m.
    unfold Map_get. induction m as [|[k0 v0] m IH]; [by intros ?%elem_of_nil|].
    intros [[= <- <-]|Hin]%elem_of_cons Hnd; cbn.
    - by rewrite bool_decide_eq_true_2.
    - apply NoDup_cons in Hnd as [Hk0 Hnd]. rewrite bool_decide_eq_false_2; [by apply IH|].
      cbn. intros ->. apply Hk0. apply list_elem_of_fmap. by exists (gid, group). }
  rewrite H2 in Hg. case_bool_decide as Hgid; [|done]. injection Hg as <-.
  apply list_elem_of_fmap in Hgid as (e & -> & He). intros Hnil.
  assert (e ∈ filter (fun e0 => getGid e0 = getGid e) entries)
    by (by apply list_elem_of_filter).
  rewrite Hnil in H. by apply elem_of_nil in H.
Qed.

End GroupByGid.

Section History.

Context {R : Type}.

(** [addToHistory]: the field [history], undefined at first, and the
    pair that is pushed *)
Definition addToHistory (history : option (list (R * R))) (usedMemory factor : R)
    : option (list (R * R)) :=
  let history := default [] history ++ [(usedMemory, factor)] in
  let maxHistoryLength := 10%nat in
  if (maxHistoryLength <? length history)%nat then Some (tail history) else Some history.

Lemma addToHistory_Some (done : list (R * R)) u f :
  addToHistory (Some done) u f
  = Some (if (10 <? length (done ++ [(u, f)]))%nat
          then tail (done ++ [(u, f)]) else done ++ [(u, f)]).
Proof.
  unfold addToHistory. cbv zeta. unfold default. cbn [from_option id].
  by destruct (_ <? _)%nat.
Qed.

(** X20. After any calls of [addToHistory] on a history that was undefined,
    the history holds the pairs of the last ten calls, in their order. *)
Theorem addToHistory_keeps_last_ten (calls : list (R * R)) :
  fold_left (fun history call => addToHistory history call.1 call.2) calls None
  = match calls with
    | [] => None
    | _ :: _ => Some (drop (length calls - 10) calls)
    end.
Proof.
  assert (Hgen : forall l done,
    (length done <= 10)%nat ->
    fold_left (fun history call => addToHistory history call.1 call.2) l (Some done)
    = Some (drop (length (done ++ l) - 10) (done ++ l))).
  { induction l as [|call l IH]; intros done Hd; cbn [fold_left].
    - rewrite app_nil_r. replace (length done - 10)%nat with 0%nat by lia. done.
    - destruct call as [u f]. cbn [fst snd]. rewrite addToHistory_Some.
      replace (done ++ (u, f) :: l) with ((done ++ [(u, f)]) ++ l)
        by (by rewrite <- app_assoc).
      destruct (10 <? length (done ++ [(u, f)]))%nat eqn:Hlt.
      + apply Nat.ltb_lt in Hlt. rewrite length_app in Hlt. cbn in Hlt.
        destruct done as [|d done']; [cbn in Hlt; lia|].
        cbn [app tail]. rewrite IH by (rewrite length_app; cbn in *; lia).
        f_equal. cbn [length] in *. rewrite !length_app in *. cbn [length] in *.
        replace (S (length done' + 1 + length l) - 10)%nat
          with (S (length done' + 1 + length l - 10))%nat by lia.
        done.
      + apply Nat.ltb_ge in Hlt. by rewrite IH. }
  destruct calls as [|[u f] l]; [done|]. cbn [fold_left].
  change (addToHistory None (u, f).1 (u, f).2) with (Some [(u, f)]).
  rewrite (Hgen l [(u, f)]) by (cbn; lia). done.
Qed.

End History.

Section RoleMessages.

Variable hashcode : string -> string.



End RoleMessages.

(** *** [isLeader] and [getReplicatorUnion] *)

(** [>=] on numbers *)
Class NumberGe (R : Type) := { ge : R -> R -> bool }.

#[global] Instance Z_NumberGe : NumberGe Z := {| ge := Z.geb |}.
#[global] Instance float_NumberGe : NumberGe float := {| ge := fun a b => PrimFloat.leb b a |}.

(** What a method returns or throws, with the message of the error *)
Inductive Outcome (A : Type) :=
| Returned (a : A)
| Threw (message : string).
Arguments Returned {A} a.
Arguments Threw {A} message.

Section Union.

Context {R : Type} {HN : Number R} {HO : NumberOps R} {HG : NumberGe R}.
Variable hashToUniformNumber : string -> R.
Variable hashcode : string -> string.
Variable seed : string -> string.

(** [isLeader]: the leader found is a string, and the empty string is
    falsy. *)
Definition isLeader (st : SharedLog) (now : Z) (slot : string) (numberOfLeaders : Z)
    (roleAge : option Z) : bool :=
  match find (fun l => bool_decide (l = hashcode (identity st)))
          (findLeaders hashToUniformNumber hashcode seed st now slot numberOfLeaders roleAge)
  with
  | Some isLeader => negb (bool_decide (isLeader = ""%string))
  | None => false
  end.

(** X22. [isLeader] holds exactly when the hash code of the node is among the
    leaders found and is not the empty string. *)
Theorem isLeader_iff (st : SharedLog) (now : Z) (slot : string) (numberOfLeaders : Z)
    (roleAge : option Z) :
  isLeader st now slot numberOfLeaders roleAge = true
  <-> hashcode (identity st) <> ""%string
      /\ hashcode (identity st)
           ∈ findLeaders hashToUniformNumber hashcode seed st now slot numberOfLeaders roleAge.
Proof.
  unfold isLeader.
  generalize (findLeaders hashToUniformNumber hashcode seed st now slot numberOfLeaders
                roleAge). intros l.
  induction l as [|y l IH]; cbn [find].
  - split; [done|]. by intros [_ ?%elem_of_nil].
  - case_bool_decide as Hy.
    + subst y. rewrite negb_true_iff, bool_decide_eq_false. split.
      * intros Hne. split; [done|by left].
      * by intros [Hne _].
    + rewrite IH. split.
      * intros [Hne Hin]. split; [done|by right].
      * intros [Hne [?|?]%elem_of_cons]; [congruence|done].
Qed.

(** [getReplicatorUnion], at the time [now]. [ownRole] is [this.role],
    [replicas_min] the value of [this.replicas.min], and [random] the
    value of [Math.round(peers.length * Math.random())]. *)
Definition getReplicatorUnion (st : @SharedLog R) (ownRole : @Role R) (replicas_min : Z)
    (random : Z) (now : Z) (roleAge : Z) : Outcome (list string) :=
  if closed st then Threw "Closed"
  else
    let width := of_Z 1 in
    match _sortedPeersCache st with
    | None => Threw "TypeError"
    | Some peers =>
        let minReplicas := Z.min (Z.of_nat (length peers)) replicas_min in
        let coveringWidth := div width (of_Z minReplicas) in
        let walker : option nat :=
          match ownRole with
          | ReplicatorRole _ =>
              fst <$> list_find (fun x => publicKey x = identity st) peers
          | Observer =>
              match peers with
              | [] => None
              | _ :: _ =>
                  Some (Z.to_nat (Z.min (Z.max (random - 1) 0) (Z.of_nat (length peers) - 1)))
              end
          end in
        match walker with
        | None => Returned []
        | Some i =>
            match peers !! i with
            | None => Returned []
            | Some startNode =>
                (* the callbacks share [distance] and [nextPoint] *)
                let point := fun s : R * R => snd s in
                let done := fun s : R * R => ge (fst s) coveringWidth in
                let onMatured := fun (node : @ReplicatorRect R) (s : R * R) =>
                  (add (fst s) (factor (role node)),
                   rem (add (snd s) (factor (role startNode))) width) in
                Returned
                  (fst (collectNodesAroundPoint hashcode point done onMatured now roleAge
                          peers (Some i) width [] (zero, offset startNode)))
            end
        end
    end.

(** X23. [getReplicatorUnion] throws when the log is closed. When it returns,
    it returns names of peers of the ring, each once; a replicator that
    is not on the ring itself gets no name at all. *)
Theorem getReplicatorUnion_on_ring (st : @SharedLog R) (ownRole : @Role R) (replicas_min : Z)
    (random : Z) (now : Z) (roleAge : Z) :
  match getReplicatorUnion st ownRole replicas_min random now roleAge with
  | Threw message =>
      (closed st = true /\ message = "Closed"%string)
      \/ (closed st = false /\ _sortedPeersCache st = None)
  | Returned names =>
      closed st = false
      /\ exists peers,
           _sortedPeersCache st = Some peers
           /\ NoDup names
           /\ (forall y, y ∈ names -> exists x, x ∈ peers /\ y = hashcode (publicKey x))
           /\ (forall r, ownRole = ReplicatorRole r ->
                 Forall (fun x => publicKey x <> identity st) peers -> names = [])
  end.
Proof.
  unfold getReplicatorUnion. destruct (closed st); [by left|].
  destruct (_sortedPeersCache st) as [peers|]; [|by right].
  assert (Hnil : exists peers0 : list (@ReplicatorRect R),
            Some peers = Some peers0 /\ NoDup (@nil string)
            /\ (forall y, y ∈ @nil string ->
                  exists x, x ∈ peers0 /\ y = hashcode (publicKey x))
            /\ (forall r, ownRole = ReplicatorRole r ->
                  Forall (fun x => publicKey x <> identity st) peers0 -> @nil string = [])).
  { exists peers. split; [done|]. split; [constructor|].
    split; [by intros y ?%elem_of_nil|done]. }
  destruct (match ownRole with
            | Observer => _
            | ReplicatorRole _ => _
            end) as [i|] eqn:Hw; [|split; [done|exact Hnil]].
  destruct (peers !! i) as [startNode|] eqn:Hi; [|split; [done|exact Hnil]].
  split; [done|]. exists peers. split; [done|].
  match goal with |- context [collectNodesAroundPoint hashcode ?p ?d ?o now roleAge peers ?cur ?w [] ?s] =>
    pose proof (collectNodesAroundPoint_within hashcode p d o now roleAge w peers cur [] s
                  (NoDup_nil_2)) as (H1 & _ & H3) end.
  split; [exact H1|]. split.
  - intros y [?%elem_of_nil|Hy]%H3; [done|exact Hy].
  - intros r -> Hnone. apply fmap_Some in Hw as ([j x] & Hf & _).
    apply list_find_Some in Hf as (Hl & Hx & _).
    assert (Hin : x ∈ peers) by (by eapply list_elem_of_lookup_2).
    by destruct (proj1 (Forall_forall _ _) Hnone x Hin).
Qed.

End Union.

(** *** A ring over the integers *)

Lemma Z_gt_irrefl (a : Z) : gt a a = false.
Proof. cbn. rewrite Z.gtb_ltb. apply Z.ltb_irrefl. Qed.



(** The peer [B] on the ring, at the offset of its key. *)
Definition ring_B : list (@ReplicatorRect Z) :=
  [ {| publicKey := "B"; offset := 1; role := {| factor := 1; timestamp := 0 |} |} ].

Definition ring_B_AAA : list (@ReplicatorRect Z) :=
  ring_B ++ [ {| publicKey := "AAA"; offset := 3; role := {| factor := 1; timestamp := 5 |} |} ].



Lemma modifyReplicators_observer_off_ring_witness :
  exists st' c ring',
    _modifyReplicators Z_offset (set_ring ring_B_AAA 2 opened) Observer "B" true
      = Ok (st', c)
    /\ _sortedPeersCache st' = Some ring'
    /\ (forall x, x ∈ ring' <-> x ∈ ring_B_AAA /\ publicKey x <> "B"%string)
    /\ match c with
       | removed prev =>
           exists old, old ∈ ring_B_AAA /\ publicKey old = "B"%string /\ role old = prev
       | none => st' = set_ring ring_B_AAA 2 opened
                 /\ Forall (fun x => publicKey x <> "B"%string) ring_B_AAA
       | _ => False
       end.
Proof.
  apply (modifyReplicators_observer_off_ring Z_offset Z_gt_irrefl
           (set_ring ring_B_AAA 2 opened) Observer "B" true ring_B_AAA).
  - reflexivity.
  - split; repeat constructor.
  - exact I.
Defined.

(** The node [A] alone on the ring of an open log, over binary64. *)
Definition peer_A : @ReplicatorRect float :=
  {| publicKey := "A"; offset := key_offset "A";
     role := {| factor := ratio 1 1; timestamp := 0 |} |}.

Definition alone_log : @SharedLog float := set_ring [peer_A] (ratio 1 1) opened.

Lemma findLeaders_alone_witness :
  findLeaders key_offset key_hash key_hash alone_log 30000 "gid" 2 None = ["A"%string].
Proof.
  apply (findLeaders_alone key_hash key_offset key_hash alone_log 30000 "gid" 2 None peer_A).
  - reflexivity.
  - reflexivity.
  - lia.
Defined.


End SharedLogModel.
